(** * A shallow embedding of the AlphaZero-style MCTS chess engine

    The definitions below follow [lc0-alphazero-top-tier-PATCHED.wasm.js]:
    the board with its move application and attack detection, the one-ply
    static exchange evaluation (SEE), the move generator, the evaluator, the
    policy, the search-tree node and the search engine.

    Modelling conventions.
    - JavaScript integers (square indices, piece codes, centipawn scores,
      visit counts) are [Z]; the 32-bit result of the bitwise [^] is written
      out with [toInt32].
    - JavaScript numbers that carry real quantities (priors, values, PUCT
      scores) are idealised as Stdlib reals [R]: rounding, NaN and the
      infinities are outside this model, except for the initial [-Infinity]
      of the arg-max loop, which is the constructor [NegInfinity].
    - Objects live in a store: [boards] holds the [Board] objects and
      [mnodes] the [MCTSNode] objects; a reference is the index of the object
      in its list and [new] appends.  A node refers to its board, its parent
      and its children by reference, as in the source.
    - [Date.now()] and [Math.random()] read the oracles [now] and [random]
      of the environment at the current call count.
    - A fault of the source (the TypeError of a table lookup on
      [undefined]) is not represented.  Faults come from a malformed piece
      placement only; the statements about [parseFEN] and about sessions are
      restricted to well-formed placements ([placeable]) and show that the
      boards then hold piece codes only ([validBoard]). *)

From Stdlib Require Import ZArith List Reals Lra Lia Bool Ascii.
From Stdlib Require String DecimalString.
From stdpp Require Import base list.
Import ListNotations.

Local Open Scope Z_scope.

(** ** Constants *)

Module PIECES.
Definition EMPTY : Z := 0.
Definition W_PAWN : Z := 1.
Definition W_KNIGHT : Z := 2.
Definition W_BISHOP : Z := 3.
Definition W_ROOK : Z := 4.
Definition W_QUEEN : Z := 5.
Definition W_KING : Z := 6.
Definition B_PAWN : Z := 7.
Definition B_KNIGHT : Z := 8.
Definition B_BISHOP : Z := 9.
Definition B_ROOK : Z := 10.
Definition B_QUEEN : Z := 11.
Definition B_KING : Z := 12.
End PIECES.

Module PIECE_VALUES.
Definition PAWN : Z := 100.
Definition KNIGHT : Z := 320.
Definition BISHOP : Z := 330.
Definition ROOK : Z := 500.
Definition QUEEN : Z := 900.
Definition KING : Z := 20000.
End PIECE_VALUES.

Definition MATE_SCORE : Z := 50000.

(** [MCTS_CONFIG] is a mutable global of the source ([setoption] writes to
    it); the functions below take the configuration as an argument. *)
Module Config.
Record t := mk {
  simulations : Z;
  cPuct : R;
  temperature : R;
  dirichletAlpha : R;
  dirichletEpsilon : R;
  virtualLoss : Z;
  minVisitsForExpansion : Z;
  endgameSimulations : Z;
  endgamePieceThreshold : Z;
  endgameCPuct : R;
  useSEE : bool;
  seeThreshold : Z;
  tacticalDepth : Z
}.
End Config.

Definition MCTS_CONFIG : Config.t :=
  {| Config.simulations := 2000;
     Config.cPuct := 18 / 10;
     Config.temperature := 5 / 100;
     Config.dirichletAlpha := 3 / 10;
     Config.dirichletEpsilon := 25 / 100;
     Config.virtualLoss := 3;
     Config.minVisitsForExpansion := 1;
     Config.endgameSimulations := 2500;
     Config.endgamePieceThreshold := 12;
     Config.endgameCPuct := 2;
     Config.useSEE := true;
     Config.seeThreshold := -50;
     Config.tacticalDepth := 3 |}.

(** ** Zobrist hashing *)

(** The result of a JavaScript bitwise operator is a signed 32-bit integer. *)
Definition toInt32 (z : Z) : Z := (z + 2 ^ 31) mod 2 ^ 32 - 2 ^ 31.

Definition jsXor (a b : Z) : Z := toInt32 (Z.lxor (toInt32 a) (toInt32 b)).

(** The tables are filled by [init] from [Math.random()]: 13 rows of 64
    keys for the pieces, 4 keys for the castling rights and 8 for the
    en-passant files; here they are the fields of the [zobrist] object.
    [pieces[p][sq]] is read with a piece code [p] of 0..12 and a square [sq]
    of 0..63 wherever the board holds piece codes only, which is the case
    for the boards that the statements below are about ([validBoard]).  A
    missing key reads as [undefined], which [^] treats as 0; a missing row
    (the piece code [undefined], which only a malformed FEN can put on the
    board) makes the source throw a TypeError, which this model does not
    represent: it is excluded by hypothesis where it matters. *)
Module ZobristHash.
Record t := mk {
  pieces : list (list Z);
  castling : list Z;
  enPassant : list Z;
  sideToMove : Z
}.

Definition piece (z : t) (p sq : Z) : Z :=
  if (p <? 0) || (sq <? 0) then 0
  else default 0 (default [] (pieces z !! Z.to_nat p) !! Z.to_nat sq).

Definition castle (z : t) (i : nat) : Z := default 0 (castling z !! i).

Definition ep (z : t) (i : Z) : Z :=
  if i <? 0 then 0 else default 0 (enPassant z !! Z.to_nat i).
End ZobristHash.

(** ** Board representation *)

Inductive Castle := CastleWK | CastleWQ | CastleBK | CastleBQ.

(** A move object [{from, to, promotion, castle}]; an absent property is
    [None]. *)
Record Move := mkMove {
  from : Z;
  to : Z;
  promotion : option Z;
  castle : option Castle
}.

Record CastlingRights := mkCastling { wk : bool; wq : bool; bk : bool; bq : bool }.

Record Kings := mkKings { white : Z; black : Z }.

Record Board := mkBoard {
  squares : list Z;
  turn : Z;
  castling : CastlingRights;
  enPassant : Z;
  halfmove : Z;
  fullmove : Z;
  kings : Kings;
  hash : Z
}.

(** [new Board()] *)
Definition newBoard : Board :=
  {| squares := repeat PIECES.EMPTY 64;
     turn := 1;
     castling := mkCastling true true true true;
     enPassant := -1;
     halfmove := 0;
     fullmove := 1;
     kings := mkKings (-1) (-1);
     hash := 0 |}.

(** [this.squares[sq]].  Every read of the source is at an index in 0..63
    (guarded by a range test, or taken from a generated move); outside the
    array JavaScript yields [undefined], which is no piece code: it is
    rendered here by [-1].  [undefined] behaves like [-1] in the comparisons
    of the source, but not as an index of the Zobrist tables, where the
    source throws; the statements below about [parseFEN] and about sessions
    are therefore restricted to boards of 64 piece codes ([validBoard]). *)
Definition at_sq (b : Board) (sq : Z) : Z :=
  if sq <? 0 then -1 else default (-1) (squares b !! Z.to_nat sq).

(** [this.squares[sq] = p] for an index inside the array.  stdpp's insert
    leaves the list alone outside of it, where JavaScript would grow the
    array: the writes of [makeMove] for a generated move are inside the
    array, and those of [parseFEN] are for a piece placement that stays on
    the 64 squares ([placeable]), to which the statements about [parseFEN]
    are restricted. *)
Definition set_sq (sqs : list Z) (sq p : Z) : list Z :=
  if sq <? 0 then sqs else <[Z.to_nat sq := p]> sqs.

Definition isWhite (piece : Z) : bool := (1 <=? piece) && (piece <=? 6).

Definition isBlack (piece : Z) : bool := (7 <=? piece) && (piece <=? 12).

Definition isOwnPiece (b : Board) (piece : Z) : bool :=
  if turn b =? 1 then isWhite piece else isBlack piece.

Definition isEnemyPiece (b : Board) (piece : Z) : bool :=
  if turn b =? 1 then isBlack piece else isWhite piece.

(** JavaScript's [%] truncates towards zero: [Z.rem]. *)
Definition getPieceType (piece : Z) : Z :=
  if piece =? 0 then 0 else Z.rem (piece - 1) 6 + 1.

(** [Board.makeMove], statement by statement.  The board is cloned by the
    callers that need the old one ([clone] copies every field, which for an
    immutable record is the identity). *)
Definition clone (b : Board) : Board := b.

Definition makeMove (zobrist : ZobristHash.t) (b : Board) (move : Move) : Board :=
  let piece := at_sq b (from move) in
  let target := at_sq b (to move) in
  (* incremental hash *)
  let h1 := jsXor (hash b) (ZobristHash.piece zobrist piece (from move)) in
  let h2 := if negb (target =? PIECES.EMPTY)
            then jsXor h1 (ZobristHash.piece zobrist target (to move)) else h1 in
  let placed := match promotion move with
                | Some p => if p =? 0 then piece else p
                | None => piece
                end in
  let sq1 := set_sq (squares b) (from move) PIECES.EMPTY in
  let sq2 := set_sq sq1 (to move) placed in
  let h3 := jsXor h2 (ZobristHash.piece zobrist placed (to move)) in
  let isKing := getPieceType piece =? 6 in
  let kings1 :=
    if isKing then
      if turn b =? 1 then mkKings (to move) (black (kings b))
      else mkKings (white (kings b)) (to move)
    else kings b in
  (* castling: the rook hops *)
  let sq3 := match castle move with
             | Some CastleWK => set_sq (set_sq sq2 5 PIECES.W_ROOK) 7 PIECES.EMPTY
             | Some CastleWQ => set_sq (set_sq sq2 3 PIECES.W_ROOK) 0 PIECES.EMPTY
             | Some CastleBK => set_sq (set_sq sq2 61 PIECES.B_ROOK) 63 PIECES.EMPTY
             | Some CastleBQ => set_sq (set_sq sq2 59 PIECES.B_ROOK) 56 PIECES.EMPTY
             | None => sq2
             end in
  (* castling rights *)
  let c0 := castling b in
  let c1 := if isKing then
              if turn b =? 1 then mkCastling false false (bk c0) (bq c0)
              else mkCastling (wk c0) (wq c0) false false
            else c0 in
  let touches (s : Z) := (from move =? s) || (to move =? s) in
  let c2 := if touches 0 then mkCastling (wk c1) false (bk c1) (bq c1) else c1 in
  let c3 := if touches 7 then mkCastling false (wq c2) (bk c2) (bq c2) else c2 in
  let c4 := if touches 56 then mkCastling (wk c3) (wq c3) (bk c3) false else c3 in
  let c5 := if touches 63 then mkCastling (wk c4) (wq c4) false (bq c4) else c4 in
  (* en passant: the field is reset first and compared afterwards *)
  let isPawn := getPieceType piece =? 1 in
  let ep1 := if isPawn && (Z.abs (from move - to move) =? 16)
             then (from move + to move) / 2 else -1 in
  let sq4 := if isPawn && (to move =? ep1)
             then set_sq sq3 (if turn b =? 1 then to move + 8 else to move - 8) PIECES.EMPTY
             else sq3 in
  let turn' := turn b * -1 in
  {| squares := sq4;
     turn := turn';
     castling := c5;
     enPassant := ep1;
     halfmove := halfmove b + 1;
     fullmove := if turn' =? 1 then fullmove b + 1 else fullmove b;
     kings := kings1;
     hash := jsXor h3 (ZobristHash.sideToMove zobrist) |}.

(** One ray of the sliding-piece scan of [isSquareAttacked]: [true] when the
    [while (true)] loop of this direction executes [return true].  The loop
    leaves the board after at most seven steps; [fuel] bounds it. *)
Fixpoint rayAttacked (b : Board) (by_ : Z) (dr df : Z) (fuel : nat) (rank file : Z) : bool :=
  match fuel with
  | O => false
  | S fuel' =>
      let rank := rank + dr in
      let file := file + df in
      if (rank <? 0) || (rank >=? 8) || (file <? 0) || (file >=? 8) then false
      else
        let attackSq := rank * 8 + file in
        let piece := at_sq b attackSq in
        if negb (piece =? PIECES.EMPTY) then
          if ((by_ =? 1) && isWhite piece) || ((by_ =? -1) && isBlack piece) then
            let type := getPieceType piece in
            let isDiag := negb (dr =? 0) && negb (df =? 0) in
            let isOrth := (dr =? 0) || (df =? 0) in
            if type =? 5 then true
            else if (type =? 3) && isDiag then true
            else if (type =? 4) && isOrth then true
            else false
          else false
        else rayAttacked b by_ dr df fuel' rank file
  end.

Definition directions : list (Z * Z) :=
  [(1, 0); (-1, 0); (0, 1); (0, -1); (1, 1); (1, -1); (-1, 1); (-1, -1)].

Definition knightMoves : list Z := [-17; -15; -10; -6; 6; 10; 15; 17].

Definition kingMoves : list Z := [-9; -8; -7; -1; 1; 7; 8; 9].

(** [Board.isSquareAttacked(sq, by)] *)
Definition isSquareAttacked (b : Board) (sq by_ : Z) : bool :=
  let inBoard (s : Z) := (s >=? 0) && (s <? 64) in
  (* pawn attacks *)
  let pawnDir := if by_ =? 1 then -1 else 1 in
  let pawnLeft := sq + pawnDir * 8 - 1 in
  let pawnRight := sq + pawnDir * 8 + 1 in
  let pawn := if by_ =? 1 then PIECES.W_PAWN else PIECES.B_PAWN in
  if inBoard pawnLeft && (at_sq b pawnLeft =? pawn) then true
  else if inBoard pawnRight && (at_sq b pawnRight =? pawn) then true
  else
    (* knight attacks *)
    let knight := if by_ =? 1 then PIECES.W_KNIGHT else PIECES.B_KNIGHT in
    if existsb (fun offset => inBoard (sq + offset) && (at_sq b (sq + offset) =? knight))
         knightMoves then true
    else
      (* king attacks *)
      let king := if by_ =? 1 then PIECES.W_KING else PIECES.B_KING in
      if existsb (fun offset => inBoard (sq + offset) && (at_sq b (sq + offset) =? king))
           kingMoves then true
      else
        (* sliding pieces *)
        existsb (fun dir => rayAttacked b by_ (fst dir) (snd dir) 8 (sq / 8) (Z.rem sq 8))
          directions.

(** ** SEE (static exchange evaluation) *)

Module SEE.
(** [values[type] || 0] *)
Definition getPieceValue (type : Z) : Z :=
  if type <? 0 then 0
  else default 0 ([0; 100; 320; 330; 500; 900; 20000] !! Z.to_nat type).

Definition evaluate (zobrist : ZobristHash.t) (board : Board) (move : Move) : Z :=
  let attacker := at_sq board (from move) in
  let victim := at_sq board (to move) in
  if victim =? PIECES.EMPTY then 0
  else
    let attackerValue := getPieceValue (getPieceType attacker) in
    let victimValue := getPieceValue (getPieceType victim) in
    let gain := victimValue in
    let tempBoard := makeMove zobrist (clone board) move in
    if isSquareAttacked tempBoard (to move) (- turn tempBoard)
    then gain - attackerValue
    else gain.

Definition isCaptureSafe (cfg : Config.t) (zobrist : ZobristHash.t)
    (board : Board) (move : Move) : bool :=
  evaluate zobrist board move >=? Config.seeThreshold cfg.
End SEE.

(** ** Move generator *)

Module MoveGenerator.
Definition mv (sq t : Z) : Move := mkMove sq t None None.

Definition promos (board : Board) : list Z :=
  if turn board =? 1
  then [PIECES.W_QUEEN; PIECES.W_ROOK; PIECES.W_BISHOP; PIECES.W_KNIGHT]
  else [PIECES.B_QUEEN; PIECES.B_ROOK; PIECES.B_BISHOP; PIECES.B_KNIGHT].

Definition generatePawnMoves (board : Board) (sq : Z) (capturesOnly : bool) : list Move :=
  let dir := if turn board =? 1 then -8 else 8 in
  let startRank := if turn board =? 1 then 6 else 1 in
  let promoRank := if turn board =? 1 then 1 else 6 in
  let rank := sq / 8 in
  let file := Z.rem sq 8 in
  let forwardMoves :=
    if capturesOnly then []
    else
      let forward := sq + dir in
      if (forward >=? 0) && (forward <? 64) && (at_sq board forward =? PIECES.EMPTY) then
        let toRank := forward / 8 in
        if toRank =? promoRank then
          map (fun promo => mkMove sq forward (Some promo) None) (promos board)
        else
          mv sq forward ::
          (if rank =? startRank then
             let doublePush := sq + dir * 2 in
             if at_sq board doublePush =? PIECES.EMPTY then [mv sq doublePush] else []
           else [])
      else [] in
  let capture (capDir : Z) : list Move :=
    let t := sq + capDir in
    if (t <? 0) || (t >=? 64) then []
    else
      let toRank := t / 8 in
      let toFile := Z.rem t 8 in
      if negb (Z.abs (file - toFile) =? 1) then []
      else if isEnemyPiece board (at_sq board t) || (t =? enPassant board) then
        if toRank =? promoRank then
          map (fun promo => mkMove sq t (Some promo) None) (promos board)
        else [mv sq t]
      else [] in
  forwardMoves ++ capture (dir - 1) ++ capture (dir + 1).

(** The knight and the king step by a list of offsets; [reach] is the
    largest rank or file distance that is kept. *)
Definition stepMoves (board : Board) (sq : Z) (offsets : list Z) (reach : Z)
    (capturesOnly : bool) : list Move :=
  let rank := sq / 8 in
  let file := Z.rem sq 8 in
  flat_map (fun offset =>
    let t := sq + offset in
    if (t <? 0) || (t >=? 64) then []
    else
      let toRank := t / 8 in
      let toFile := Z.rem t 8 in
      if (Z.abs (rank - toRank) >? reach) || (Z.abs (file - toFile) >? reach) then []
      else
        let target := at_sq board t in
        if negb capturesOnly && (target =? PIECES.EMPTY) then [mv sq t]
        else if isEnemyPiece board target then [mv sq t]
        else []) offsets.

Definition generateKnightMoves (board : Board) (sq : Z) (capturesOnly : bool) : list Move :=
  stepMoves board sq [-17; -15; -10; -6; 6; 10; 15; 17] 2 capturesOnly.

(** One direction of [generateSlidingMoves]; the ray leaves the board
    after at most seven steps. *)
Fixpoint slide (board : Board) (sq : Z) (dr df : Z) (capturesOnly : bool)
    (fuel : nat) (r f : Z) : list Move :=
  match fuel with
  | O => []
  | S fuel' =>
      let r := r + dr in
      let f := f + df in
      if (r <? 0) || (r >=? 8) || (f <? 0) || (f >=? 8) then []
      else
        let t := r * 8 + f in
        let target := at_sq board t in
        if target =? PIECES.EMPTY then
          (if capturesOnly then [] else [mv sq t])
          ++ slide board sq dr df capturesOnly fuel' r f
        else if isEnemyPiece board target then [mv sq t]
        else []
  end.

Definition generateSlidingMoves (board : Board) (sq : Z) (dirs : list (Z * Z))
    (capturesOnly : bool) : list Move :=
  let rank := sq / 8 in
  let file := Z.rem sq 8 in
  flat_map (fun dir => slide board sq (fst dir) (snd dir) capturesOnly 8 rank file) dirs.

Definition generateBishopMoves (board : Board) (sq : Z) (capturesOnly : bool) :=
  generateSlidingMoves board sq [(1, 1); (1, -1); (-1, 1); (-1, -1)] capturesOnly.

Definition generateRookMoves (board : Board) (sq : Z) (capturesOnly : bool) :=
  generateSlidingMoves board sq [(1, 0); (-1, 0); (0, 1); (0, -1)] capturesOnly.

Definition generateQueenMoves (board : Board) (sq : Z) (capturesOnly : bool) :=
  generateSlidingMoves board sq
    [(1, 0); (-1, 0); (0, 1); (0, -1); (1, 1); (1, -1); (-1, 1); (-1, -1)] capturesOnly.

Definition generateKingMoves (board : Board) (sq : Z) (capturesOnly : bool) : list Move :=
  let rank := sq / 8 in
  let file := Z.rem sq 8 in
  let empty (s : Z) := at_sq board s =? 0 in
  stepMoves board sq [-9; -8; -7; -1; 1; 7; 8; 9] 1 capturesOnly ++
  (if capturesOnly then []
   else if (turn board =? 1) && (rank =? 7) && (file =? 4) then
     (if wk (castling board) && empty 61 && empty 62
      then [mkMove sq 62 None (Some CastleWK)] else []) ++
     (if wq (castling board) && empty 59 && empty 58 && empty 57
      then [mkMove sq 58 None (Some CastleWQ)] else [])
   else if (turn board =? -1) && (rank =? 0) && (file =? 4) then
     (if bk (castling board) && empty 5 && empty 6
      then [mkMove sq 6 None (Some CastleBK)] else []) ++
     (if bq (castling board) && empty 3 && empty 2 && empty 1
      then [mkMove sq 2 None (Some CastleBQ)] else [])
   else []).

Definition allSquares : list Z := map Z.of_nat (seq 0 64).

Definition generate (board : Board) (capturesOnly : bool) : list Move :=
  flat_map (fun sq =>
    let piece := at_sq board sq in
    if negb (isOwnPiece board piece) then []
    else
      let type := getPieceType piece in
      if type =? 1 then generatePawnMoves board sq capturesOnly
      else if type =? 2 then generateKnightMoves board sq capturesOnly
      else if type =? 3 then generateBishopMoves board sq capturesOnly
      else if type =? 4 then generateRookMoves board sq capturesOnly
      else if type =? 5 then generateQueenMoves board sq capturesOnly
      else if type =? 6 then generateKingMoves board sq capturesOnly
      else []) allSquares.
End MoveGenerator.

(** ** Piece-square tables *)

Module PST.
Definition PAWN : list Z :=
  [0; 0; 0; 0; 0; 0; 0; 0;
   50; 50; 50; 50; 50; 50; 50; 50;
   10; 10; 20; 30; 30; 20; 10; 10;
   5; 5; 10; 25; 25; 10; 5; 5;
   0; 0; 0; 20; 20; 0; 0; 0;
   5; (-5); (-10); 0; 0; (-10); (-5); 5;
   5; 10; 10; (-20); (-20); 10; 10; 5;
   0; 0; 0; 0; 0; 0; 0; 0].

Definition KNIGHT : list Z :=
  [(-50); (-40); (-30); (-30); (-30); (-30); (-40); (-50);
   (-40); (-20); 0; 0; 0; 0; (-20); (-40);
   (-30); 0; 10; 15; 15; 10; 0; (-30);
   (-30); 5; 15; 20; 20; 15; 5; (-30);
   (-30); 0; 15; 20; 20; 15; 0; (-30);
   (-30); 5; 10; 15; 15; 10; 5; (-30);
   (-40); (-20); 0; 5; 5; 0; (-20); (-40);
   (-50); (-40); (-30); (-30); (-30); (-30); (-40); (-50)].

Definition BISHOP : list Z :=
  [(-20); (-10); (-10); (-10); (-10); (-10); (-10); (-20);
   (-10); 0; 0; 0; 0; 0; 0; (-10);
   (-10); 0; 5; 10; 10; 5; 0; (-10);
   (-10); 5; 5; 10; 10; 5; 5; (-10);
   (-10); 0; 10; 10; 10; 10; 0; (-10);
   (-10); 10; 10; 10; 10; 10; 10; (-10);
   (-10); 5; 0; 0; 0; 0; 5; (-10);
   (-20); (-10); (-10); (-10); (-10); (-10); (-10); (-20)].

Definition ROOK : list Z :=
  [0; 0; 0; 0; 0; 0; 0; 0;
   5; 10; 10; 10; 10; 10; 10; 5;
   (-5); 0; 0; 0; 0; 0; 0; (-5);
   (-5); 0; 0; 0; 0; 0; 0; (-5);
   (-5); 0; 0; 0; 0; 0; 0; (-5);
   (-5); 0; 0; 0; 0; 0; 0; (-5);
   (-5); 0; 0; 0; 0; 0; 0; (-5);
   0; 0; 0; 5; 5; 0; 0; 0].

Definition QUEEN : list Z :=
  [(-20); (-10); (-10); (-5); (-5); (-10); (-10); (-20);
   (-10); 0; 0; 0; 0; 0; 0; (-10);
   (-10); 0; 5; 5; 5; 5; 0; (-10);
   (-5); 0; 5; 5; 5; 5; 0; (-5);
   0; 0; 5; 5; 5; 5; 0; (-5);
   (-10); 5; 5; 5; 5; 5; 0; (-10);
   (-10); 0; 5; 0; 0; 0; 0; (-10);
   (-20); (-10); (-10); (-5); (-5); (-10); (-10); (-20)].

Definition KING_MIDDLE : list Z :=
  [(-30); (-40); (-40); (-50); (-50); (-40); (-40); (-30);
   (-30); (-40); (-40); (-50); (-50); (-40); (-40); (-30);
   (-30); (-40); (-40); (-50); (-50); (-40); (-40); (-30);
   (-30); (-40); (-40); (-50); (-50); (-40); (-40); (-30);
   (-20); (-30); (-30); (-40); (-40); (-30); (-30); (-20);
   (-10); (-20); (-20); (-20); (-20); (-20); (-20); (-10);
   20; 20; 0; 0; 0; 0; 20; 20;
   20; 30; 10; 0; 0; 10; 30; 20].

Definition KING_END : list Z :=
  [(-50); (-40); (-30); (-20); (-20); (-30); (-40); (-50);
   (-30); (-20); (-10); 0; 0; (-10); (-20); (-30);
   (-30); (-10); 20; 30; 30; 20; (-10); (-30);
   (-30); (-10); 30; 40; 40; 30; (-10); (-30);
   (-30); (-10); 30; 40; 40; 30; (-10); (-30);
   (-30); (-10); 20; 30; 30; 20; (-10); (-30);
   (-30); (-30); 0; 0; 0; 0; (-30); (-30);
   (-50); (-30); (-30); (-30); (-30); (-30); (-30); (-50)].
Definition get (table : list Z) (i : Z) : Z := default 0 (table !! Z.to_nat i).
End PST.

(** ** Evaluator (value network) *)

Module Evaluator.
Record Acc := mkAcc {
  score : Z;
  whitePieces : Z;
  blackPieces : Z;
  whiteBishops : Z;
  blackBishops : Z
}.

(** The body of the loop over the squares. *)
Definition step (cfg : Config.t) (board : Board) (a : Acc) (sq : Z) : Acc :=
  let piece := at_sq board sq in
  if piece =? PIECES.EMPTY then a
  else
    let type := getPieceType piece in
    let isW := isWhite piece in
    let pstIndex := if isW then sq else 63 - sq in
    let wp := if isW then whitePieces a + 1 else whitePieces a in
    let bp := if isW then blackPieces a else blackPieces a + 1 in
    let value :=
      if type =? 1 then PIECE_VALUES.PAWN
      else if type =? 2 then PIECE_VALUES.KNIGHT
      else if type =? 3 then PIECE_VALUES.BISHOP
      else if type =? 4 then PIECE_VALUES.ROOK
      else if type =? 5 then PIECE_VALUES.QUEEN
      else if type =? 6 then PIECE_VALUES.KING
      else 0 in
    let wb := if type =? 3 then whiteBishops a + (if isW then 1 else 0) else whiteBishops a in
    let bb := if type =? 3 then blackBishops a + (if isW then 0 else 1) else blackBishops a in
    let score1 := score a + (if isW then value else - value) in
    let isEndgame := wp + bp <? Config.endgamePieceThreshold cfg in
    let pstBonus :=
      if type =? 1 then PST.get PST.PAWN pstIndex
      else if type =? 2 then PST.get PST.KNIGHT pstIndex
      else if type =? 3 then PST.get PST.BISHOP pstIndex
      else if type =? 4 then PST.get PST.ROOK pstIndex
      else if type =? 5 then PST.get PST.QUEEN pstIndex
      else if type =? 6 then
        (if isEndgame then PST.get PST.KING_END pstIndex
         else PST.get PST.KING_MIDDLE pstIndex)
      else 0 in
    mkAcc (score1 + (if isW then pstBonus else - pstBonus)) wp bp wb bb.

Definition evaluate (cfg : Config.t) (board : Board) : Z :=
  let a := fold_left (step cfg board) MoveGenerator.allSquares (mkAcc 0 0 0 0 0) in
  let s1 := if whiteBishops a >=? 2 then score a + 50 else score a in
  let s2 := if blackBishops a >=? 2 then s1 - 50 else s1 in
  let mobility := Z.of_nat (length (MoveGenerator.generate board false)) in
  let s3 := s2 + turn board * mobility * 8 in
  if turn board =? 1 then s3 else - s3.

(** [Math.tanh(score / 1000)], over the reals.  The floating-point
    [Math.tanh] rounds: for a large score it returns exactly 1 or -1, which
    the real function never reaches.  Bounds on this value are therefore
    stated with [<=], and the order of two values with [<=]. *)
Definition normalizeValue (score : R) : R := tanh (score / 1000).
End Evaluator.

(** ** Policy network (with SEE) *)

Module PolicyNetwork.
Definition captureValue (type : Z) : Z :=
  if type <? 0 then 0 else default 0 ([0; 1; 3; 3; 5; 9; 0] !! Z.to_nat type).

(** The score of one move, before [Math.exp]. *)
Definition moveScore (cfg : Config.t) (zobrist : ZobristHash.t)
    (board : Board) (move : Move) : R :=
  let piece := at_sq board (from move) in
  let pieceType := getPieceType piece in
  let target := at_sq board (to move) in
  let targetType := getPieceType target in
  let s0 : R := 1%R in
  let s1 : R :=
    if Config.useSEE cfg && (targetType >? 0) then
      let see := SEE.evaluate zobrist board move in
      if see <? Config.seeThreshold cfg then (s0 * (1 / 100))%R
      else (s0 + IZR see / 100)%R
    else s0 in
  let s2 : R :=
    if targetType >? 0 then (s1 + IZR (3 + captureValue targetType))%R else s1 in
  let s3 : R :=
    match promotion move with
    | Some p => if p =? 0 then s2 else (s2 + 10)%R
    | None => s2
    end in
  let toRank := to move / 8 in
  let toFile := Z.rem (to move) 8 in
  let s4 : R :=
    if (toRank >=? 2) && (toRank <=? 5) && (toFile >=? 2) && (toFile <=? 5)
    then (s3 + 15 / 10)%R else s3 in
  let s5 : R :=
    if (fullmove board <? 12) &&
       ((pieceType =? 2) || (pieceType =? 3)) &&
       (((turn board =? 1) && (from move / 8 =? 7)) ||
        ((turn board =? -1) && (from move / 8 =? 0)))
    then (s4 + 25 / 10)%R else s4 in
  match castle move with
  | Some _ => (s5 + 4)%R
  | None => s5
  end.

Definition sumR (l : list R) : R := fold_left Rplus l 0%R.

Definition getMovePolicy (cfg : Config.t) (zobrist : ZobristHash.t)
    (board : Board) (moves : list Move) : list R :=
  let scores := map (fun move => exp (moveScore cfg zobrist board move)) moves in
  let totalScore := sumR scores in
  map (fun s => (s / totalScore)%R) scores.
End PolicyNetwork.

(** ** The object store and the environment *)

(** [Math.pow] on the arguments it receives here: a base that is a draw of
    [Math.random()] or a visit count, hence not negative. *)
Definition Math_pow (x y : R) : R :=
  if Req_dec_T x 0 then (if Req_dec_T y 0 then 1%R else 0%R) else Rpower x y.

Record Env := mkEnv {
  now : nat -> Z;       (* the value of the k-th call of Date.now() *)
  random : nat -> R     (* the value of the k-th call of Math.random() *)
}.

(** ** MCTS node *)

Record MCTSNode := mkNode {
  board : nat;                (* reference to a Board object *)
  parent : option nat;        (* reference to the parent node, or null *)
  move : option Move;
  prior : R;
  children : list nat;        (* references to the child nodes *)
  visitCount : Z;
  totalValue : R;
  virtualLoss : Z;
  isExpanded : bool;
  isTerminal : bool;
  terminalValue : Z
}.

(** [new MCTSNode(board, parent, move, prior)] *)
Definition newNode (board : nat) (parent : option nat) (move : option Move) (prior : R)
    : MCTSNode :=
  {| board := board; parent := parent; move := move; prior := prior;
     children := []; visitCount := 0; totalValue := 0%R; virtualLoss := 0;
     isExpanded := false; isTerminal := false; terminalValue := 0 |}.

Global Instance MCTSNode_inhabited : Inhabited MCTSNode := populate (newNode 0 None None 0%R).
Global Instance Board_inhabited : Inhabited Board := populate newBoard.

(** The fields of [MCTSEngine].  [onInfo] records whether a callback is
    installed; [stopTime] is [None] when [startTime + timeLimit] is NaN. *)
Record MCTSEngine := mkEngine {
  root : option nat;
  nodes : Z;
  startTime : Z;
  stopTime : option Z;
  stopSearch : bool;
  onInfo : bool
}.

Record World := mkWorld {
  boards : list Board;
  mnodes : list MCTSNode;
  engine : MCTSEngine;
  ticks : nat;                (* calls of Date.now() so far *)
  draws : nat                 (* calls of Math.random() so far *)
}.

(** Dereferencing.  References handed out by the store are indices of
    allocated objects, so the default of the total lookup is never read in a
    well-formed world. *)
Definition node (w : World) (id : nat) : MCTSNode := mnodes w !!! id.
Definition boardOf (w : World) (n : MCTSNode) : Board := boards w !!! board n.

Definition setNodes (w : World) (ns : list MCTSNode) : World :=
  mkWorld (boards w) ns (engine w) (ticks w) (draws w).
Definition setEngine (w : World) (e : MCTSEngine) : World :=
  mkWorld (boards w) (mnodes w) e (ticks w) (draws w).
Definition tick (w : World) : World :=
  mkWorld (boards w) (mnodes w) (engine w) (S (ticks w)) (draws w).
Definition drawn (w : World) (k : nat) : World :=
  mkWorld (boards w) (mnodes w) (engine w) (ticks w) (k + draws w).

Definition setPrior (n : MCTSNode) (p : R) : MCTSNode :=
  mkNode (board n) (parent n) (move n) p (children n) (visitCount n) (totalValue n)
    (virtualLoss n) (isExpanded n) (isTerminal n) (terminalValue n).

(** [this.visitCount++; this.totalValue += value] *)
Definition visit (n : MCTSNode) (value : R) : MCTSNode :=
  mkNode (board n) (parent n) (move n) (prior n) (children n) (visitCount n + 1)
    (totalValue n + value)%R (virtualLoss n) (isExpanded n) (isTerminal n) (terminalValue n).

Definition countPieces (b : Board) : Z :=
  Z.of_nat (length (List.filter (fun p => negb (p =? PIECES.EMPTY)) (squares b))).

(** The running maximum of the arg-max loop starts at [-Infinity]. *)
Inductive Score := NegInfinity | Finite (r : R).

(** [value > bestValue] *)
Definition exceeds (value : R) (bestValue : Score) : bool :=
  match bestValue with
  | NegInfinity => true
  | Finite b => if Rlt_dec b value then true else false
  end.

Section Engine.
Variable cfg : Config.t.
Variable zobrist : ZobristHash.t.
Variable env : Env.

Definition getQ (n : MCTSNode) : R :=
  if visitCount n =? 0 then 0%R
  else ((totalValue n - IZR (virtualLoss n * Config.virtualLoss cfg))
        / IZR (visitCount n + virtualLoss n))%R.

(** The exploration constant depends on the game phase of the node's own
    board. *)
Definition cPuctOf (w : World) (n : MCTSNode) : R :=
  let totalPieces := countPieces (boardOf w n) in
  let isEndgame := totalPieces <? Config.endgamePieceThreshold cfg in
  if isEndgame then Config.endgameCPuct cfg else Config.cPuct cfg.

Definition getU (w : World) (n : MCTSNode) (parentVisits : Z) : R :=
  (cPuctOf w n * prior n * sqrt (IZR parentVisits) / (1 + IZR (visitCount n)))%R.

Definition getPUCT (w : World) (n : MCTSNode) (parentVisits : Z) : R :=
  (getQ n + getU w n parentVisits)%R.

(** One iteration of the loop of [selectChild]. *)
Definition selectStep (w : World) (parentVisits : Z)
    (best : option nat * Score) (child : nat) : option nat * Score :=
  let value := getPUCT w (node w child) parentVisits in
  if exceeds value (snd best) then (Some child, Finite value) else best.

Definition selectChild (w : World) (n : MCTSNode) : option nat :=
  fst (fold_left (selectStep w (visitCount n)) (children n) (None, NegInfinity)).

(** [expand]: a node without moves becomes terminal; otherwise one child
    per move is allocated, each with a fresh board. *)
Definition expand (w : World) (id : nat) : World :=
  let n := node w id in
  if isExpanded n then w
  else
    let b := boardOf w n in
    let moves := MoveGenerator.generate b false in
    match moves with
    | [] =>
        setNodes w (<[id := mkNode (board n) (parent n) (move n) (prior n) (children n)
                              (visitCount n) (totalValue n) (virtualLoss n)
                              (isExpanded n) true (- MATE_SCORE)]> (mnodes w))
    | _ :: _ =>
        let priors := PolicyNetwork.getMovePolicy cfg zobrist b moves in
        let newBoards := map (fun m => makeMove zobrist (clone b) m) moves in
        let firstBoard := length (boards w) in
        let firstNode := length (mnodes w) in
        let newNodes :=
          imap (fun i mp => newNode (firstBoard + i)%nat (Some id) (Some (fst mp)) (snd mp))
               (zip moves priors) in
        let n' := mkNode (board n) (parent n) (move n) (prior n)
                    (children n ++ seq firstNode (length newNodes))
                    (visitCount n) (totalValue n) (virtualLoss n)
                    true (isTerminal n) (terminalValue n) in
        mkWorld (boards w ++ newBoards) (<[id := n']> (mnodes w) ++ newNodes)
                (engine w) (ticks w) (draws w)
    end.

(** The noise samples of [addDirichletNoise] for [k] children, drawn from
    call [d] of [Math.random()] on. *)
Definition noiseSamples (d k : nat) : list R :=
  map (fun i => Math_pow (random env (d + i)%nat) (1 / Config.dirichletAlpha cfg)%R)
      (seq 0 k).

Definition blend (sum : R) (prior noise : R) : R :=
  ((1 - Config.dirichletEpsilon cfg) * prior
   + Config.dirichletEpsilon cfg * (noise / sum))%R.

(** The second loop of [addDirichletNoise]. *)
Fixpoint blendPriors (sum : R) (ns : list MCTSNode) (cs : list nat) (noise : list R)
    : list MCTSNode :=
  match cs, noise with
  | c :: cs', x :: noise' =>
      blendPriors sum (<[c := setPrior (ns !!! c) (blend sum (prior (ns !!! c)) x)]> ns)
                  cs' noise'
  | _, _ => ns
  end.

Definition addDirichletNoise (w : World) (id : nat) : World :=
  let cs := children (node w id) in
  match cs with
  | [] => w
  | _ :: _ =>
      let noise := noiseSamples (draws w) (length cs) in
      let sum := PolicyNetwork.sumR noise in
      drawn (setNodes w (blendPriors sum (mnodes w) cs noise)) (length cs)
  end.

(** [backpropagate] follows the parent references; [fuel] bounds the depth
    of the recursion ([None]: the bound was too small). *)
Fixpoint backpropagate (fuel : nat) (ns : list MCTSNode) (id : nat) (value : R)
    : option (list MCTSNode) :=
  match fuel with
  | O => None
  | S fuel' =>
      let n := ns !!! id in
      let ns' := <[id := visit n value]> ns in
      match parent n with
      | Some p => backpropagate fuel' ns' p (- value)%R
      | None => Some ns'
      end
  end.

(** The deterministic branch of [getBestMove]: the loop that keeps the
    first child of largest visit count. *)
Definition mostVisited (w : World) (first : nat) (cs : list nat) : nat :=
  fold_left (fun bestChild child =>
               if visitCount (node w child) >? visitCount (node w bestChild)
               then child else bestChild) cs first.

(** The sampling loop of the stochastic branch. *)
Fixpoint sample (w : World) (rand : R) (cs : list nat) (visits : list R) (last : nat) : nat :=
  match cs, visits with
  | c :: cs', v :: visits' =>
      let rand := (rand - v)%R in
      if Rle_dec rand 0 then c else sample w rand cs' visits' last
  | _, _ => last
  end.

(** [getBestMove(temperature)]: the move (or null), and the world after the
    call, which differs by one draw of [Math.random()] in the stochastic
    branch. *)
Definition getBestMove (w : World) (n : MCTSNode) (temperature : R) : option Move * World :=
  match children n with
  | [] => (None, w)
  | c0 :: _ =>
      if Req_dec_T temperature 0 then
        (move (node w (mostVisited w c0 (children n))), w)
      else
        let visits := map (fun c => Math_pow (IZR (visitCount (node w c))) (1 / temperature)%R)
                          (children n) in
        let sum := fold_left Rplus visits 0%R in
        let rand := (random env (draws w) * sum)%R in
        (move (node w (sample w rand (children n) visits (List.last (children n) c0))),
         drawn w 1)
  end.
End Engine.

(** ** MCTS engine *)

(** What one simulation did: the nodes it went through, from the root to the
    node on which [backpropagate] was called, and the value passed to that
    call. *)
Record SimOutcome := mkOutcome {
  path : list nat;
  value : R
}.

Section Search.
Variable cfg : Config.t.
Variable zobrist : ZobristHash.t.
Variable env : Env.

Definition evaluatePosition (b : Board) : R :=
  Evaluator.normalizeValue (IZR (Evaluator.evaluate cfg b)).

(** The selection loop of [runSimulation], started at node [id]:
    [Some (Some p)] is the path walked down to the node where the loop
    stops, [Some None] stands for [selectChild] returning null, and [None]
    for a walk longer than [fuel]. *)
Fixpoint selectLeaf (w : World) (fuel : nat) (id : nat) : option (option (list nat)) :=
  match fuel with
  | O => None
  | S fuel' =>
      let n := node w id in
      if isExpanded n && (0 <? length (children n))%nat then
        match selectChild cfg w n with
        | None => Some None
        | Some c =>
            match selectLeaf w fuel' c with
            | Some (Some p) => Some (Some (id :: p))
            | r => r
            end
        end
      else Some (Some [id])
  end.

(** [node.backpropagate(value)] at the end of a simulation that went
    through [p]. *)
Definition finish (w : World) (p : list nat) (id : nat) (v : R)
    : option (World * option SimOutcome) :=
  match backpropagate (length (mnodes w)) (mnodes w) id v with
  | Some ns => Some (setNodes w ns, Some (mkOutcome p v))
  | None => None
  end.

Definition countNode (w : World) : World :=
  let e := engine w in
  setEngine w (mkEngine (root e) (nodes e + 1) (startTime e) (stopTime e)
                        (stopSearch e) (onInfo e)).

Definition runSimulation (w : World) : option (World * option SimOutcome) :=
  match root (engine w) with
  | None => None
  | Some r =>
      match selectLeaf w (length (mnodes w)) r with
      | None => None
      | Some None => Some (w, None)
      | Some (Some p) =>
          let id := List.last p r in
          let w1 := countNode w in
          let n := node w1 id in
          if isTerminal n then finish w1 p id (IZR (terminalValue n))
          else if (visitCount n >=? Config.minVisitsForExpansion cfg) && negb (isExpanded n)
          then
            let w2 := expand cfg zobrist w1 id in
            let n2 := node w2 id in
            if isTerminal n2 then finish w2 p id (IZR (terminalValue n2))
            else
              match children n2 with
              | c :: _ => finish w2 (p ++ [c]) c (evaluatePosition (boardOf w2 (node w2 c)))
              | [] => finish w2 p id (evaluatePosition (boardOf w2 n2))
              end
          else finish w1 p id (evaluatePosition (boardOf w1 n))
      end
  end.

(** [Date.now() >= this.stopTime]; a comparison with NaN is false. *)
Definition timeIsUp (t : Z) (stop : option Z) : bool :=
  match stop with
  | Some s => t >=? s
  | None => false
  end.

(** The progress report reads the clock once; its output is not part of
    the model. *)
Definition report (w : World) (i : Z) : World :=
  if (Z.rem i 100 =? 0) && onInfo (engine w) then tick w else w.

(** The simulation loop of [search]: [remaining] iterations are left before
    [i < simulations] fails.  The result lists the outcomes of the
    simulations that ran. *)
Fixpoint simLoop (remaining : nat) (i : Z) (w : World)
    : option (World * list (option SimOutcome)) :=
  match remaining with
  | O => Some (w, [])
  | S remaining' =>
      if stopSearch (engine w) then Some (w, [])
      else
        let t := now env (ticks w) in
        let w := tick w in
        if timeIsUp t (stopTime (engine w)) then Some (w, [])
        else
          match runSimulation w with
          | None => None
          | Some (w1, o) =>
              match simLoop remaining' (i + 1) (report w1 i) with
              | Some (w2, os) => Some (w2, o :: os)
              | None => None
              end
          end
  end.

(** The first statements of [search]: the clock is read and the counters
    are reset. *)
Definition beginSearch (w : World) (timeLimit : option Z) : World :=
  let t := now env (ticks w) in
  let e := engine w in
  setEngine (tick w)
    (mkEngine (root e) 0 t (option_map (Z.add t) timeLimit) false (onInfo e)).

(** The simulation count in force: the endgame overrides the argument. *)
Definition effectiveSimulations (w : World) (board : nat) (simulations : option Z)
    : option Z :=
  let totalPieces := countPieces (boards w !!! board) in
  if totalPieces <? Config.endgamePieceThreshold cfg
  then Some (Config.endgameSimulations cfg) else simulations.

(** [if (!this.root || this.root.board.hash !== board.hash)
       this.root = new MCTSNode(board)] *)
Definition keepsRoot (w : World) (board : nat) : bool :=
  match root (engine w) with
  | None => false
  | Some r => hash (boardOf w (node w r)) =? hash (boards w !!! board)
  end.

Definition initRoot (w : World) (board : nat) : World :=
  if keepsRoot w board then w
  else
    let e := engine w in
    mkWorld (boards w) (mnodes w ++ [newNode board None None 0%R])
            (mkEngine (Some (length (mnodes w))) (nodes e) (startTime e) (stopTime e)
                      (stopSearch e) (onInfo e))
            (ticks w) (draws w).

(** The world in which the simulation loop starts, when the root has
    children. *)
Definition prepare (w : World) (board : nat) (timeLimit : option Z) : World :=
  let w1 := initRoot (beginSearch w timeLimit) board in
  match root (engine w1) with
  | Some r => expand cfg zobrist w1 r
  | None => w1
  end.

Definition iterations (simulations : option Z) : nat :=
  match simulations with
  | Some s => Z.to_nat s
  | None => 0%nat              (* [i < undefined] is false *)
  end.

(** [search(board, simulations, timeLimit)]; an argument that is not
    supplied is [None].  The result is the move, or [None] for null. *)
Definition search (w : World) (board : nat) (simulations timeLimit : option Z)
    : option (World * option Move) :=
  let simulations := effectiveSimulations w board simulations in
  let w2 := prepare w board timeLimit in
  match root (engine w2) with
  | None => None
  | Some r =>
      match children (node w2 r) with
      | [] => Some (w2, None)
      | _ :: _ =>
          let w3 := addDirichletNoise cfg env w2 r in
          match simLoop (iterations simulations) 0 w3 with
          | None => None
          | Some (w4, _) =>
              let res := getBestMove env w4 (node w4 r) (Config.temperature cfg) in
              Some (snd res, fst res)
          end
      end
  end.
End Search.

(** ** UCI front end *)

(** The part of [AlphaZeroEngine] that feeds the search: the engine owns one
    [Board] object, [this.board], which [parseFEN] overwrites in place and
    which [go] hands to [MCTSEngine.search] by reference. *)
Module AlphaZeroEngine.
Import Stdlib.Strings.String.

(** [this.board] is the first object of the store. *)
Definition boardRef : nat := 0%nat.

(** [new AlphaZeroEngine()] *)
Definition create : World :=
  mkWorld [newBoard] [] (mkEngine None 0 0 (Some 0) false true) 0 0.

(** [CHAR_TO_PIECE[char]]; a character without an entry is [undefined],
    rendered by [-1] as in [at_sq].  With such a character in the piece
    placement the source throws in [zobrist.compute]; see [placeable]. *)
Definition CHAR_TO_PIECE (c : ascii) : Z :=
  if Ascii.eqb c "P" then 1 else if Ascii.eqb c "N" then 2
  else if Ascii.eqb c "B" then 3 else if Ascii.eqb c "R" then 4
  else if Ascii.eqb c "Q" then 5 else if Ascii.eqb c "K" then 6
  else if Ascii.eqb c "p" then 7 else if Ascii.eqb c "n" then 8
  else if Ascii.eqb c "b" then 9 else if Ascii.eqb c "r" then 10
  else if Ascii.eqb c "q" then 11 else if Ascii.eqb c "k" then 12
  else -1.

(** [/\d/.test(char)] with [parseInt(char)] *)
Definition digit (c : ascii) : option Z :=
  let n := Z.of_nat (nat_of_ascii c) in
  if (48 <=? n) && (n <=? 57) then Some (n - 48) else None.

(** [fen.split(' ')] *)
Fixpoint split (cur : list ascii) (s : list ascii) : list (list ascii) :=
  match s with
  | [] => [rev cur]
  | c :: s' =>
      if Ascii.eqb c " " then rev cur :: split [] s'
      else split (c :: cur) s'
  end.

Definition includes (s : list ascii) (c : ascii) : bool := existsb (Ascii.eqb c) s.

(** The loop over the characters of the piece placement. *)
Fixpoint place (position : list ascii) (sq : Z) (sqs : list Z) (ks : Kings)
    : list Z * Kings :=
  match position with
  | [] => (sqs, ks)
  | c :: rest =>
      if Ascii.eqb c "/" then place rest sq sqs ks
      else
        match digit c with
        | Some d => place rest (sq + d) sqs ks
        | None =>
            let sqs' := set_sq sqs sq (CHAR_TO_PIECE c) in
            let ks1 := if Ascii.eqb c "K" then mkKings sq (black ks) else ks in
            let ks2 := if Ascii.eqb c "k" then mkKings (white ks1) sq else ks1 in
            place rest (sq + 1) sqs' ks2
        end
  end.

(** The piece placements that [parseFEN] handles without fault: every
    character is a slash, a digit or one of the twelve piece letters, and
    every piece is put on one of the 64 squares.  (With another letter the
    source stores [undefined] and throws in [zobrist.compute]; with a piece
    beyond square 63 it makes the array longer.) *)
Fixpoint placeable (position : list ascii) (sq : Z) : bool :=
  match position with
  | [] => true
  | c :: rest =>
      if Ascii.eqb c "/" then placeable rest sq
      else
        match digit c with
        | Some d => placeable rest (sq + d)
        | None => (1 <=? CHAR_TO_PIECE c) && (sq <? 64) && placeable rest (sq + 1)
        end
  end.

(** A FEN string whose piece placement, the part before the first space,
    is of this kind. *)
Definition wellFormed (fen : String.string) : bool :=
  placeable (nth 0 (split [] (String.list_ascii_of_string fen)) []) 0.

(** [zobrist.compute(board)] *)
Definition compute (zobrist : ZobristHash.t) (board : Board) : Z :=
  let h0 :=
    fold_left (fun h sq =>
                 let piece := at_sq board sq in
                 if negb (piece =? PIECES.EMPTY)
                 then jsXor h (ZobristHash.piece zobrist piece sq) else h)
              MoveGenerator.allSquares 0 in
  let c := castling board in
  let h1 := if wk c then jsXor h0 (ZobristHash.castle zobrist 0) else h0 in
  let h2 := if wq c then jsXor h1 (ZobristHash.castle zobrist 1) else h1 in
  let h3 := if bk c then jsXor h2 (ZobristHash.castle zobrist 2) else h2 in
  let h4 := if bq c then jsXor h3 (ZobristHash.castle zobrist 3) else h3 in
  let h5 := if enPassant board >=? 0
            then jsXor h4 (ZobristHash.ep zobrist (Z.rem (enPassant board) 8)) else h4 in
  if turn board =? -1 then jsXor h5 (ZobristHash.sideToMove zobrist) else h5.

(** [parseFEN(fen)] on the board object [b].  The fields [halfmove] and
    [fullmove] are left as they are.  A malformed en-passant field makes
    the source store NaN, which every later test treats like [-1]. *)
Definition parseFEN (zobrist : ZobristHash.t) (b : Board) (fen : String.string) : Board :=
  let parts := split [] (String.list_ascii_of_string fen) in
  let position := nth 0 parts [] in
  let turn' := match nth 1 parts [] with
               | [c] => if Ascii.eqb c "w" then 1 else -1
               | _ => -1
               end in
  let castlingStr := match nth 2 parts [] with
                     | [] => String.list_ascii_of_string "KQkq"%string
                     | s => s
                     end in
  let epStr := match nth 3 parts [] with
               | [] => String.list_ascii_of_string "-"%string
               | s => s
               end in
  let placed := place position 0 (map (fun _ => PIECES.EMPTY) (squares b)) (kings b) in
  let ep := match epStr with
            | [_] => -1
            | f :: r :: _ =>
                match digit r with
                | Some d => (8 - d) * 8 + (Z.of_nat (nat_of_ascii f) - 97)
                | None => -1
                end
            | [] => -1
            end in
  let b1 := mkBoard (fst placed) turn'
              (mkCastling (includes castlingStr "K") (includes castlingStr "Q")
                          (includes castlingStr "k") (includes castlingStr "q"))
              ep (halfmove b) (fullmove b) (snd placed) 0 in
  mkBoard (squares b1) (turn b1) (castling b1) (enPassant b1) (halfmove b1) (fullmove b1)
          (kings b1) (compute zobrist b1).

(** [position fen ...]: the engine's board object is overwritten in place;
    every reference to it sees the new position. *)
Definition positionFen (zobrist : ZobristHash.t) (w : World) (fen : String.string) : World :=
  mkWorld (<[boardRef := parseFEN zobrist (boards w !!! boardRef) fen]> (boards w))
          (mnodes w) (engine w) (ticks w) (draws w).

(** [go]: the search is called on [this.board] with the simulation count
    and the move time of the command (2000 ms and the configured count
    when the command names none). *)
Definition go (cfg : Config.t) (zobrist : ZobristHash.t) (env : Env)
    (w : World) (simulations movetime : Z) : option (World * option Move) :=
  search cfg zobrist env w boardRef (Some simulations) (Some movetime).

(** The [go] branch of [processCommand]: [movetime] and [simulations] are
    the numbers that the command names, [None] when it names none;
    [let movetime = 2000; let simulations = MCTS_CONFIG.simulations] are the
    values used then. *)
Definition goCommand (cfg : Config.t) (zobrist : ZobristHash.t) (env : Env)
    (w : World) (movetime simulations : option Z) : option (World * option Move) :=
  go cfg zobrist env w (default (Config.simulations cfg) simulations) (default 2000 movetime).
End AlphaZeroEngine.

(** * Specification vocabulary *)

(** ** Well-formed stores *)

(** The shape that [new MCTSNode] and [expand] give to the store: a child is
    allocated after its parent and points back to it, and the children of a
    node are distinct and carry a move. *)
Record wfNodes (ns : list MCTSNode) : Prop := mkWfNodes {
  wf_children : forall id c,
    (id < length ns)%nat -> c ∈ children (ns !!! id) ->
    (id < c < length ns)%nat /\ parent (ns !!! c) = Some id /\
    is_Some (move (ns !!! c));
  wf_parent : forall id p,
    (id < length ns)%nat -> parent (ns !!! id) = Some p -> (p < id)%nat;
  wf_nodup : forall id,
    (id < length ns)%nat -> NoDup (children (ns !!! id))
}.

(** In a well-formed world the root, when there is one, is an allocated node
    without parent. *)
Definition wf (w : World) : Prop :=
  wfNodes (mnodes w) /\
  forall r, root (engine w) = Some r ->
            (r < length (mnodes w))%nat /\ parent (node w r) = None.

(** [chain ns id l]: [l] lists [id], its parent, its grandparent, ... up to
    the node without parent. *)
Inductive chain (ns : list MCTSNode) : nat -> list nat -> Prop :=
  | chain_top id : parent (ns !!! id) = None -> chain ns id [id]
  | chain_up id p l :
      parent (ns !!! id) = Some p -> chain ns p l -> chain ns id (id :: l).

(** Two nodes that differ at most in their statistics and prior. *)
Definition sameShape (n n' : MCTSNode) : Prop :=
  parent n' = parent n /\ children n' = children n /\ move n' = move n /\
  board n' = board n /\ isExpanded n' = isExpanded n /\
  isTerminal n' = isTerminal n /\ terminalValue n' = terminalValue n.

(** Two stores with the same tree. *)
Definition sameTree (ns ns' : list MCTSNode) : Prop :=
  length ns' = length ns /\ forall a, sameShape (ns !!! a) (ns' !!! a).

(** ** Counting simulations *)

(** Does the walk of the simulation with outcome [o] pass through node
    [id]?  The walk is the recorded [path]: the selection path and, after an
    expansion, the first child that the simulation went on to. *)
Definition passesThrough (id : nat) (o : option SimOutcome) : bool :=
  match o with
  | Some o => bool_decide (id ∈ path o)
  | None => false
  end.

(** The number of simulations of [os] whose walk passes through [id]. *)
Definition passes (id : nat) (os : list (option SimOutcome)) : Z :=
  Z.of_nat (length (List.filter (passesThrough id) os)).

(** ** The walk of a simulation *)

(** The selection path from node [id]: the loop of [runSimulation] follows
    [selectChild] as long as the node is expanded and has children. *)
Inductive selectionPath (cfg : Config.t) (w : World) : nat -> list nat -> Prop :=
  | selection_stop id :
      isExpanded (node w id) && (0 <? length (children (node w id)))%nat = false ->
      selectionPath cfg w id [id]
  | selection_step id c p :
      isExpanded (node w id) && (0 <? length (children (node w id)))%nat = true ->
      selectChild cfg w (node w id) = Some c ->
      selectionPath cfg w c p ->
      selectionPath cfg w id (id :: p).

(** The node that a simulation enters without selecting it: when the node
    [leaf] at which the selection stops is not terminal, has been visited
    [minVisitsForExpansion] times and is not expanded, the simulation
    expands it and moves on to the first of its children, if it has got
    any. *)
Definition entered (cfg : Config.t) (zobrist : ZobristHash.t) (w : World) (leaf : nat)
    : list nat :=
  let n := node w leaf in
  if negb (isTerminal n) && (visitCount n >=? Config.minVisitsForExpansion cfg)
     && negb (isExpanded n)
  then
    let n2 := node (expand cfg zobrist w leaf) leaf in
    if isTerminal n2 then []
    else match children n2 with
         | c :: _ => [c]
         | [] => []
         end
  else [].

(** ** Scores and sums *)

(** The PUCT score of the specification, [Q + U], for a child with the
    statistics of [c] below a parent visited [parentVisits] times, with
    virtual-loss unit [L] and exploration constant [c_puct]. *)
Definition specScore (L : Z) (c_puct : R) (c : MCTSNode) (parentVisits : Z) : R :=
  ((if visitCount c =? 0 then 0
    else (totalValue c - IZR (virtualLoss c) * IZR L) / (IZR (visitCount c) + IZR (virtualLoss c)))
   + c_puct * prior c * sqrt (IZR parentVisits) / (1 + IZR (visitCount c)))%R.

(** The sum of the priors of the nodes [cs]. *)
Definition sumPriors (ns : list MCTSNode) (cs : list nat) : R :=
  PolicyNetwork.sumR (map (fun c => prior (ns !!! c)) cs).

(** ** Example inputs *)

Module Examples.
Import Stdlib.Strings.String.

(** One possible content of the Zobrist tables. *)
Definition zobrist : ZobristHash.t :=
  ZobristHash.mk
    (map (fun p => map (fun sq => 64 * p + sq + 1) MoveGenerator.allSquares)
         (map Z.of_nat (seq 0 13)))
    [2001; 2002; 2003; 2004]
    [3001; 3002; 3003; 3004; 3005; 3006; 3007; 3008]
    4001.

(** A clock that advances by one millisecond per reading and a random
    source that always returns 1/2. *)
Definition env : Env := mkEnv (fun k => Z.of_nat k) (fun _ => (1 / 2)%R).

(** The position of [test-blunder-fix.js], in which the white queen on c4
    can take the pawn on f7 that the black queen on d7 defends. *)
Definition blunderFEN : string :=
  "r1b2b1r/1ppq1p1p/p2p1np1/8/2QPP3/2N5/PPP2PPP/R3KBNR w KQ - 0 8".

Definition blunderBoard : Board := AlphaZeroEngine.parseFEN zobrist newBoard blunderFEN.

(** Qxf7: from c4 (square 34) to f7 (square 13). *)
Definition Qxf7 : Move := mkMove 34 13 None None.

(** White pawn a3, black pawn a5, White to move: the only move is a3-a4,
    after which Black has no move. *)
Definition pawnsFEN : string := "8/8/8/p7/8/P7/8/8 w - - 0 1".

(** White pawn a3 blocked by a black pawn on a4: White has no move. *)
Definition blockedFEN : string := "8/8/8/8/p7/P7/8/8 w - - 0 1".

(** White pawn a3 and black pawn h5, White to move: for the next plies
    each side has exactly one move, the advance of its pawn. *)
Definition marchFEN : string := "8/8/8/7p/8/P7/8/8 w - - 0 1".

(** The pawn-march position after a3-a4, Black to move: the position of
    the only child of the root when [marchFEN] is searched. *)
Definition marchChildFEN : string := "8/8/8/7p/P7/8/8/8 b - - 0 1".

(** Twelve pieces, White to move: a2-a3 keeps twelve pieces on the board,
    the capture e2xd3 leaves eleven. *)
Definition phaseFEN : string := "4k3/pppp4/8/8/8/3p4/PPPPP3/4K3 w - - 0 1".

Definition phaseBoard : Board := AlphaZeroEngine.parseFEN zobrist newBoard phaseFEN.

(** The engine after [position fen] with each of these positions. *)
Definition pawnsWorld : World :=
  AlphaZeroEngine.positionFen zobrist AlphaZeroEngine.create pawnsFEN.

Definition marchWorld : World :=
  AlphaZeroEngine.positionFen zobrist AlphaZeroEngine.create marchFEN.

Definition blunderWorld : World :=
  AlphaZeroEngine.positionFen zobrist AlphaZeroEngine.create blunderFEN.

(** The world in which the simulation loop starts when the pawn position is
    searched with a time limit of one second. *)
Definition pawnsSearch : World :=
  addDirichletNoise MCTS_CONFIG env
    (prepare MCTS_CONFIG zobrist env pawnsWorld AlphaZeroEngine.boardRef (Some 1000)) 0.

(** The world in which the simulation loop starts when the pawn-march
    position is searched with a time limit of 5 ms. *)
Definition marchSearch : World :=
  addDirichletNoise MCTS_CONFIG env
    (prepare MCTS_CONFIG zobrist env marchWorld AlphaZeroEngine.boardRef (Some 5)) 0.

(** The world that [search] leaves behind when the pawn-march position is
    searched with a time limit of 5 ms (the temperature is not 0, so that
    [getBestMove] draws one random number). *)
Definition marchAfter : World :=
  match simLoop MCTS_CONFIG zobrist env 2500 0
          (addDirichletNoise MCTS_CONFIG env
             (prepare MCTS_CONFIG zobrist env marchWorld AlphaZeroEngine.boardRef (Some 5)) 0) with
  | Some (w4, _) => drawn w4 1
  | None => marchWorld
  end.

(** A store with a root (node 0), its child (node 1) and its grandchild
    (node 2). *)
Definition lineNodes : list MCTSNode :=
  [ mkNode 0 None None 0 [1%nat] 0 0 0 true false 0;
    mkNode 1 (Some 0%nat) (Some (mkMove 40 32 None None)) 1 [2%nat] 0 0 0 true false 0;
    mkNode 2 (Some 1%nat) (Some (mkMove 24 16 None None)) 1 [] 0 0 0 false false 0 ].

(** A root in the twelve-piece position with two of its children, each
    visited once with value 0: node 1 after a2-a3 (twelve pieces, prior
    0.52) and node 2 after e2xd3 (eleven pieces, prior 0.48). *)
Definition phaseWorld : World :=
  mkWorld
    [ phaseBoard;
      makeMove zobrist phaseBoard (mkMove 48 40 None None);
      makeMove zobrist phaseBoard (mkMove 52 43 None None) ]
    [ mkNode 0 None None 0 [1%nat; 2%nat] 2 0 0 true false 0;
      mkNode 1 (Some 0%nat) (Some (mkMove 48 40 None None)) (52 / 100) [] 1 0 0 false false 0;
      mkNode 2 (Some 0%nat) (Some (mkMove 52 43 None None)) (48 / 100) [] 1 0 0 false false 0 ]
    (mkEngine (Some 0%nat) 0 0 (Some 0) false false) 0 0.

(** A root with three children visited 4, 7 and 7 times. *)
Definition fanWorld : World :=
  mkWorld [newBoard]
    [ mkNode 0 None None 0 [1%nat; 2%nat; 3%nat] 18 0 0 true false 0;
      mkNode 0 (Some 0%nat) (Some (mkMove 48 40 None None)) (1 / 4) [] 4 0 0 false false 0;
      mkNode 0 (Some 0%nat) (Some (mkMove 49 41 None None)) (1 / 4) [] 7 0 0 false false 0;
      mkNode 0 (Some 0%nat) (Some (mkMove 50 42 None None)) (1 / 2) [] 7 0 0 false false 0 ]
    (mkEngine (Some 0%nat) 0 0 (Some 0) false false) 0 0.
End Examples.

(** * Further definitions *)

(** ** Generated moves *)

(** What the generator requires of a destination square: it is empty, or
    holds a piece of the other side, or is the en-passant square. *)
Definition movesTo (board : Board) (t : Z) : Prop :=
  at_sq board t = PIECES.EMPTY \/
  isEnemyPiece board (at_sq board t) = true \/
  t = enPassant board.

(** ** What a simulation keeps *)

(** The part of the tree that exists in [w] is still there in [w']: every
    node keeps its move and its board, and an expanded node stays expanded
    and keeps its children. *)
Definition keepsTree (w w' : World) : Prop :=
  forall a, (a < length (mnodes w))%nat ->
    move (node w' a) = move (node w a) /\
    board (node w' a) = board (node w a) /\
    (isExpanded (node w a) = true ->
     isExpanded (node w' a) = true /\ children (node w' a) = children (node w a)).

(** ** Boards of piece codes *)

(** A board of 64 squares, each holding [EMPTY] or one of the twelve piece
    codes.  On such a board no read of [squares] within 0..63 is
    [undefined]. *)
Definition validBoard (b : Board) : Prop :=
  length (squares b) = 64%nat /\ Forall (fun p => 0 <= p <= 12) (squares b).

(** ** Sessions *)

(** The states that an [AlphaZeroEngine] reaches from [new
    AlphaZeroEngine()] by [position fen] commands with a well-formed piece
    placement and by [go] commands; the configuration may change between
    two commands ([setoption]). *)
Inductive reachable (zobrist : ZobristHash.t) (env : Env) : World -> Prop :=
  | reach_create : reachable zobrist env AlphaZeroEngine.create
  | reach_position w fen :
      reachable zobrist env w ->
      AlphaZeroEngine.wellFormed fen = true ->
      reachable zobrist env (AlphaZeroEngine.positionFen zobrist w fen)
  | reach_go cfg w simulations movetime w' res :
      reachable zobrist env w ->
      AlphaZeroEngine.go cfg zobrist env w simulations movetime = Some (w', res) ->
      reachable zobrist env w'.

(** ** Moves in UCI notation *)

Module UCI.
Import Stdlib.Strings.String.

(** [String(n)] for an integer [n]. *)
Definition showInt (n : Z) : string := DecimalString.NilZero.string_of_int (Z.to_int n).

(** [String.fromCharCode(n)]; the codes that occur here are below 256. *)
Definition fromCharCode (n : Z) : string := String (ascii_of_nat (Z.to_nat n)) EmptyString.

(** [MoveGenerator.moveToUCI(move)] *)
Definition moveToUCI (move : Move) : string :=
  let fromFile := fromCharCode (97 + Z.rem (from move) 8) in
  let fromRank := 8 - from move / 8 in
  let toFile := fromCharCode (97 + Z.rem (to move) 8) in
  let toRank := 8 - to move / 8 in
  let uci := (fromFile ++ showInt fromRank ++ toFile ++ showInt toRank)%string in
  match promotion move with
  | Some p =>
      if p =? 0 then uci
      else
        let type := Z.rem p 7 in
        let promChar : string :=
          if type =? 5 then "q"%string else if type =? 4 then "r"%string
          else if type =? 3 then "b"%string else "n"%string in
        (uci ++ promChar)%string
  | None => uci
  end.

(** The promotion piece that [parseUCIMove] reads from [uci[4]]. *)
Definition promotionOf (white : bool) (promChar : ascii) : option Z :=
  if white then
    if Ascii.eqb promChar "q" then Some PIECES.W_QUEEN
    else if Ascii.eqb promChar "r" then Some PIECES.W_ROOK
    else if Ascii.eqb promChar "b" then Some PIECES.W_BISHOP
    else if Ascii.eqb promChar "n" then Some PIECES.W_KNIGHT
    else None
  else
    if Ascii.eqb promChar "q" then Some PIECES.B_QUEEN
    else if Ascii.eqb promChar "r" then Some PIECES.B_ROOK
    else if Ascii.eqb promChar "b" then Some PIECES.B_BISHOP
    else if Ascii.eqb promChar "n" then Some PIECES.B_KNIGHT
    else None.

(** [AlphaZeroEngine.parseUCIMove(uci)] on a string of 8-bit characters, for
    the side to move [white].  When a rank character is missing or is no
    digit the source computes with NaN and returns a move object whose
    squares are NaN; that object is outside the model and the result is
    [None].  The move object has no [castle] property. *)
Definition parseUCIMoveFor (white : bool) (uci : string) : option Move :=
  match list_ascii_of_string uci with
  | c0 :: c1 :: c2 :: c3 :: rest =>
      match AlphaZeroEngine.digit c1, AlphaZeroEngine.digit c3 with
      | Some d1, Some d3 =>
          let fromFile := Z.of_nat (nat_of_ascii c0) - 97 in
          let fromRank := 8 - d1 in
          let toFile := Z.of_nat (nat_of_ascii c2) - 97 in
          let toRank := 8 - d3 in
          let promotion := match rest with
                           | [] => None
                           | promChar :: _ => promotionOf white promChar
                           end in
          Some (mkMove (fromRank * 8 + fromFile) (toRank * 8 + toFile) promotion None)
      | _, _ => None
      end
  | _ => None
  end.

Definition parseUCIMove (board : Board) (uci : string) : option Move :=
  parseUCIMoveFor (turn board =? 1) uci.
End UCI.

(** ** The second engine: [lc0-wasm-alpha-loader.js] *)

(** The loader has an MCTS of its own.  Its nodes carry the statistics
    below; [backpropagate] walks a recorded path, which starts at the root
    and does not contain the leaf that the selection stopped at. *)
Module Loader.
Definition VIRTUAL_LOSS : Z := 3.

Record MCTSNode := mkNode {
  move : option String.string;
  prior : R;
  visitCount : Z;
  totalValue : R;
  virtualLoss : Z;
  children : option (list nat);
  isExpanded : bool;
  parent : option nat
}.

(** [new MCTSNode(moveUCI, prior)] *)
Definition newNode (moveUCI : option String.string) (prior : R) : MCTSNode :=
  mkNode moveUCI prior 0 0%R 0 None false None.

Global Instance MCTSNode_inhabited : Inhabited MCTSNode := populate (newNode None 0%R).

Definition addVirtualLoss (n : MCTSNode) : MCTSNode :=
  mkNode (move n) (prior n) (visitCount n + VIRTUAL_LOSS) (totalValue n - IZR VIRTUAL_LOSS)%R
         (virtualLoss n + VIRTUAL_LOSS) (children n) (isExpanded n) (parent n).

Definition revertVirtualLoss (n : MCTSNode) : MCTSNode :=
  mkNode (move n) (prior n) (visitCount n - VIRTUAL_LOSS) (totalValue n + IZR VIRTUAL_LOSS)%R
         (virtualLoss n - VIRTUAL_LOSS) (children n) (isExpanded n) (parent n).

(** [backup(value)] *)
Definition backup (n : MCTSNode) (value : R) : MCTSNode :=
  mkNode (move n) (prior n) (visitCount n + 1) (totalValue n + value)%R
         (virtualLoss n) (children n) (isExpanded n) (parent n).

(** [MCTSEngine.backpropagate(path, value)]: the nodes are objects of a
    store [ns], the path lists their references. *)
Fixpoint backpropagate (ns : list MCTSNode) (path : list nat) (value : R) : list MCTSNode :=
  match path with
  | [] => ns
  | id :: rest => backpropagate (<[id := backup (ns !!! id) value]> ns) rest (- value)%R
  end.
End Loader.

(** A tree of the loader right after the root was expanded: the root
    (node 0) and a child that is not expanded (node 1), for the move that
    [generateLegalMoves] lists first. *)
Module LoaderExamples.
Import Stdlib.Strings.String.

Definition root : Loader.MCTSNode :=
  Loader.mkNode None 1 0 0 0 (Some [1%nat]) true None.

Definition leaf : Loader.MCTSNode :=
  Loader.mkNode (Some "a1a2"%string) (1 / 2) 0 0 0 None false (Some 0%nat).
End LoaderExamples.

(** ** Hash keys *)

(** The 32 bits of a JavaScript integer, as a number in [0, 2^32). *)
Definition low32 (x : Z) : Z := x mod 2 ^ 32.

(** The key that [zobrist.compute] mixes in for a square; an empty square
    contributes nothing. *)
Definition squareKey (zobrist : ZobristHash.t) (b : Board) (sq : Z) : Z :=
  if at_sq b sq =? PIECES.EMPTY then 0 else ZobristHash.piece zobrist (at_sq b sq) sq.

(** ** The two sides of a position *)

(** The board [b] with [t] to move. *)
Definition withTurn (b : Board) (t : Z) : Board :=
  mkBoard (squares b) t (castling b) (enPassant b) (halfmove b) (fullmove b)
          (kings b) (hash b).

(** * Properties *)

(** ** Static exchange evaluation *)

(** After [makeMove] the side to move has changed, so [-tempBoard.turn],
    the colour that [SEE.evaluate] passes to [isSquareAttacked], is the
    colour of the side that moved. *)
Lemma makeMove_turn zobrist b m : - turn (makeMove zobrist b m) = turn b.
Proof. unfold makeMove; simpl. lia. Qed.

Lemma SEE_evaluate_unfold zobrist b m :
  SEE.evaluate zobrist b m =
  if at_sq b (to m) =? PIECES.EMPTY then 0
  else if isSquareAttacked (makeMove zobrist b m) (to m) (turn b)
       then SEE.getPieceValue (getPieceType (at_sq b (to m)))
            - SEE.getPieceValue (getPieceType (at_sq b (from m)))
       else SEE.getPieceValue (getPieceType (at_sq b (to m))).
Proof. unfold SEE.evaluate, clone. by rewrite makeMove_turn. Qed.

(** C5. In the position of [test-blunder-fix.js] the white queen (value 900)
    takes the pawn on f7 (value 100); after the capture f7 is attacked by a
    black piece (the queen on d7) and by no white piece.  [SEE.evaluate]
    asks whether the side that moved attacks f7, finds that it does not, and
    returns 100 instead of 100 - 900 = -800; [isCaptureSafe] classifies the
    capture as safe under the threshold -50. *)
Theorem SEE_Qxf7_judged_safe :
  let b := Examples.blunderBoard in
  let after := makeMove Examples.zobrist b Examples.Qxf7 in
  turn b = 1 /\
  at_sq b (from Examples.Qxf7) = PIECES.W_QUEEN /\
  at_sq b (to Examples.Qxf7) = PIECES.B_PAWN /\
  isSquareAttacked after (to Examples.Qxf7) (-1) = true /\
  isSquareAttacked after (to Examples.Qxf7) 1 = false /\
  SEE.evaluate Examples.zobrist b Examples.Qxf7 = 100 /\
  SEE.isCaptureSafe MCTS_CONFIG Examples.zobrist b Examples.Qxf7 = true.
Proof. vm_compute. repeat split. Qed.

(** ** Arg-max selection *)

Section Selection.
Variable cfg : Config.t.
Variable w : World.
Variable pv : Z.

Let score (c : nat) : R := getPUCT cfg w (node w c) pv.

(** The state of the loop of [selectChild] after the children [cs]. *)
Lemma selectStep_fold (cs : list nat) :
  match fold_left (selectStep cfg w pv) cs (None, NegInfinity) with
  | (None, s) => cs = [] /\ s = NegInfinity
  | (Some c, s) =>
      s = Finite (score c) /\
      exists i : nat, cs !! i = Some c /\
        (forall (j : nat) c', cs !! j = Some c' -> (score c' <= score c)%R) /\
        (forall (j : nat) c', (j < i)%nat -> cs !! j = Some c' -> (score c' < score c)%R)
  end.
Proof.
  induction cs as [|x cs IH] using rev_ind; [by simpl|].
  rewrite fold_left_app. simpl.
  destruct (fold_left (selectStep cfg w pv) cs (None, NegInfinity)) as [[c|] s].
  - destruct IH as (-> & i & Hi & Hmax & Hfirst).
    unfold selectStep; simpl. fold (score x).
    destruct (Rlt_dec (score c) (score x)) as [Hlt|Hge]; simpl.
    + split; [done|]. exists (length cs). split; [|split].
      * by rewrite lookup_app_r, Nat.sub_diag.
      * intros j c' Hj. apply lookup_app_Some in Hj as [Hj|[_ Hj]].
        -- specialize (Hmax _ _ Hj). lra.
        -- destruct (j - length cs)%nat; simpl in Hj; [|done].
           injection Hj as <-. lra.
      * intros j c' Hlen Hj. rewrite lookup_app_l in Hj by done.
        specialize (Hmax _ _ Hj). lra.
    + split; [done|]. exists i. split; [|split].
      * by apply lookup_app_l_Some.
      * intros j c' Hj. apply lookup_app_Some in Hj as [Hj|[_ Hj]]; [by eapply Hmax|].
        destruct (j - length cs)%nat; simpl in Hj; [|done].
        injection Hj as <-. lra.
      * intros j c' Hlt Hj. apply lookup_lt_Some in Hi.
        rewrite lookup_app_l in Hj by lia. by eapply Hfirst.
  - destruct IH as [-> ->]. unfold selectStep; simpl. fold (score x).
    split; [done|]. exists 0%nat. split; [done|]. split.
    + intros [|j] c' Hj; simpl in Hj; [|done]. injection Hj as <-. lra.
    + intros j c' Hj. lia.
Qed.
End Selection.

Lemma selectChild_in cfg w (n : MCTSNode) :
  children n <> [] -> exists c, selectChild cfg w n = Some c /\ c ∈ children n.
Proof.
  intros Hne. unfold selectChild.
  pose proof (selectStep_fold cfg w (visitCount n) (children n)) as H.
  destruct (fold_left _ _ _) as [[c|] s].
  - destruct H as (_ & i & Hi & _). exists c. split; [done|].
    by eapply list_elem_of_lookup_2.
  - by destruct H.
Qed.

(** What the loop of [selectChild] returns: the first child of largest
    [getPUCT]. *)
Lemma selectChild_max cfg w (n : MCTSNode) (c : nat) :
  selectChild cfg w n = Some c ->
  exists i : nat,
    children n !! i = Some c /\
    (forall (j : nat) c', children n !! j = Some c' ->
       (getPUCT cfg w (node w c') (visitCount n) <= getPUCT cfg w (node w c) (visitCount n))%R) /\
    (forall (j : nat) c', (j < i)%nat -> children n !! j = Some c' ->
       (getPUCT cfg w (node w c') (visitCount n) < getPUCT cfg w (node w c) (visitCount n))%R).
Proof.
  unfold selectChild.
  pose proof (selectStep_fold cfg w (visitCount n) (children n)) as H.
  destruct (fold_left _ _ _) as [[c0|] s]; simpl; [|discriminate].
  intros [= ->]. destruct H as (_ & i & Hi & Hmax & Hfirst). by exists i.
Qed.

(** The score computed by [getPUCT] is the [Q + U] of the specification,
    with the exploration constant of the child's game phase. *)
Lemma getPUCT_spec cfg w c pv :
  getPUCT cfg w c pv = specScore (Config.virtualLoss cfg) (cPuctOf cfg w c) c pv.
Proof.
  unfold getPUCT, specScore, getQ, getU.
  destruct (visitCount c =? 0); by rewrite ?mult_IZR, ?plus_IZR.
Qed.

(** C1 (as the code has it). For a node with a non-empty children list,
    [selectChild] returns a child [c], at some position [i] of the list,
    whose score [Q + U] (evaluated with the node's own visit count as the
    parent visits, [Q] being 0 for an unvisited child) is at least the score
    of every child and strictly above the score of every child before
    position [i]: the first maximiser in move-generation order.  The
    exploration constant in [U] is not one constant for the node: each
    child is scored with the constant of its own position, [endgameCPuct]
    when that position has fewer than [endgamePieceThreshold] pieces and
    [cPuct] otherwise. *)
Theorem selectChild_first_maximum cfg w (n : MCTSNode) :
  children n <> [] ->
  let pieces c :=
    Z.of_nat (length (List.filter (fun p => negb (p =? PIECES.EMPTY))
                                  (squares (boardOf w (node w c))))) in
  let cPuct c :=
    if pieces c <? Config.endgamePieceThreshold cfg
    then Config.endgameCPuct cfg else Config.cPuct cfg in
  let score c :=
    specScore (Config.virtualLoss cfg) (cPuct c) (node w c) (visitCount n) in
  exists (i : nat) c,
    selectChild cfg w n = Some c /\
    children n !! i = Some c /\
    (forall (j : nat) c', children n !! j = Some c' -> (score c' <= score c)%R) /\
    (forall (j : nat) c', (j < i)%nat -> children n !! j = Some c' -> (score c' < score c)%R).
Proof.
  intros Hne pieces cPuct score.
  change score with
    (fun c => specScore (Config.virtualLoss cfg) (cPuctOf cfg w (node w c)) (node w c)
                (visitCount n)).
  clear score cPuct pieces.
  set (score := fun c => specScore (Config.virtualLoss cfg) (cPuctOf cfg w (node w c))
                           (node w c) (visitCount n)).
  unfold selectChild.
  pose proof (selectStep_fold cfg w (visitCount n) (children n)) as H.
  destruct (fold_left _ _ _) as [[c|] s].
  - destruct H as (_ & i & Hi & Hmax & Hfirst). exists i, c. simpl.
    unfold score. repeat split; [done|..].
    + intros j c' Hj. rewrite <- !getPUCT_spec. by eapply Hmax.
    + intros j c' Hlt Hj. rewrite <- !getPUCT_spec. by eapply Hfirst.
  - by destruct H as [? _].
Qed.

Lemma selectChild_first_maximum_witness :
  exists (i : nat) c,
    selectChild MCTS_CONFIG Examples.fanWorld (node Examples.fanWorld 0) = Some c /\
    children (node Examples.fanWorld 0) !! i = Some c.
Proof.
  destruct (selectChild_first_maximum MCTS_CONFIG Examples.fanWorld
              (node Examples.fanWorld 0)) as (i & c & H1 & H2 & _).
  - simpl. discriminate.
  - exists i, c. split; assumption.
Defined.

(** C1 (counterexample).  A root with twelve pieces on the board, visited
    twice, has the children a2-a3 (twelve pieces, prior 0.52) and e2xd3
    (eleven pieces, prior 0.48), each visited once with value 0.
    [selectChild] scores the first with [cPuct] = 1.8 and the second with
    [endgameCPuct] = 2 and returns the second; with one exploration constant
    for both, whatever its value from 0 on, the second child scores no
    better than the first, which comes before it, and so is not the first
    maximiser. *)
Lemma selectChild_mixed_phases :
  children (node Examples.phaseWorld 0) = [1%nat; 2%nat] /\
  countPieces (boardOf Examples.phaseWorld (node Examples.phaseWorld 1)) = 12 /\
  countPieces (boardOf Examples.phaseWorld (node Examples.phaseWorld 2)) = 11 /\
  selectChild MCTS_CONFIG Examples.phaseWorld (node Examples.phaseWorld 0) = Some 2%nat /\
  forall k : R, (0 <= k)%R ->
    (specScore (Config.virtualLoss MCTS_CONFIG) k (node Examples.phaseWorld 2)
       (visitCount (node Examples.phaseWorld 0))
     <= specScore (Config.virtualLoss MCTS_CONFIG) k (node Examples.phaseWorld 1)
          (visitCount (node Examples.phaseWorld 0)))%R.
Proof.
  assert (countPieces (boardOf Examples.phaseWorld (node Examples.phaseWorld 1)) = 12) as H1
    by (vm_compute; reflexivity).
  assert (countPieces (boardOf Examples.phaseWorld (node Examples.phaseWorld 2)) = 11) as H2
    by (vm_compute; reflexivity).
  assert (0 < sqrt (IZR 2))%R as Hs by (apply sqrt_lt_R0; lra).
  assert (forall k, specScore (Config.virtualLoss MCTS_CONFIG) k (node Examples.phaseWorld 1)
                      (visitCount (node Examples.phaseWorld 0))
                    = (k * (52 / 100) * sqrt (IZR 2) / 2)%R) as Hs1.
  { intros k. unfold specScore. cbn. field. }
  assert (forall k, specScore (Config.virtualLoss MCTS_CONFIG) k (node Examples.phaseWorld 2)
                      (visitCount (node Examples.phaseWorld 0))
                    = (k * (48 / 100) * sqrt (IZR 2) / 2)%R) as Hs2.
  { intros k. unfold specScore. cbn. field. }
  split; [reflexivity|]. split; [exact H1|]. split; [exact H2|]. split.
  - destruct (selectChild_in MCTS_CONFIG Examples.phaseWorld (node Examples.phaseWorld 0))
      as (c & Hsel & Hin); [discriminate|].
    destruct (selectChild_max MCTS_CONFIG Examples.phaseWorld (node Examples.phaseWorld 0) c Hsel)
      as (i & Hi & Hmax & _).
    rewrite Hsel.
    change (children (node Examples.phaseWorld 0)) with [1%nat; 2%nat] in Hin, Hmax.
    apply elem_of_cons in Hin as [->|Hin]; [exfalso|].
    + specialize (Hmax 1%nat 2%nat eq_refl).
      rewrite !getPUCT_spec in Hmax.
      assert (cPuctOf MCTS_CONFIG Examples.phaseWorld (node Examples.phaseWorld 1)
              = (18 / 10)%R) as E1.
      { unfold cPuctOf. rewrite H1. reflexivity. }
      assert (cPuctOf MCTS_CONFIG Examples.phaseWorld (node Examples.phaseWorld 2) = 2%R) as E2.
      { unfold cPuctOf. rewrite H2. reflexivity. }
      rewrite E1, E2, Hs1, Hs2 in Hmax. revert Hmax Hs. clear.
      generalize (sqrt (IZR 2)). intros s Hmax Hs. lra.
    + clear -Hin. apply elem_of_cons in Hin as [->|Hin]; [reflexivity|].
      by apply elem_of_nil in Hin.
  - intros k Hk. rewrite Hs1, Hs2. revert Hs Hk. clear.
    generalize (sqrt (IZR 2)). intros s Hs Hk. nra.
Qed.

(** ** Greedy move choice *)

(** The loop of the deterministic branch of [getBestMove], started with
    [first] as the best child so far. *)
Lemma mostVisited_fold w (first : nat) (cs : list nat) :
  let visits c := visitCount (node w c) in
  let b := mostVisited w first cs in
  (forall c, c ∈ cs -> visits c <= visits b) /\
  ((b = first /\ forall c, c ∈ cs -> visits c <= visits first) \/
   (visits first < visits b /\
    exists i : nat, cs !! i = Some b /\
      forall (j : nat) c, (j < i)%nat -> cs !! j = Some c -> visits c < visits b)).
Proof.
  intros visits. unfold mostVisited. simpl.
  induction cs as [|x cs IH] using rev_ind.
  { simpl. split; [intros c Hc; by apply elem_of_nil in Hc|].
    left. split; [done|]. intros c Hc. by apply elem_of_nil in Hc. }
  rewrite fold_left_app. simpl.
  set (b := fold_left _ cs first) in *.
  destruct IH as [Hmax Hcase].
  destruct (Z.gtb_spec (visitCount (node w x)) (visitCount (node w b))) as [Hgt|Hle].
  - fold (visits x) (visits b) in Hgt. split.
    + intros c [Hc|Hc]%elem_of_app; [specialize (Hmax _ Hc); lia|].
      apply list_elem_of_singleton in Hc as ->. lia.
    + right. split.
      * destruct Hcase as [[-> _]|[? _]]; lia.
      * exists (length cs). split; [by rewrite lookup_app_r, Nat.sub_diag|].
        intros j c Hj Hc. rewrite lookup_app_l in Hc by done.
        apply list_elem_of_lookup_2 in Hc. specialize (Hmax _ Hc). lia.
  - fold (visits x) (visits b) in Hle. split.
    + intros c [Hc|Hc]%elem_of_app; [by apply Hmax|].
      apply list_elem_of_singleton in Hc as ->. lia.
    + destruct Hcase as [[Hb Hall]|[Hlt (i & Hi & Hfirst)]].
      * left. split; [done|]. intros c [Hc|Hc]%elem_of_app; [by apply Hall|].
        apply list_elem_of_singleton in Hc as ->. rewrite <- Hb. lia.
      * right. split; [done|]. exists i. split; [by apply lookup_app_l_Some|].
        intros j c Hj Hc. apply lookup_lt_Some in Hi.
        rewrite lookup_app_l in Hc by lia. by eapply Hfirst.
Qed.

(** C6. With temperature 0, [getBestMove] on a node with children returns the
    move of a child [c], at some position [i], whose visit count is the
    maximum over the children and strictly above the visit count of every
    child before position [i] (the first-encountered maximum); the call
    reads no random number and leaves the world as it is, so that a second
    call, under any environment, returns the same move. *)
Theorem getBestMove_greedy env w (n : MCTSNode) :
  children n <> [] ->
  exists (i : nat) c,
    children n !! i = Some c /\
    getBestMove env w n 0 = (move (node w c), w) /\
    (forall c', c' ∈ children n -> visitCount (node w c') <= visitCount (node w c)) /\
    (forall (j : nat) c', (j < i)%nat -> children n !! j = Some c' ->
       visitCount (node w c') < visitCount (node w c)) /\
    (forall env', getBestMove env' (snd (getBestMove env w n 0)) n 0 = getBestMove env w n 0).
Proof.
  intros Hne. unfold getBestMove.
  destruct (children n) as [|c0 rest] eqn:Hcs; [done|].
  destruct (Req_dec_T 0 0) as [_|Hn]; [|by destruct Hn].
  simpl snd.
  destruct (mostVisited_fold w c0 (c0 :: rest)) as [Hmax Hcase].
  set (b := mostVisited w c0 (c0 :: rest)) in *.
  destruct Hcase as [[Hb Hall]|[Hlt (i & Hi & Hfirst)]].
  - exists 0%nat, c0. rewrite Hb. repeat split; try done.
    intros j c' Hlt. lia.
  - exists i, b. repeat split; try done.
Qed.

Lemma getBestMove_greedy_witness :
  exists (i : nat) c,
    children (node Examples.fanWorld 0) !! i = Some c /\
    getBestMove Examples.env Examples.fanWorld (node Examples.fanWorld 0) 0
    = (move (node Examples.fanWorld c), Examples.fanWorld).
Proof.
  destruct (getBestMove_greedy Examples.env Examples.fanWorld (node Examples.fanWorld 0))
    as (i & c & H1 & H2 & _).
  - simpl. discriminate.
  - exists i, c. split; assumption.
Defined.

(** ** Backpropagation *)

Lemma insert_node_eq (ns : list MCTSNode) (id : nat) x :
  (id < length ns)%nat -> <[id := x]> ns !!! id = x.
Proof. intros. by apply list_lookup_total_insert_eq. Qed.

Lemma insert_node_ne (ns : list MCTSNode) (id a : nat) x :
  id <> a -> <[id := x]> ns !!! a = ns !!! a.
Proof. intros. by apply list_lookup_total_insert_ne. Qed.

(** A chain only depends on the parent references. *)
Lemma chain_parents ns ns' id l :
  (forall a, a ∈ l -> parent (ns' !!! a) = parent (ns !!! a)) ->
  chain ns id l -> chain ns' id l.
Proof.
  intros Hp Hc. induction Hc as [id Hid|id p l Hid _ IH].
  - apply chain_top. rewrite Hp; [done|by left].
  - eapply chain_up; [rewrite Hp; [done|by left]|].
    apply IH. intros a Ha. apply Hp. by right.
Qed.

Lemma chain_head ns id l : chain ns id l -> exists l0, l = id :: l0.
Proof. destruct 1; eauto. Qed.

Lemma visit_parent n v : parent (visit n v) = parent n.
Proof. done. Qed.

Lemma parent_insert_visit (ns : list MCTSNode) id v a :
  parent (<[id := visit (ns !!! id) v]> ns !!! a) = parent (ns !!! a).
Proof.
  destruct (decide (id = a)) as [->|Hne]; [|by rewrite insert_node_ne].
  destruct (decide (a < length ns)%nat) as [Hlt|Hge].
  - by rewrite insert_node_eq.
  - by rewrite list_insert_ge by lia.
Qed.

(** The effect of [backpropagate] along a parent chain. *)
Lemma backpropagate_chain (l : list nat) (ns : list MCTSNode) (id : nat) (v : R) (fuel : nat) :
  chain ns id l ->
  NoDup l ->
  (forall a, a ∈ l -> (a < length ns)%nat) ->
  (length l <= fuel)%nat ->
  exists ns',
    backpropagate fuel ns id v = Some ns' /\
    length ns' = length ns /\
    (forall (j : nat) a, l !! j = Some a -> ns' !!! a = visit (ns !!! a) ((-1) ^ j * v)%R) /\
    (forall a, a ∉ l -> ns' !!! a = ns !!! a).
Proof.
  revert ns id v fuel.
  induction l as [|x l IH]; intros ns id v fuel Hc Hnd Hlt Hfuel.
  { inversion Hc. }
  destruct fuel as [|fuel]; [simpl in Hfuel; lia|].
  apply NoDup_cons in Hnd as [Hnotin Hnd].
  inversion Hc as [id' Hid Heq1 Heq2|id' p l' Hid Hc' Heq1 Heq2]; subst.
  - simpl. rewrite Hid. eexists. split; [done|].
    assert (x < length ns)%nat by (apply Hlt; by left).
    split; [by rewrite length_insert|]. split.
    + intros [|j] a Hj; simpl in Hj; [|done]. injection Hj as <-.
      rewrite insert_node_eq by done. f_equal. simpl. lra.
    + intros a Ha. apply insert_node_ne. intros ->. apply Ha. by left.
  - simpl. rewrite Hid.
    assert (x < length ns)%nat as Hidlt by (apply Hlt; by left).
    set (ns1 := <[x := visit (ns !!! x) v]> ns).
    assert (chain ns1 p l) as Hc1.
    { eapply chain_parents; [|done]. intros a _. apply parent_insert_visit. }
    destruct (IH ns1 p (- v)%R fuel) as (ns' & Hrun & Hlen & Hon & Hoff); clear IH.
    + done.
    + done.
    + intros a Ha. unfold ns1. rewrite length_insert. apply Hlt. by right.
    + simpl in Hfuel. lia.
    + exists ns'. split; [done|].
      split; [by rewrite Hlen; unfold ns1; rewrite length_insert|]. split.
      * intros [|j] a Hj; simpl in Hj.
        -- injection Hj as <-. rewrite Hoff by done. unfold ns1.
           rewrite insert_node_eq by done. f_equal. simpl. lra.
        -- rewrite (Hon _ _ Hj). unfold ns1.
           rewrite insert_node_ne.
           ++ f_equal. simpl. lra.
           ++ intros ->. apply Hnotin. by eapply list_elem_of_lookup_2.
      * intros a Ha. rewrite Hoff.
        -- unfold ns1. apply insert_node_ne. intros ->. apply Ha. by left.
        -- intros Hin. apply Ha. by right.
Qed.

(** X22. [MCTSNode.backpropagate], called on a node whose parent chain is
    [l] (the node itself first, the root last), visits every node of the
    chain once, in that order: the node at distance [j] from the start gets
    [visitCount + 1] and [totalValue + (-1)^j * value], the sign being
    flipped once per step up, and keeps every other field; the nodes off
    the chain are left alone.  In particular the root, [k] steps above the
    start, receives [value * (-1)^k]. *)
Theorem backpropagate_alternates (ns : list MCTSNode) (id : nat) (l : list nat)
    (v : R) (fuel : nat) :
  chain ns id l ->
  NoDup l ->
  (forall a, a ∈ l -> (a < length ns)%nat) ->
  (length l <= fuel)%nat ->
  exists ns',
    backpropagate fuel ns id v = Some ns' /\
    length ns' = length ns /\
    (forall (j : nat) a, l !! j = Some a ->
       visitCount (ns' !!! a) = visitCount (ns !!! a) + 1 /\
       totalValue (ns' !!! a) = (totalValue (ns !!! a) + (-1) ^ j * v)%R /\
       sameShape (ns !!! a) (ns' !!! a) /\
       prior (ns' !!! a) = prior (ns !!! a) /\
       virtualLoss (ns' !!! a) = virtualLoss (ns !!! a)) /\
    (forall a, a ∉ l -> ns' !!! a = ns !!! a) /\
    (forall (k : nat) r, l !! k = Some r -> S k = length l ->
       parent (ns !!! r) = None /\
       visitCount (ns' !!! r) = visitCount (ns !!! r) + 1 /\
       totalValue (ns' !!! r) = (totalValue (ns !!! r) + v * (-1) ^ k)%R).
Proof.
  intros Hc Hnd Hlt Hfuel.
  destruct (backpropagate_chain l ns id v fuel Hc Hnd Hlt Hfuel)
    as (ns' & Hrun & Hlen & Hon & Hoff).
  exists ns'. split; [exact Hrun|]. split; [exact Hlen|]. split; [|split; [exact Hoff|]].
  - intros j a Hj. rewrite (Hon _ _ Hj). by split_and!.
  - intros k r Hk Hlast. rewrite (Hon _ _ Hk). split; [|split; [done|simpl; lra]].
    clear -Hc Hk Hlast. revert k Hk Hlast.
    induction Hc as [id Hid|id p l Hid Hc IH]; intros k Hk Hlast.
    + destruct k as [|k]; simpl in *; [|lia]. by injection Hk as <-.
    + destruct k as [|k]; simpl in *.
      * apply chain_head in Hc as [l0 ->]. simpl in Hlast. lia.
      * apply (IH k Hk). lia.
Qed.

Lemma backpropagate_alternates_witness :
  exists ns',
    backpropagate 3 Examples.lineNodes 2 (1 / 2) = Some ns' /\
    totalValue (ns' !!! 0%nat) = (totalValue (Examples.lineNodes !!! 0%nat) + 1 / 2 * (-1) ^ 2)%R.
Proof.
  destruct (backpropagate_alternates Examples.lineNodes 2 [2; 1; 0]%nat (1 / 2) 3)
    as (ns' & Hrun & _ & _ & _ & Hroot).
  - eapply chain_up; [reflexivity|]. eapply chain_up; [reflexivity|].
    apply chain_top. reflexivity.
  - apply (bool_decide_unpack _). reflexivity.
  - intros a Ha. simpl.
    repeat (apply elem_of_cons in Ha as [->|Ha]; [lia|]).
    by apply elem_of_nil in Ha.
  - simpl. lia.
  - exists ns'. split; [exact Hrun|].
    destruct (Hroot 2%nat 0%nat) as (_ & _ & Htv); [reflexivity|reflexivity|exact Htv].
Defined.


(** ** Root noise *)

Lemma sumR_acc (l : list R) (a : R) : fold_left Rplus l a = (a + PolicyNetwork.sumR l)%R.
Proof.
  unfold PolicyNetwork.sumR. revert a.
  induction l as [|x l IH]; intros a; simpl; [lra|].
  rewrite (IH (a + x)%R), (IH (0 + x)%R). lra.
Qed.

Lemma sumR_cons (x : R) (l : list R) :
  PolicyNetwork.sumR (x :: l) = (x + PolicyNetwork.sumR l)%R.
Proof. unfold PolicyNetwork.sumR at 1. simpl. rewrite sumR_acc. lra. Qed.

Lemma length_noiseSamples cfg env d k : length (noiseSamples cfg env d k) = k.
Proof. unfold noiseSamples. by rewrite length_map, length_seq. Qed.

(** The second loop of [addDirichletNoise] writes the blended prior into
    every child and nothing else. *)
Lemma blendPriors_spec cfg sum (cs : list nat) :
  forall (ns : list MCTSNode) (noise : list R),
  NoDup cs ->
  (forall c, c ∈ cs -> (c < length ns)%nat) ->
  length noise = length cs ->
  let ns' := blendPriors cfg sum ns cs noise in
  length ns' = length ns /\
  (forall (i : nat) c x, cs !! i = Some c -> noise !! i = Some x ->
     ns' !!! c = setPrior (ns !!! c) (blend cfg sum (prior (ns !!! c)) x)) /\
  (forall a, a ∉ cs -> ns' !!! a = ns !!! a).
Proof.
  induction cs as [|c cs IH]; intros ns noise Hnd Hlt Hlen; simpl.
  { destruct noise; [|done]. repeat split; done. }
  destruct noise as [|x noise]; [done|]. simpl in Hlen.
  apply NoDup_cons in Hnd as [Hnotin Hnd].
  assert (c < length ns)%nat as Hc by (apply Hlt; by left).
  set (ns1 := <[c := setPrior (ns !!! c) (blend cfg sum (prior (ns !!! c)) x)]> ns).
  destruct (IH ns1 noise) as (Hl & Hon & Hoff); [done| |lia|].
  { intros a Ha. unfold ns1. rewrite length_insert. apply Hlt. by right. }
  split; [by rewrite Hl; unfold ns1; rewrite length_insert|]. split.
  - intros [|i] a y Hi Hy; simpl in Hi, Hy.
    + injection Hi as <-. injection Hy as <-. rewrite Hoff by done.
      unfold ns1. by rewrite insert_node_eq.
    + rewrite (Hon _ _ _ Hi Hy). unfold ns1. rewrite insert_node_ne; [done|].
      intros ->. apply Hnotin. by eapply list_elem_of_lookup_2.
  - intros a Ha. rewrite Hoff.
    + unfold ns1. apply insert_node_ne. intros ->. apply Ha. by left.
    + intros Hin. apply Ha. by right.
Qed.

(** The sum of convex combinations. *)
Lemma sum_blend cfg sum (ns ns' : list MCTSNode) (cs : list nat) (noise : list R) :
  length noise = length cs ->
  (forall (i : nat) c x, cs !! i = Some c -> noise !! i = Some x ->
     prior (ns' !!! c) = blend cfg sum (prior (ns !!! c)) x) ->
  sumPriors ns' cs =
  ((1 - Config.dirichletEpsilon cfg) * sumPriors ns cs
   + Config.dirichletEpsilon cfg * (PolicyNetwork.sumR noise / sum))%R.
Proof.
  unfold sumPriors. revert noise.
  induction cs as [|c cs IH]; intros noise Hlen Hpt.
  { destruct noise; [|done]. unfold PolicyNetwork.sumR; simpl. lra. }
  destruct noise as [|x noise]; [done|]. simpl in Hlen.
  simpl map. rewrite !sumR_cons.
  rewrite (IH noise); [|lia|intros i a y Hi Hy; by apply (Hpt (S i))].
  rewrite (Hpt 0%nat c x) by done. unfold blend. 
  unfold Rdiv. lra.
Qed.

Lemma wf_children_lt w id c :
  wf w -> (id < length (mnodes w))%nat -> c ∈ children (node w id) ->
  (c < length (mnodes w))%nat.
Proof. intros [Hw _] Hid Hc. destruct (wf_children _ Hw id c Hid Hc) as [? _]. lia. Qed.

Lemma addDirichletNoise_children cfg env w id :
  children (node w id) <> [] ->
  addDirichletNoise cfg env w id =
  drawn (setNodes w
           (blendPriors cfg
              (PolicyNetwork.sumR
                 (noiseSamples cfg env (draws w) (length (children (node w id)))))
              (mnodes w) (children (node w id))
              (noiseSamples cfg env (draws w) (length (children (node w id))))))
        (length (children (node w id))).
Proof. unfold addDirichletNoise. by destruct (children (node w id)). Qed.

(** C10. When [addDirichletNoise] is applied to a node of a well-formed
    world whose children's priors sum to 1, and the noise samples do not sum
    to zero (so that they can be renormalised), every child's prior is
    replaced by [(1 - epsilon) * prior + epsilon * noise_i / sum], and the
    children's priors still sum to 1. *)
Theorem addDirichletNoise_preserves_normalisation cfg env w (id : nat) :
  wf w ->
  (id < length (mnodes w))%nat ->
  let cs := children (node w id) in
  let noise := noiseSamples cfg env (draws w) (length cs) in
  sumPriors (mnodes w) cs = 1%R ->
  PolicyNetwork.sumR noise <> 0%R ->
  let w' := addDirichletNoise cfg env w id in
  children (node w' id) = cs /\
  (forall (i : nat) c x, cs !! i = Some c -> noise !! i = Some x ->
     prior (node w' c) =
     ((1 - Config.dirichletEpsilon cfg) * prior (node w c)
      + Config.dirichletEpsilon cfg * (x / PolicyNetwork.sumR noise))%R) /\
  sumPriors (mnodes w') cs = 1%R.
Proof.
  intros Hwf Hid cs noise Hsum Hnz w'.
  assert (cs <> []) as Hne.
  { intros Heq. rewrite Heq in Hsum.
    unfold sumPriors, PolicyNetwork.sumR in Hsum. simpl in Hsum. lra. }
  unfold w'. rewrite addDirichletNoise_children by done.
  fold cs. fold noise. unfold node. simpl mnodes.
  destruct (blendPriors_spec cfg (PolicyNetwork.sumR noise) cs (mnodes w) noise)
    as (Hl & Hon & Hoff).
  - destruct Hwf as [Hw _]. by apply (wf_nodup _ Hw).
  - intros c Hc. by eapply wf_children_lt.
  - unfold noise. by rewrite length_noiseSamples.
  - assert (forall (i : nat) c x, cs !! i = Some c -> noise !! i = Some x ->
       prior (blendPriors cfg (PolicyNetwork.sumR noise) (mnodes w) cs noise !!! c)
       = blend cfg (PolicyNetwork.sumR noise) (prior (mnodes w !!! c)) x) as Hpr.
    { intros i c x Hi Hx. by rewrite (Hon _ _ _ Hi Hx). }
    split; [|split].
    + destruct (decide (id ∈ cs)) as [Hin|Hout].
      * apply list_elem_of_lookup_1 in Hin as [i Hi].
        destruct (lookup_lt_is_Some_2 noise i) as [x Hx].
        { unfold noise. rewrite length_noiseSamples. by eapply lookup_lt_Some. }
        by rewrite (Hon _ _ _ Hi Hx).
      * by rewrite Hoff.
    + intros i c x Hi Hx. by rewrite (Hpr _ _ _ Hi Hx).
    + rewrite (sum_blend cfg (PolicyNetwork.sumR noise) (mnodes w) _ cs noise).
      * rewrite Hsum. field. done.
      * unfold noise. by rewrite length_noiseSamples.
      * done.
Qed.

Lemma Math_pow_pos (x y : R) : (0 < x)%R -> (0 < Math_pow x y)%R.
Proof.
  intros Hx. unfold Math_pow. destruct (Req_dec_T x 0) as [->|_]; [lra|].
  unfold Rpower. apply exp_pos.
Qed.

(** Membership in an explicit list of references, by cases. *)
Ltac elem_cases H :=
  repeat (apply elem_of_cons in H as [->|H]); try (by apply elem_of_nil in H).

Lemma fanWorld_wf : wf Examples.fanWorld.
Proof.
  split; [split|].
  - intros id c Hid Hc.
    destruct id as [|[|[|[|id]]]]; cbn in Hid, Hc; try lia; elem_cases Hc;
      cbn; repeat split; try lia; eauto.
  - intros id p Hid Hp.
    destruct id as [|[|[|[|id]]]]; cbn in Hid, Hp; try lia; try discriminate;
      injection Hp as <-; lia.
  - intros id Hid.
    destruct id as [|[|[|[|id]]]]; cbn in Hid |- *; try lia;
      apply (bool_decide_unpack _); reflexivity.
  - intros r Hr. injection Hr as <-. cbn. split; [lia|done].
Qed.

Lemma addDirichletNoise_preserves_normalisation_witness :
  sumPriors (mnodes (addDirichletNoise MCTS_CONFIG Examples.env Examples.fanWorld 0))
            [1; 2; 3]%nat = 1%R.
Proof.
  apply (addDirichletNoise_preserves_normalisation MCTS_CONFIG Examples.env
           Examples.fanWorld 0).
  - exact fanWorld_wf.
  - cbn. lia.
  - unfold sumPriors, PolicyNetwork.sumR. cbn. lra.
  - unfold PolicyNetwork.sumR, noiseSamples. cbn.
    pose proof (Math_pow_pos (1 / 2) (1 / (3 / 10))) as Hpos.
    lra.
Defined.

(** ** Well-formed stores stay well-formed *)

Lemma sameShape_refl n : sameShape n n.
Proof. by repeat split. Qed.

Lemma sameTree_refl ns : sameTree ns ns.
Proof. split; [done|]. intros a. apply sameShape_refl. Qed.

Lemma sameTree_trans ns1 ns2 ns3 : sameTree ns1 ns2 -> sameTree ns2 ns3 -> sameTree ns1 ns3.
Proof.
  intros [Hl1 H1] [Hl2 H2]. split; [congruence|].
  intros a. specialize (H1 a). specialize (H2 a).
  unfold sameShape in *. intuition congruence.
Qed.

Lemma sameTree_insert (ns : list MCTSNode) (id : nat) x :
  sameShape (ns !!! id) x -> sameTree ns (<[id := x]> ns).
Proof.
  intros Hx. split; [by rewrite length_insert|].
  intros a. destruct (decide (id = a)) as [->|Hne].
  - destruct (decide (a < length ns)%nat).
    + by rewrite insert_node_eq.
    + rewrite list_insert_ge by lia. apply sameShape_refl.
  - rewrite insert_node_ne by done. apply sameShape_refl.
Qed.

Lemma backpropagate_sameTree fuel : forall ns id v ns',
  backpropagate fuel ns id v = Some ns' -> sameTree ns ns'.
Proof.
  induction fuel as [|fuel IH]; intros ns id v ns' Hrun; [done|].
  simpl in Hrun.
  assert (sameTree ns (<[id := visit (ns !!! id) v]> ns)) as Hstep.
  { apply sameTree_insert. by repeat split. }
  destruct (parent (ns !!! id)) as [p|].
  - eapply sameTree_trans; [exact Hstep|]. by eapply IH.
  - by injection Hrun as <-.
Qed.

Lemma blendPriors_sameTree cfg sum cs : forall ns noise,
  sameTree ns (blendPriors cfg sum ns cs noise).
Proof.
  induction cs as [|c cs IH]; intros ns noise; simpl; [apply sameTree_refl|].
  destruct noise as [|x noise]; [apply sameTree_refl|].
  eapply sameTree_trans; [|apply IH]. apply sameTree_insert. by repeat split.
Qed.

Lemma wfNodes_sameTree ns ns' : sameTree ns ns' -> wfNodes ns -> wfNodes ns'.
Proof.
  intros [Hlen Hsame] Hw.
  assert (forall a, parent (ns' !!! a) = parent (ns !!! a)) as Hp by (intros a; apply Hsame).
  assert (forall a, children (ns' !!! a) = children (ns !!! a)) as Hc by (intros a; apply Hsame).
  assert (forall a, move (ns' !!! a) = move (ns !!! a)) as Hm by (intros a; apply Hsame).
  split.
  - intros id c. rewrite Hlen, Hc, Hp, Hm. apply (wf_children _ Hw).
  - intros id p. rewrite Hlen, Hp. apply (wf_parent _ Hw).
  - intros id. rewrite Hlen, Hc. apply (wf_nodup _ Hw).
Qed.

(** The store after [expand]: node [id] is replaced by [n'] and the nodes
    [news] are appended. *)
Lemma wfNodes_extend (ns : list MCTSNode) (id : nat) (n' : MCTSNode) (news : list MCTSNode) :
  wfNodes ns ->
  (id < length ns)%nat ->
  parent n' = parent (ns !!! id) ->
  move n' = move (ns !!! id) ->
  children n' = children (ns !!! id) ++ seq (length ns) (length news) ->
  (forall (i : nat) x, news !! i = Some x ->
     parent x = Some id /\ children x = [] /\ is_Some (move x)) ->
  wfNodes (<[id := n']> ns ++ news).
Proof.
  intros Hw Hid Hpar Hmv Hch Hnews.
  set (ns' := <[id := n']> ns ++ news).
  assert (length ns' = (length ns + length news)%nat) as Hlen.
  { unfold ns'. by rewrite length_app, length_insert. }
  assert (forall a, (a < length ns)%nat -> a <> id -> ns' !!! a = ns !!! a) as Hold.
  { intros a Ha Hne. unfold ns'.
    rewrite lookup_total_app_l by (by rewrite length_insert).
    by apply insert_node_ne. }
  assert (ns' !!! id = n') as Hself.
  { unfold ns'. rewrite lookup_total_app_l by (by rewrite length_insert).
    by apply insert_node_eq. }
  assert (forall a, (length ns <= a < length ns')%nat ->
            parent (ns' !!! a) = Some id /\ children (ns' !!! a) = [] /\
            is_Some (move (ns' !!! a))) as Hnew.
  { intros a Ha. unfold ns'.
    rewrite lookup_total_app_r by (rewrite length_insert; lia).
    rewrite length_insert.
    destruct (lookup_lt_is_Some_2 news (a - length ns)) as [x Hx]; [lia|].
    rewrite (list_lookup_total_correct _ _ _ Hx). by eapply Hnews. }
  assert (forall a, (a < length ns)%nat ->
            parent (ns' !!! a) = parent (ns !!! a) /\ move (ns' !!! a) = move (ns !!! a)) as Hpm.
  { intros a Ha. destruct (decide (a = id)) as [->|Hne].
    - by rewrite Hself.
    - by rewrite Hold. }
  split.
  - intros id0 c Hid0 Hc.
    destruct (decide (id0 < length ns)%nat) as [Hlt|Hge].
    + assert (c ∈ children (ns !!! id0) \/
              (id0 = id /\ c ∈ seq (length ns) (length news))) as [Hc'|[-> Hc']].
      { destruct (decide (id0 = id)) as [->|Hne].
        - rewrite Hself, Hch in Hc. apply elem_of_app in Hc as [?|?]; eauto.
        - rewrite Hold in Hc by done. by left. }
      * destruct (wf_children _ Hw id0 c Hlt Hc') as (Hr & Hp & Hm).
        destruct (Hpm c) as [Hp' Hm']; [lia|].
        rewrite Hp', Hm'. repeat split; try done; lia.
      * apply elem_of_seq in Hc'.
        destruct (Hnew c) as (Hp & _ & Hm); [lia|].
        repeat split; try done; lia.
    + destruct (Hnew id0) as (_ & Hnil & _); [lia|].
      rewrite Hnil in Hc. by apply elem_of_nil in Hc.
  - intros id0 p Hid0 Hp.
    destruct (decide (id0 < length ns)%nat) as [Hlt|Hge].
    + destruct (Hpm id0 Hlt) as [Hp' _]. rewrite Hp' in Hp.
      by apply (wf_parent _ Hw id0 p).
    + destruct (Hnew id0) as (Hp' & _ & _); [lia|].
      rewrite Hp' in Hp. injection Hp as <-. lia.
  - intros id0 Hid0.
    destruct (decide (id0 < length ns)%nat) as [Hlt|Hge].
    + destruct (decide (id0 = id)) as [->|Hne].
      * rewrite Hself, Hch. apply NoDup_app. split; [by apply (wf_nodup _ Hw)|].
        split; [|apply NoDup_seq].
        intros c Hc Hc'. apply elem_of_seq in Hc'.
        destruct (wf_children _ Hw id c Hid Hc) as (Hr & _). lia.
      * rewrite Hold by done. by apply (wf_nodup _ Hw).
    + destruct (Hnew id0) as (_ & Hnil & _); [lia|]. rewrite Hnil. apply NoDup_nil_2.
Qed.

Lemma expand_form cfg zobrist w (id : nat) :
  (id < length (mnodes w))%nat ->
  exists n' news,
    mnodes (expand cfg zobrist w id) = <[id := n']> (mnodes w) ++ news /\
    engine (expand cfg zobrist w id) = engine w /\
    ticks (expand cfg zobrist w id) = ticks w /\
    draws (expand cfg zobrist w id) = draws w /\
    parent n' = parent (node w id) /\
    move n' = move (node w id) /\
    visitCount n' = visitCount (node w id) /\
    board n' = board (node w id) /\
    (exists bs, boards (expand cfg zobrist w id) = boards w ++ bs) /\
    children n' = children (node w id) ++ seq (length (mnodes w)) (length news) /\
    (forall (i : nat) x, news !! i = Some x ->
       parent x = Some id /\ children x = [] /\ is_Some (move x) /\ visitCount x = 0).
Proof.
  intros Hid. unfold expand.
  destruct (isExpanded (node w id)) eqn:Hexp.
  { exists (node w id), []. rewrite app_nil_r, app_nil_r.
    rewrite list_insert_id by (by apply list_lookup_lookup_total_lt).
    split_and!; try done. exists []. by rewrite app_nil_r. }
  destruct (MoveGenerator.generate (boardOf w (node w id)) false) as [|m ms] eqn:Hgen.
  { eexists _, []. rewrite app_nil_r. simpl. rewrite app_nil_r.
    split_and!; try done. exists []. by rewrite app_nil_r. }
  remember (m :: ms) as moves eqn:Hmoves. clear Hgen.
  eexists _, _. cbn [mnodes engine ticks draws boards].
  split; [reflexivity|].
  cbn [parent move visitCount children board].
  split_and!; try done; [by eexists|].
  intros i x H.
  apply list_lookup_imap_Some in H as ([m' p'] & Hzip & ->); simpl; eauto.
Qed.

(** What [expand] does to a well-formed store. *)
Lemma expand_facts cfg zobrist w (id : nat) :
  wfNodes (mnodes w) ->
  (id < length (mnodes w))%nat ->
  let w' := expand cfg zobrist w id in
  wfNodes (mnodes w') /\
  engine w' = engine w /\ ticks w' = ticks w /\ draws w' = draws w /\
  (length (mnodes w) <= length (mnodes w'))%nat /\
  (forall a, visitCount (mnodes w' !!! a) = visitCount (mnodes w !!! a)) /\
  (exists bs, boards w' = boards w ++ bs) /\
  (forall a, (a < length (mnodes w))%nat ->
     parent (mnodes w' !!! a) = parent (mnodes w !!! a) /\
     board (mnodes w' !!! a) = board (mnodes w !!! a) /\
     exists more, children (mnodes w' !!! a) = children (mnodes w !!! a) ++ more).
Proof.
  intros Hw Hid w'.
  destruct (expand_form cfg zobrist w id Hid)
    as (n' & news & Hns & He & Ht & Hd & Hpar & Hmv & Hvc & Hbd & Hbs & Hch & Hnews).
  fold w' in Hns, He, Ht, Hd. unfold node in *.
  assert (forall a, (a < length (mnodes w))%nat -> a <> id ->
            mnodes w' !!! a = mnodes w !!! a) as Hold.
  { intros a Ha Hne. rewrite Hns.
    rewrite lookup_total_app_l by (by rewrite length_insert).
    by apply insert_node_ne. }
  assert (mnodes w' !!! id = n') as Hself.
  { rewrite Hns. rewrite lookup_total_app_l by (by rewrite length_insert).
    by apply insert_node_eq. }
  split_and!; try done.
  - rewrite Hns. apply wfNodes_extend; try done.
    intros i x Hx. destruct (Hnews i x Hx) as (? & ? & ? & _). done.
  - rewrite Hns, length_app, length_insert. lia.
  - intros a. destruct (decide (a < length (mnodes w))%nat) as [Hlt|Hge].
    + destruct (decide (a = id)) as [->|Hne]; [by rewrite Hself|by rewrite Hold].
    + rewrite (list_lookup_total_alt (mnodes w)).
      rewrite (lookup_ge_None_2 (mnodes w)) by lia. simpl.
      rewrite Hns. rewrite lookup_total_app_r by (rewrite length_insert; lia).
      rewrite length_insert.
      rewrite list_lookup_total_alt.
      destruct (news !! (a - length (mnodes w))%nat) as [x|] eqn:Hx; simpl; [|done].
      by destruct (Hnews _ _ Hx) as (_ & _ & _ & ->).
  - intros a Ha. split; [|split].
    + destruct (decide (a = id)) as [->|Hne]; [by rewrite Hself|by rewrite Hold].
    + destruct (decide (a = id)) as [->|Hne]; [by rewrite Hself|by rewrite Hold].
    + destruct (decide (a = id)) as [->|Hne].
      * rewrite Hself. eauto.
      * rewrite Hold by done. exists []. by rewrite app_nil_r.
Qed.

(** ** Parent chains in a well-formed store *)

Lemma wf_chain ns : wfNodes ns -> forall id, (id < length ns)%nat ->
  exists l, chain ns id l /\ NoDup l /\ (forall a, a ∈ l -> (a <= id)%nat) /\
            (length l <= S id)%nat.
Proof.
  intros Hw id. induction id as [id IH] using lt_wf_ind. intros Hid.
  destruct (parent (ns !!! id)) as [p|] eqn:Hp.
  - pose proof (wf_parent _ Hw id p Hid Hp) as Hlt.
    destruct (IH p Hlt) as (l & Hc & Hnd & Hle & Hlen); [lia|].
    exists (id :: l). split; [by eapply chain_up|]. split; [|split].
    + apply NoDup_cons. split; [|done]. intros Hin. specialize (Hle _ Hin). lia.
    + intros a [->|Ha]%elem_of_cons; [lia|]. specialize (Hle _ Ha). lia.
    + simpl. lia.
  - exists [id]. split; [by apply chain_top|]. split; [|split].
    + apply NoDup_singleton.
    + intros a Ha. apply list_elem_of_singleton in Ha as ->. lia.
    + simpl. lia.
Qed.

Lemma chain_det ns id l : chain ns id l -> forall l', chain ns id l' -> l = l'.
Proof.
  induction 1 as [id Hid|id p l Hid Hc IH]; intros l' Hc'; inversion Hc'; subst;
    try congruence.
  f_equal. apply IH. congruence.
Qed.

Lemma elem_of_rev (a : nat) (p : list nat) : a ∈ rev p <-> a ∈ p.
Proof. rewrite !list_elem_of_In. symmetry. apply in_rev. Qed.

Lemma last_default_irrelevant (p : list nat) (d d' : nat) :
  p <> [] -> List.last p d = List.last p d'.
Proof.
  induction p as [|x [|y p] IH]; intros Hne; [done|done|].
  change (List.last (y :: p) d = List.last (y :: p) d'). by apply IH.
Qed.

Lemma last_cons_nonempty (x : nat) (p : list nat) (d : nat) :
  p <> [] -> List.last (x :: p) d = List.last p d.
Proof. by destruct p. Qed.

(** ** Selection *)


(** In a well-formed store the selection loop ends, and the path it walked
    is the parent chain of the node it ends in, read backwards. *)
Lemma selectLeaf_spec cfg w :
  wfNodes (mnodes w) ->
  forall (fuel id : nat) (l0 : list nat),
  (id < length (mnodes w))%nat ->
  (length (mnodes w) - id <= fuel)%nat ->
  chain (mnodes w) id (id :: l0) ->
  exists p,
    selectLeaf cfg w fuel id = Some (Some p) /\ p <> [] /\
    chain (mnodes w) (List.last p id) (rev p ++ l0) /\
    (List.last p id < length (mnodes w))%nat.
Proof.
  intros Hw fuel. induction fuel as [|fuel IH]; intros id l0 Hid Hfuel Hc; [lia|].
  simpl.
  destruct (isExpanded (node w id) && (0 <? length (children (node w id)))%nat) eqn:Hloop.
  - apply andb_true_iff in Hloop as [_ Hlen%Nat.ltb_lt].
    destruct (selectChild_in cfg w (node w id)) as (c & -> & Hin).
    { intros Heq. rewrite Heq in Hlen. simpl in Hlen. lia. }
    destruct (wf_children _ Hw id c Hid Hin) as (Hr & Hp & _).
    destruct (IH c (id :: l0)) as (p & -> & Hne & Hch & Hlast); [lia|lia| |].
    { by eapply chain_up. }
    exists (id :: p). split; [done|]. split; [done|].
    rewrite last_cons_nonempty by done.
    rewrite (last_default_irrelevant p id c) by done.
    split; [|done]. simpl. by rewrite <- app_assoc.
  - exists [id]. by repeat split.
Qed.

(** ** One simulation *)

Lemma finish_spec (wX : World) (p : list nat) (leaf : nat) (v : R) :
  wfNodes (mnodes wX) ->
  (leaf < length (mnodes wX))%nat ->
  chain (mnodes wX) leaf (rev p) ->
  exists w',
    finish wX p leaf v = Some (w', Some (mkOutcome p v)) /\
    sameTree (mnodes wX) (mnodes w') /\
    engine w' = engine wX /\ ticks w' = ticks wX /\ draws w' = draws wX /\
    boards w' = boards wX /\
    (forall a, visitCount (mnodes w' !!! a)
               = visitCount (mnodes wX !!! a) + (if bool_decide (a ∈ p) then 1 else 0)).
Proof.
  intros Hw Hleaf Hc.
  destruct (wf_chain _ Hw leaf Hleaf) as (l & Hc' & Hnd & Hle & Hlen).
  rewrite (chain_det _ _ _ Hc' _ Hc) in Hnd, Hle, Hlen. clear Hc' l.
  destruct (backpropagate_chain (rev p) (mnodes wX) leaf v (length (mnodes wX)))
    as (ns' & Hrun & Hl & Hon & Hoff); [done|done| |lia|].
  { intros a Ha. specialize (Hle _ Ha). lia. }
  unfold finish. rewrite Hrun. eexists. split; [done|]. simpl.
  split; [by eapply backpropagate_sameTree|].
  repeat split; try done.
  intros a. case_bool_decide as Hin.
  - apply elem_of_rev in Hin. apply list_elem_of_lookup_1 in Hin as [j Hj].
    by rewrite (Hon _ _ Hj).
  - rewrite Hoff; [lia|]. by rewrite elem_of_rev.
Qed.

(** The end of a simulation, in a world [wX] that extends the world [w] in
    which the simulation started (by nothing, or by an expansion). *)
Lemma simulation_end (w wX : World) (r : nat) (p : list nat) (leaf : nat) (v : R) :
  wf w ->
  root (engine w) = Some r ->
  wfNodes (mnodes wX) ->
  engine wX = engine (countNode w) ->
  ticks wX = ticks w -> draws wX = draws w ->
  (length (mnodes w) <= length (mnodes wX))%nat ->
  (forall a, visitCount (mnodes wX !!! a) = visitCount (mnodes w !!! a)) ->
  (exists bs, boards wX = boards w ++ bs) ->
  (forall a, (a < length (mnodes w))%nat ->
     parent (mnodes wX !!! a) = parent (mnodes w !!! a) /\
     board (mnodes wX !!! a) = board (mnodes w !!! a) /\
     exists more, children (mnodes wX !!! a) = children (mnodes w !!! a) ++ more) ->
  (leaf < length (mnodes wX))%nat ->
  chain (mnodes wX) leaf (rev p) ->
  exists w' o,
    finish wX p leaf v = Some (w', Some o) /\ path o = p /\ value o = v /\
    wf w' /\
    root (engine w') = Some r /\
    stopSearch (engine w') = stopSearch (engine w) /\
    stopTime (engine w') = stopTime (engine w) /\
    onInfo (engine w') = onInfo (engine w) /\
    ticks w' = ticks w /\ draws w' = draws w /\
    (length (mnodes w) <= length (mnodes w'))%nat /\
    (forall a, visitCount (node w' a)
               = visitCount (node w a) + (if bool_decide (a ∈ path o) then 1 else 0)) /\
    (exists bs, boards w' = boards w ++ bs) /\
    (forall a, (a < length (mnodes w))%nat ->
       board (node w' a) = board (node w a) /\
       exists more, children (node w' a) = children (node w a) ++ more).
Proof.
  intros [Hw Hroot] Hr HwX He Ht Hd Hlen Hvc Hbs Hold Hleaf Hc.
  destruct (Hroot r Hr) as [Hrlt Hrpar].
  destruct (finish_spec wX p leaf v HwX Hleaf Hc)
    as (w' & Hfin & [Hl Hsame] & He' & Ht' & Hd' & Hb' & Hvis).
  exists w', (mkOutcome p v). unfold node in *.
  split; [done|]. split; [done|]. split; [done|].
  assert (root (engine w') = Some r) as Hr'.
  { rewrite He', He. by simpl. }
  split_and!.
  - split; [by eapply wfNodes_sameTree; [split|]|].
    intros r' Hr''. rewrite Hr' in Hr''. injection Hr'' as <-.
    split; [lia|]. unfold node.
    destruct (Hsame r) as (-> & _). by destruct (Hold r Hrlt) as [-> _].
  - done.
  - by rewrite He', He.
  - by rewrite He', He.
  - by rewrite He', He.
  - congruence.
  - congruence.
  - lia.
  - intros a. simpl. by rewrite Hvis, Hvc.
  - by rewrite Hb'.
  - intros a Ha. destruct (Hsame a) as (_ & -> & _ & -> & _).
    by destruct (Hold a Ha) as (_ & ? & ?).
Qed.

(** In a well-formed world with a root, a simulation runs to completion; it
    adds one visit to every node of its path and to no other node. *)
Lemma runSimulation_spec cfg zobrist w (r : nat) :
  wf w ->
  root (engine w) = Some r ->
  exists w' o,
    runSimulation cfg zobrist w = Some (w', Some o) /\
    wf w' /\
    root (engine w') = Some r /\
    stopSearch (engine w') = stopSearch (engine w) /\
    stopTime (engine w') = stopTime (engine w) /\
    onInfo (engine w') = onInfo (engine w) /\
    ticks w' = ticks w /\ draws w' = draws w /\
    (length (mnodes w) <= length (mnodes w'))%nat /\
    (forall a, visitCount (node w' a)
               = visitCount (node w a) + (if bool_decide (a ∈ path o) then 1 else 0)) /\
    (exists bs, boards w' = boards w ++ bs) /\
    (forall a, (a < length (mnodes w))%nat ->
       board (node w' a) = board (node w a) /\
       exists more, children (node w' a) = children (node w a) ++ more).
Proof.
  intros Hwf Hr. pose proof Hwf as [Hw Hroot].
  destruct (Hroot r Hr) as [Hrlt Hrpar].
  unfold runSimulation. rewrite Hr.
  destruct (selectLeaf_spec cfg w Hw (length (mnodes w)) r [] Hrlt) as (p & -> & Hne & Hch & Hlast);
    [lia|by apply chain_top|].
  rewrite app_nil_r in Hch.
  set (leaf := List.last p r) in *.
  assert (forall wX v p', 
    wfNodes (mnodes wX) -> engine wX = engine (countNode w) ->
    ticks wX = ticks w -> draws wX = draws w ->
    (length (mnodes w) <= length (mnodes wX))%nat ->
    (forall a, visitCount (mnodes wX !!! a) = visitCount (mnodes w !!! a)) ->
    (exists bs, boards wX = boards w ++ bs) ->
    (forall a, (a < length (mnodes w))%nat ->
       parent (mnodes wX !!! a) = parent (mnodes w !!! a) /\
       board (mnodes wX !!! a) = board (mnodes w !!! a) /\
       exists more, children (mnodes wX !!! a) = children (mnodes w !!! a) ++ more) ->
    forall leaf', (leaf' < length (mnodes wX))%nat ->
    chain (mnodes wX) leaf' (rev p') ->
    exists w' o,
      finish wX p' leaf' v = Some (w', Some o) /\
      wf w' /\
      root (engine w') = Some r /\
      stopSearch (engine w') = stopSearch (engine w) /\
      stopTime (engine w') = stopTime (engine w) /\
      onInfo (engine w') = onInfo (engine w) /\
      ticks w' = ticks w /\ draws w' = draws w /\
      (length (mnodes w) <= length (mnodes w'))%nat /\
      (forall a, visitCount (node w' a)
                 = visitCount (node w a) + (if bool_decide (a ∈ path o) then 1 else 0)) /\
      (exists bs, boards w' = boards w ++ bs) /\
      (forall a, (a < length (mnodes w))%nat ->
         board (node w' a) = board (node w a) /\
         exists more, children (node w' a) = children (node w a) ++ more)) as Hend.
  { intros wX v p' H1 H2 H3 H4 H5 H6 Hb H7 leaf' H8 H9.
    destruct (simulation_end w wX r p' leaf' v Hwf Hr H1 H2 H3 H4 H5 H6 Hb H7 H8 H9)
      as (w' & o & Hf & _ & _ & Hrest).
    by exists w', o. }
  assert (forall a, (a < length (mnodes w))%nat ->
            parent (mnodes w !!! a) = parent (mnodes w !!! a) /\
            board (mnodes w !!! a) = board (mnodes w !!! a) /\
            exists more, children (mnodes w !!! a) = children (mnodes w !!! a) ++ more) as Hself.
  { intros a _. split; [done|]. split; [done|]. exists []. by rewrite app_nil_r. }
  assert (exists bs, boards w = boards w ++ bs) as Hbself.
  { exists []. by rewrite app_nil_r. }
  set (w1 := countNode w).
  destruct (isTerminal (node w1 leaf)).
  { by apply (Hend w1). }
  destruct ((visitCount (node w1 leaf) >=? Config.minVisitsForExpansion cfg)
            && negb (isExpanded (node w1 leaf))); [|by apply (Hend w1)].
  destruct (expand_facts cfg zobrist w1 leaf Hw Hlast)
    as (Hw2 & He2 & Ht2 & Hd2 & Hl2 & Hvc2 & Hbs2 & Hold2).
  set (w2 := expand cfg zobrist w1 leaf) in *.
  assert (chain (mnodes w2) leaf (rev p)) as Hch2.
  { eapply chain_parents; [|exact Hch]. intros a Ha.
    destruct (wf_chain _ Hw leaf Hlast) as (l & Hc' & _ & Hle & _).
    rewrite (chain_det _ _ _ Hc' _ Hch) in Hle. specialize (Hle _ Ha).
    apply Hold2. simpl. lia. }
  assert (leaf < length (mnodes w2))%nat as Hlast2 by (simpl in Hl2; lia).
  destruct (isTerminal (node w2 leaf)).
  { by apply (Hend w2). }
  destruct (children (node w2 leaf)) as [|c cs] eqn:Hcs.
  { by apply (Hend w2). }
  destruct (wf_children _ Hw2 leaf c Hlast2) as (Hrc & Hpc & _).
  { unfold node in Hcs. rewrite Hcs. by left. }
  apply (Hend w2); try done; [lia|].
  rewrite rev_unit. by eapply chain_up.
Qed.

(** ** The simulation loop *)

Lemma passes_cons (a : nat) (o : option SimOutcome) (os : list (option SimOutcome)) :
  passes a (o :: os) = (if passesThrough a o then 1 else 0) + passes a os.
Proof.
  unfold passes. simpl. destruct (passesThrough a o); simpl length; lia.
Qed.

Lemma passes_nonneg (a : nat) (os : list (option SimOutcome)) : 0 <= passes a os.
Proof. unfold passes. lia. Qed.

Lemma wf_tick w : wf w -> wf (tick w).
Proof. done. Qed.

Lemma wf_report w i : wf w -> wf (report w i).
Proof. unfold report. by destruct (_ && _). Qed.

(** The loop of [search] runs to its end in a well-formed world, and the
    visit counts grow by the number of passes. *)
Lemma simLoop_spec cfg zobrist env (remaining : nat) :
  forall (i : Z) (w : World) (r : nat),
  wf w ->
  root (engine w) = Some r ->
  exists w' os,
    simLoop cfg zobrist env remaining i w = Some (w', os) /\
    wf w' /\
    root (engine w') = Some r /\
    draws w' = draws w /\
    (length (mnodes w) <= length (mnodes w'))%nat /\
    (forall a, visitCount (node w' a) = visitCount (node w a) + passes a os) /\
    (exists bs, boards w' = boards w ++ bs) /\
    (forall a, (a < length (mnodes w))%nat ->
       board (node w' a) = board (node w a) /\
       exists more, children (node w' a) = children (node w a) ++ more).
Proof.
  induction remaining as [|remaining IH]; intros i w r Hwf Hr.
  { exists w, []. simpl. split_and!; try done.
    - intros a. unfold passes. simpl. lia.
    - exists []. by rewrite app_nil_r.
    - intros a _. split; [done|]. exists []. by rewrite app_nil_r. }
  assert (exists w' os,
    Some (w, @nil (option SimOutcome)) = Some (w', os) /\ wf w' /\
    root (engine w') = Some r /\ draws w' = draws w /\
    (length (mnodes w) <= length (mnodes w'))%nat /\
    (forall a, visitCount (node w' a) = visitCount (node w a) + passes a os) /\
    (exists bs, boards w' = boards w ++ bs) /\
    (forall a, (a < length (mnodes w))%nat ->
       board (node w' a) = board (node w a) /\
       exists more, children (node w' a) = children (node w a) ++ more)) as Hstop.
  { exists w, []. split_and!; try done.
    - intros a. unfold passes. simpl. lia.
    - exists []. by rewrite app_nil_r.
    - intros a _. split; [done|]. exists []. by rewrite app_nil_r. }
  simpl. destruct (stopSearch (engine w)); [done|].
  destruct (timeIsUp _ _).
  { destruct Hstop as (w' & os & Heq & Hwf' & Hr' & Hd' & Hl' & Hv' & Hb' & Hc').
    injection Heq as <- <-.
    exists (tick w), []. split_and!;
      [done|exact Hwf'|exact Hr'|exact Hd'|exact Hl'|exact Hv'|exact Hb'|exact Hc']. }
  destruct (runSimulation_spec cfg zobrist (tick w) r (wf_tick _ Hwf) Hr)
    as (w1 & o & -> & Hwf1 & Hr1 & _ & _ & _ & _ & Hd1 & Hl1 & Hv1 & [bs1 Hb1] & Hc1).
  destruct (IH (i + 1) (report w1 i) r)
    as (w2 & os & -> & Hwf2 & Hr2 & Hd2 & Hl2 & Hv2 & [bs2 Hb2] & Hc2).
  { by apply wf_report. }
  { unfold report. by destruct (_ && _). }
  assert (mnodes (report w1 i) = mnodes w1) as Hm by (unfold report; by destruct (_ && _)).
  assert (draws (report w1 i) = draws w1) as Hdr by (unfold report; by destruct (_ && _)).
  assert (forall a, node (report w1 i) a = node w1 a) as Hn.
  { intros a. unfold node. by rewrite Hm. }
  exists w2, (Some o :: os). split_and!; try done.
  - rewrite Hd2, Hdr, Hd1. done.
  - rewrite Hm in Hl2. simpl in Hl1. lia.
  - intros a. rewrite Hv2, Hn, Hv1, passes_cons. simpl.
    change (node (tick w) a) with (node w a). lia.
  - exists (bs1 ++ bs2). rewrite Hb2.
    assert (boards (report w1 i) = boards w1) as -> by (unfold report; by destruct (_ && _)).
    rewrite Hb1. simpl. by rewrite <- app_assoc.
  - intros a Ha. destruct (Hc1 a Ha) as [Hbd1 [m1 Hm1]].
    destruct (Hc2 a) as [Hbd2 [m2 Hm2]]; [rewrite Hm; simpl in Hl1; lia|].
    split; [by rewrite Hbd2, Hn, Hbd1|].
    exists (m1 ++ m2). rewrite Hm2, Hn, Hm1. by rewrite <- app_assoc.
Qed.

(** *** The walk of each simulation *)

(** The selection loop walks a selection path. *)
Lemma selectLeaf_selectionPath cfg w (fuel : nat) : forall id p,
  selectLeaf cfg w fuel id = Some (Some p) -> selectionPath cfg w id p.
Proof.
  induction fuel as [|fuel IH]; intros id p H; [discriminate|].
  cbn [selectLeaf] in H.
  destruct (isExpanded (node w id) && (0 <? length (children (node w id)))%nat) eqn:Hloop.
  - destruct (selectChild cfg w (node w id)) as [c|] eqn:Hsel; [|discriminate].
    destruct (selectLeaf cfg w fuel c) as [[p'|]|] eqn:Hrec; try discriminate.
    injection H as <-. eapply selection_step; [exact Hloop|exact Hsel|by apply IH].
  - injection H as <-. by apply selection_stop.
Qed.

(** A node has one selection path. *)
Lemma selectionPath_det cfg w (id : nat) (p p' : list nat) :
  selectionPath cfg w id p -> selectionPath cfg w id p' -> p = p'.
Proof.
  intros H. revert p'.
  induction H as [id Hstop|id c p Hloop Hsel _ IH]; intros p' H';
    inversion H' as [id' Hstop'|id' c' q Hloop' Hsel' Hq]; subst; try congruence.
  rewrite Hsel in Hsel'. injection Hsel' as <-. f_equal. by apply IH.
Qed.

(** Selection and expansion read the nodes and the boards only. *)
Lemma selectChild_frame cfg w w' (n : MCTSNode) :
  mnodes w' = mnodes w -> boards w' = boards w ->
  selectChild cfg w' n = selectChild cfg w n.
Proof.
  destruct w, w'. simpl. intros -> ->. reflexivity.
Qed.

Lemma selectionPath_frame cfg w w' :
  mnodes w' = mnodes w -> boards w' = boards w ->
  forall id p, selectionPath cfg w id p -> selectionPath cfg w' id p.
Proof.
  intros Hm Hb id p H.
  assert (forall a, node w' a = node w a) as Hn by (intros a; unfold node; by rewrite Hm).
  induction H as [id Hstop|id c p Hloop Hsel _ IH].
  - apply selection_stop. by rewrite Hn.
  - eapply selection_step; [by rewrite Hn| |exact IH].
    rewrite Hn. by rewrite (selectChild_frame cfg w w').
Qed.

Lemma expand_frame cfg zobrist w w' (id : nat) :
  mnodes w' = mnodes w -> boards w' = boards w ->
  mnodes (expand cfg zobrist w' id) = mnodes (expand cfg zobrist w id).
Proof.
  destruct w, w'. simpl. intros -> ->. unfold expand, node, boardOf. simpl.
  destruct (isExpanded _); [done|].
  by destruct (MoveGenerator.generate _ _).
Qed.

Lemma entered_frame cfg zobrist w w' (leaf : nat) :
  mnodes w' = mnodes w -> boards w' = boards w ->
  entered cfg zobrist w' leaf = entered cfg zobrist w leaf.
Proof.
  intros Hm Hb. unfold entered, node.
  by rewrite (expand_frame cfg zobrist w w' leaf Hm Hb), Hm.
Qed.

Lemma finish_path (wX : World) (p : list nat) (id : nat) (v : R) w' o :
  finish wX p id v = Some (w', Some o) -> path o = p.
Proof.
  unfold finish. destruct (backpropagate _ _ _ _); [|discriminate].
  by intros [= _ <-].
Qed.

(** The path that a simulation records is its selection path, followed by
    the node it entered after an expansion. *)
Lemma runSimulation_walk cfg zobrist w (r : nat) w' o :
  root (engine w) = Some r ->
  runSimulation cfg zobrist w = Some (w', Some o) ->
  exists sel,
    selectionPath cfg w r sel /\
    path o = sel ++ entered cfg zobrist w (List.last sel r).
Proof.
  intros Hr. unfold runSimulation. rewrite Hr.
  destruct (selectLeaf cfg w (length (mnodes w)) r) as [[sel|]|] eqn:Hsel; try discriminate.
  apply selectLeaf_selectionPath in Hsel.
  intros H. exists sel. split; [exact Hsel|].
  rewrite <- (entered_frame cfg zobrist w (countNode w) (List.last sel r)) by done.
  unfold entered. revert H.
  set (w1 := countNode w). set (leaf := List.last sel r).
  destruct (isTerminal (node w1 leaf)); simpl.
  { intros H. apply finish_path in H. by rewrite H, app_nil_r. }
  destruct ((visitCount (node w1 leaf) >=? Config.minVisitsForExpansion cfg)
            && negb (isExpanded (node w1 leaf))).
  - destruct (isTerminal (node (expand cfg zobrist w1 leaf) leaf)).
    { intros H. apply finish_path in H. by rewrite H, app_nil_r. }
    destruct (children (node (expand cfg zobrist w1 leaf) leaf)) as [|c cs].
    + intros H. apply finish_path in H. by rewrite H, app_nil_r.
    + intros H. by apply finish_path in H.
  - intros H. apply finish_path in H. by rewrite H, app_nil_r.
Qed.

(** The first [k] simulations of a run of the loop are a run of the loop
    with [k] iterations. *)
Lemma simLoop_prefix cfg zobrist env (remaining : nat) :
  forall (i : Z) (w w' : World) os (k : nat),
  simLoop cfg zobrist env remaining i w = Some (w', os) ->
  (k <= length os)%nat ->
  exists wk,
    simLoop cfg zobrist env k i w = Some (wk, take k os) /\
    simLoop cfg zobrist env (remaining - k) (i + Z.of_nat k) wk = Some (w', drop k os).
Proof.
  induction remaining as [|remaining IH]; intros i w w' os k Hrun Hk.
  { simpl in Hrun. injection Hrun as <- <-. simpl in Hk.
    assert (k = 0%nat) as -> by lia. exists w. by rewrite Z.add_0_r. }
  destruct k as [|k].
  { exists w. rewrite Z.add_0_r, Nat.sub_0_r, take_0, drop_0. by split. }
  cbn [simLoop] in Hrun. cbn [simLoop].
  destruct (stopSearch (engine w)).
  { injection Hrun as <- <-. simpl in Hk. lia. }
  destruct (timeIsUp _ _).
  { injection Hrun as <- <-. simpl in Hk. lia. }
  destruct (runSimulation cfg zobrist (tick w)) as [[w1 o]|]; [|discriminate].
  destruct (simLoop cfg zobrist env remaining (i + 1) (report w1 i)) as [[w2 os']|] eqn:Hrec;
    [|discriminate].
  injection Hrun as <- <-. simpl in Hk.
  destruct (IH (i + 1) (report w1 i) w2 os' k Hrec) as (wk & Hpre & Hpost); [lia|].
  exists wk. rewrite Hpre. split; [done|].
  replace (i + Z.of_nat (S k)) with (i + 1 + Z.of_nat k) by lia.
  exact Hpost.
Qed.

(** C9 (as the code has it). From any well-formed world with a root, any
    number of further simulations of the search loop runs to completion,
    and for every node the visit count afterwards is the visit count before
    plus the number of those simulations whose walk passed through the
    node; it never decreases, and in a tree whose counts start at zero it
    is exactly that number.  The walk of a simulation is its selection path
    in the tree as the simulations before it left it (from the root along
    [selectChild] while the node is expanded and has children), followed,
    when the simulation expands the node at which the selection stopped,
    by the first child of that node, which the simulation enters without
    selecting it. *)
Theorem visitCount_counts_simulations cfg zobrist env (remaining : nat) (i : Z)
    (w : World) (r : nat) :
  wf w ->
  root (engine w) = Some r ->
  exists w' os,
    simLoop cfg zobrist env remaining i w = Some (w', os) /\
    (forall a, visitCount (node w' a) = visitCount (node w a) + passes a os) /\
    (forall a, visitCount (node w a) <= visitCount (node w' a)) /\
    ((forall a, visitCount (node w a) = 0) ->
     forall a, visitCount (node w' a) = passes a os) /\
    (forall k : nat, (k < length os)%nat ->
       exists wk o sel,
         simLoop cfg zobrist env k i w = Some (wk, take k os) /\
         os !! k = Some (Some o) /\
         selectionPath cfg wk r sel /\
         path o = sel ++ entered cfg zobrist wk (List.last sel r)).
Proof.
  intros Hwf Hr.
  destruct (simLoop_spec cfg zobrist env remaining i w r Hwf Hr)
    as (w' & os & Hrun & _ & _ & _ & _ & Hv & _).
  exists w', os. split_and!; try done.
  - intros a. rewrite Hv. pose proof (passes_nonneg a os). lia.
  - intros Hzero a. rewrite Hv, Hzero. lia.
  - intros k Hk.
    destruct (simLoop_prefix cfg zobrist env remaining i w w' os k Hrun) as (wk & Hpre & Hpost);
      [lia|].
    destruct (simLoop_spec cfg zobrist env k i w r Hwf Hr)
      as (wk' & osk & Hrunk & Hwfk & Hrk & _).
    rewrite Hpre in Hrunk. injection Hrunk as <- _.
    destruct (lookup_lt_is_Some_2 os k Hk) as [ok Hok].
    rewrite (drop_S _ _ _ Hok) in Hpost.
    destruct (remaining - k)%nat as [|m]; [discriminate|].
    cbn [simLoop] in Hpost.
    destruct (stopSearch (engine wk)); [discriminate|].
    destruct (timeIsUp _ _); [discriminate|].
    destruct (runSimulation_spec cfg zobrist (tick wk) r (wf_tick _ Hwfk) Hrk)
      as (w1 & o & Hsim & _).
    rewrite Hsim in Hpost.
    destruct (simLoop cfg zobrist env m _ _) as [[w2 os2]|]; [|discriminate].
    injection Hpost as _ Ho _.
    destruct (runSimulation_walk cfg zobrist (tick wk) r w1 o Hrk Hsim) as (sel & Hsel & Hpath).
    exists wk, o, sel. split; [exact Hpre|]. split; [by rewrite Hok, Ho|].
    split; [by apply (selectionPath_frame cfg (tick wk) wk)|].
    by rewrite Hpath, (entered_frame cfg zobrist wk (tick wk)).
Qed.

(** ** The start of a search *)

Lemma wfNodes_alloc (ns : list MCTSNode) (b : nat) (p : R) :
  wfNodes ns -> wfNodes (ns ++ [newNode b None None p]).
Proof.
  intros Hw.
  assert (forall a, (a < length ns)%nat ->
            (ns ++ [newNode b None None p]) !!! a = ns !!! a) as Hold.
  { intros a Ha. by rewrite lookup_total_app_l. }
  assert ((ns ++ [newNode b None None p]) !!! length ns = newNode b None None p) as Hnew.
  { rewrite lookup_total_app_r by lia. by rewrite Nat.sub_diag. }
  split.
  - intros id c Hid Hc. rewrite length_app in Hid. simpl in Hid.
    destruct (decide (id = length ns)) as [->|Hne].
    + rewrite Hnew in Hc. by apply elem_of_nil in Hc.
    + rewrite Hold in Hc by lia.
      destruct (wf_children _ Hw id c) as (Hr & Hp & Hm); [lia|done|].
      rewrite length_app, Hold by lia. simpl. repeat split; try done; lia.
  - intros id q Hid Hq. rewrite length_app in Hid. simpl in Hid.
    destruct (decide (id = length ns)) as [->|Hne].
    + by rewrite Hnew in Hq.
    + rewrite Hold in Hq by lia. apply (wf_parent _ Hw id q); [lia|done].
  - intros id Hid. rewrite length_app in Hid. simpl in Hid.
    destruct (decide (id = length ns)) as [->|Hne].
    + rewrite Hnew. apply NoDup_nil_2.
    + rewrite Hold by lia. apply (wf_nodup _ Hw). lia.
Qed.

(** [initRoot] keeps the root when the hashes agree and otherwise allocates
    a fresh node, which becomes the root. *)
Lemma initRoot_spec w (bref : nat) :
  wf w ->
  let w1 := initRoot w bref in
  wf w1 /\
  ticks w1 = ticks w /\ draws w1 = draws w /\ boards w1 = boards w /\
  (forall a, (a < length (mnodes w))%nat -> node w1 a = node w a) /\
  ((keepsRoot w bref = true /\ w1 = w /\ exists r, root (engine w) = Some r) \/
   (keepsRoot w bref = false /\
    root (engine w1) = Some (length (mnodes w)) /\
    mnodes w1 = mnodes w ++ [newNode bref None None 0%R])).
Proof.
  intros [Hw Hroot]. unfold initRoot.
  destruct (keepsRoot w bref) eqn:Hk; simpl.
  - split_and!; try done. left. split_and!; try done.
    unfold keepsRoot in Hk. destruct (root (engine w)); [eauto|done].
  - split_and!; try done.
    + split; simpl; [by apply wfNodes_alloc|].
      intros r Hr. injection Hr as <-. rewrite length_app. simpl.
      split; [lia|]. unfold node; simpl.
      rewrite lookup_total_app_r by lia. by rewrite Nat.sub_diag.
    + intros a Ha. unfold node; simpl. by rewrite lookup_total_app_l.
    + right. by split_and!.
Qed.

Lemma wf_beginSearch env w timeLimit : wf w -> wf (beginSearch env w timeLimit).
Proof. done. Qed.

(** After [prepare] the world is well-formed and has a root. *)
Lemma prepare_spec cfg zobrist env w (bref : nat) (timeLimit : option Z) :
  wf w ->
  let w2 := prepare cfg zobrist env w bref timeLimit in
  exists r,
    root (engine w2) = Some r /\ wf w2 /\
    draws w2 = draws w /\
    (exists bs, boards w2 = boards w ++ bs) /\
    stopSearch (engine w2) = false /\
    stopTime (engine w2) = option_map (Z.add (now env (ticks w))) timeLimit /\
    (forall a, (a < length (mnodes w))%nat ->
       visitCount (node w2 a) = visitCount (node w a) /\
       board (node w2 a) = board (node w a) /\
       exists more, children (node w2 a) = children (node w a) ++ more).
Proof.
  intros Hwf w2. unfold w2, prepare.
  set (w0 := beginSearch env w timeLimit).
  destruct (initRoot_spec w0 bref (wf_beginSearch env w timeLimit Hwf))
    as ([Hw1 Hroot1] & Ht1 & Hd1 & Hb1 & Hold1 & Hcase).
  set (w1 := initRoot w0 bref) in *.
  assert (exists r, root (engine w1) = Some r) as [r Hr].
  { destruct Hcase as [(_ & -> & r & Hr)|(_ & Hr & _)]; eauto. }
  assert (stopSearch (engine w1) = false /\
          stopTime (engine w1) = option_map (Z.add (now env (ticks w))) timeLimit) as [Hss Hst].
  { unfold w1, initRoot. by destruct (keepsRoot w0 bref). }
  assert (length (mnodes w) <= length (mnodes w1))%nat as Hlen.
  { destruct Hcase as [(_ & -> & _)|(_ & _ & ->)]; [done|]. rewrite length_app. simpl. lia. }
  rewrite Hr. destruct (Hroot1 r Hr) as [Hrlt _].
  destruct (expand_facts cfg zobrist w1 r Hw1 Hrlt)
    as (Hw2 & He2 & Ht2 & Hd2 & Hl2 & Hvc2 & [bs Hbs2] & Hold2).
  exists r. split_and!.
  - by rewrite He2.
  - split; [done|]. intros r' Hr'. rewrite He2, Hr in Hr'. injection Hr' as <-.
    split; [lia|]. unfold node. destruct (Hold2 r Hrlt) as [-> _].
    by destruct (Hroot1 r Hr).
  - by rewrite Hd2, Hd1.
  - exists bs. by rewrite Hbs2, Hb1.
  - by rewrite He2.
  - by rewrite He2.
  - intros a Ha. unfold node. rewrite Hvc2.
    destruct (Hold2 a) as (_ & -> & more & ->); [lia|].
    fold (node w1 a). rewrite (Hold1 a Ha). split_and!; try done. by exists more.
Qed.

(** ** Noise and move choice keep the tree *)

Lemma addDirichletNoise_spec cfg env w (id : nat) :
  let w' := addDirichletNoise cfg env w id in
  sameTree (mnodes w) (mnodes w') /\ engine w' = engine w /\ boards w' = boards w /\
  ticks w' = ticks w.
Proof.
  unfold addDirichletNoise. destruct (children (node w id)) as [|c cs].
  - split_and!; first [done|apply sameTree_refl].
  - unfold drawn, setNodes. cbn [mnodes engine boards ticks].
    split_and!; first [done|apply blendPriors_sameTree].
Qed.

Lemma wf_sameTree w w' :
  sameTree (mnodes w) (mnodes w') -> root (engine w') = root (engine w) ->
  wf w -> wf w'.
Proof.
  intros Hsame Hroot [Hw Hr]. split; [by eapply wfNodes_sameTree|].
  intros r Hr'. rewrite Hroot in Hr'. destruct (Hr r Hr') as [Hlt Hp].
  destruct Hsame as [Hl Hs]. split; [lia|]. unfold node in *.
  by destruct (Hs r) as (-> & _).
Qed.

Lemma last_in (l : list nat) (d : nat) : l <> [] -> List.last l d ∈ l.
Proof.
  induction l as [|x [|y l] IH]; intros Hne; [done|by left|].
  right. by apply IH.
Qed.

Lemma sample_in w (cs : list nat) : forall (rand : R) (visits : list R) (last : nat),
  sample w rand cs visits last ∈ cs \/ sample w rand cs visits last = last.
Proof.
  induction cs as [|c cs IH]; intros rand visits last; simpl; [by right|].
  destruct visits as [|v visits]; [by right|].
  destruct (Rle_dec (rand - v) 0); [left; by left|].
  destruct (IH (rand - v)%R visits last) as [Hin| ->]; [left; by right|by right].
Qed.

(** [getBestMove] returns the move of one of the children. *)
Lemma getBestMove_child env w (n : MCTSNode) (temperature : R) :
  children n <> [] ->
  exists c, c ∈ children n /\
            fst (getBestMove env w n temperature) = move (node w c) /\
            mnodes (snd (getBestMove env w n temperature)) = mnodes w /\
            engine (snd (getBestMove env w n temperature)) = engine w /\
            boards (snd (getBestMove env w n temperature)) = boards w.
Proof.
  intros Hne. unfold getBestMove.
  destruct (children n) as [|c0 cs] eqn:Hcs; [done|].
  destruct (Req_dec_T temperature 0).
  - destruct (mostVisited_fold w c0 (c0 :: cs)) as [_ [[Hb _]|[_ (i & Hi & _)]]].
    + eexists. split; [|by split_and!]. rewrite Hb. by left.
    + eexists. split; [|by split_and!]. by eapply list_elem_of_lookup_2.
  - eexists. split; [|by split_and!].
    match goal with |- sample _ ?r ?l ?v ?d ∈ _ =>
      destruct (sample_in w l r v d) as [Hin| ->] end; [done|].
    by apply last_in.
Qed.

(** ** The whole search *)

(** [search] runs to completion in a well-formed world: it answers null
    when the root has no children after [prepare], and a move otherwise. *)
Lemma search_spec cfg zobrist env w (bref : nat) (simulations timeLimit : option Z) :
  wf w ->
  let w2 := prepare cfg zobrist env w bref timeLimit in
  exists r,
    root (engine w2) = Some r /\
    ((children (node w2 r) = [] /\
      search cfg zobrist env w bref simulations timeLimit = Some (w2, None)) \/
     (children (node w2 r) <> [] /\
      exists w4 os w' m,
        simLoop cfg zobrist env
          (iterations (effectiveSimulations cfg w bref simulations)) 0
          (addDirichletNoise cfg env w2 r) = Some (w4, os) /\
        search cfg zobrist env w bref simulations timeLimit = Some (w', Some m) /\
        wf w' /\ root (engine w') = Some r /\
        mnodes w' = mnodes w4 /\
        (exists bs, boards w' = boards w2 ++ bs) /\
        board (node w' r) = board (node w2 r) /\
        children (node w' r) <> [])).
Proof.
  intros Hwf w2.
  destruct (prepare_spec cfg zobrist env w bref timeLimit Hwf)
    as (r & Hr & Hwf2 & _).
  fold w2 in Hr, Hwf2. exists r. split; [done|].
  unfold search. fold w2. rewrite Hr.
  destruct (children (node w2 r)) as [|c cs] eqn:Hcs; [by left|].
  right. split; [done|].
  destruct (addDirichletNoise_spec cfg env w2 r) as (Hsame & He3 & Hb3 & _).
  set (w3 := addDirichletNoise cfg env w2 r) in *.
  assert (wf w3) as Hwf3 by (eapply wf_sameTree; [exact Hsame|by rewrite He3|done]).
  assert (root (engine w3) = Some r) as Hr3 by (by rewrite He3).
  destruct (simLoop_spec cfg zobrist env
              (iterations (effectiveSimulations cfg w bref simulations)) 0 w3 r Hwf3 Hr3)
    as (w4 & os & Hloop & Hwf4 & Hr4 & _ & Hl4 & _ & [bs4 Hb4] & Hold4).
  rewrite Hloop.
  destruct Hwf2 as [Hw2 Hroot2]. destruct (Hroot2 r Hr) as [Hrlt2 _].
  destruct Hsame as [Hl3 Hs3].
  destruct (Hold4 r) as [Hbd4 [more Hch4]]; [lia|].
  assert (children (node w4 r) <> []) as Hne4.
  { rewrite Hch4. unfold node. destruct (Hs3 r) as (_ & -> & _).
    fold (node w2 r). rewrite Hcs. done. }
  destruct (getBestMove_child env w4 (node w4 r) (Config.temperature cfg) Hne4)
    as (c' & Hin & Hmv & Hm5 & He5 & Hb5).
  destruct Hwf4 as [Hw4 Hroot4]. destruct (Hroot4 r Hr4) as [Hrlt4 Hrp4].
  destruct (wf_children _ Hw4 r c' Hrlt4 Hin) as (_ & _ & [m Hm]).
  assert (getBestMove env w4 (node w4 r) (Config.temperature cfg)
          = (Some m, snd (getBestMove env w4 (node w4 r) (Config.temperature cfg)))) as Hres.
  { assert (fst (getBestMove env w4 (node w4 r) (Config.temperature cfg)) = Some m) as Hf
      by (rewrite Hmv; exact Hm).
    rewrite <- Hf. by destruct (getBestMove _ _ _ _). }
  set (w' := snd (getBestMove env w4 (node w4 r) (Config.temperature cfg))) in *.
  exists w4, os, w', m.
  split_and!; try done.
  - by rewrite Hres.
  - split; [by rewrite Hm5|]. intros r'. rewrite He5, Hr4. intros [= <-].
    unfold node. rewrite Hm5. by split.
  - by rewrite He5.
  - exists bs4. by rewrite Hb5, Hb4, Hb3.
  - unfold node. rewrite Hm5. fold (node w4 r). rewrite Hbd4.
    unfold node. by destruct (Hs3 r) as (_ & _ & _ & -> & _).
  - unfold node. by rewrite Hm5.
Qed.

(** ** Values *)

Lemma tanh_bounds (x : R) : (-1 < tanh x < 1)%R.
Proof.
  unfold tanh, sinh, cosh.
  pose proof (exp_pos x) as Ha. pose proof (exp_pos (- x)) as Hb.
  set (a := exp x) in *. set (b := exp (- x)) in *.
  assert (0 < 2 * a / (a + b))%R as H1.
  { apply Rdiv_lt_0_compat; lra. }
  assert (0 < 2 * b / (a + b))%R as H2.
  { apply Rdiv_lt_0_compat; lra. }
  assert ((a - b) / 2 / ((a + b) / 2) = -1 + 2 * a / (a + b))%R as E1 by (field; lra).
  assert ((a - b) / 2 / ((a + b) / 2) = 1 - 2 * b / (a + b))%R as E2 by (field; lra).
  split; [rewrite E1|rewrite E2]; lra.
Qed.

(** The value of an evaluated position is normalised. *)
Lemma evaluatePosition_bounds cfg (b : Board) : (-1 < evaluatePosition cfg b < 1)%R.
Proof. unfold evaluatePosition, Evaluator.normalizeValue. apply tanh_bounds. Qed.

(** ** Evaluating the engine on explicit worlds *)

(** Reduction that leaves the operations on real numbers alone. *)
Ltac run_engine :=
  cbv -[Rplus Rminus Rmult Rdiv Rinv Ropp IZR IPR exp tanh sqrt Rpower
        Rlt_dec Rle_dec Req_dec_T Math_pow PolicyNetwork.moveScore PolicyNetwork.sumR].

Lemma wf_create : wf AlphaZeroEngine.create.
Proof.
  split; [split|]; simpl; try (intros; lia). intros r Hr. discriminate.
Qed.

Lemma wf_positionFen zobrist w fen : wf w -> wf (AlphaZeroEngine.positionFen zobrist w fen).
Proof. done. Qed.

(** C3. In the position with a white pawn on a3 and a black pawn on a5 the
    only move is a3-a4, after which Black has no move.  The first
    simulation of the search evaluates the child position and
    backpropagates a normalised value; the second one expands the child,
    finds it terminal and calls [backpropagate] with its [terminalValue],
    which is [-MATE_SCORE] = -50000 and not a value of [-1, 1]. *)
Theorem terminal_value_not_normalised :
  exists w' o1 o2,
    simLoop MCTS_CONFIG Examples.zobrist Examples.env 2 0 Examples.pawnsSearch
    = Some (w', [Some o1; Some o2]) /\
    path o1 = [0; 1]%nat /\ (-1 <= value o1 <= 1)%R /\
    path o2 = [0; 1]%nat /\
    isTerminal (node w' 1) = true /\
    value o2 = IZR (- MATE_SCORE) /\
    ~ (-1 <= value o2 <= 1)%R.
Proof.
  eexists _, _, _. split; [run_engine; reflexivity|].
  cbn [path value].
  split; [reflexivity|]. split; [pose proof (tanh_bounds (0 / 1000)); lra|].
  split; [reflexivity|]. split; [reflexivity|].
  split; [run_engine; reflexivity|]. run_engine. lra.
Qed.

(** ** Root initialisation *)

Lemma expand_visitCount cfg zobrist w (id : nat) :
  (id < length (mnodes w))%nat ->
  forall a, visitCount (node (expand cfg zobrist w id) a) = visitCount (node w a).
Proof.
  intros Hid a.
  destruct (expand_form cfg zobrist w id Hid)
    as (n' & news & Hns & _ & _ & _ & _ & _ & Hvc & _ & _ & _ & Hnews).
  unfold node in *. rewrite Hns.
  destruct (decide (a < length (mnodes w))%nat) as [Hlt|Hge].
  - rewrite lookup_total_app_l by (by rewrite length_insert).
    destruct (decide (a = id)) as [->|Hne].
    + by rewrite insert_node_eq.
    + by rewrite insert_node_ne.
  - rewrite (list_lookup_total_alt (mnodes w)).
    rewrite (lookup_ge_None_2 (mnodes w)) by lia. simpl.
    rewrite lookup_total_app_r by (rewrite length_insert; lia).
    rewrite length_insert, list_lookup_total_alt.
    destruct (news !! (a - length (mnodes w))%nat) as [x|] eqn:Hx; simpl; [|done].
    by destruct (Hnews _ _ Hx) as (_ & _ & _ & ->).
Qed.

(** A node without children that is expanded for the first time gets
    children exactly when its position has moves. *)
Lemma expand_children_fresh cfg zobrist w (id : nat) :
  (id < length (mnodes w))%nat ->
  isExpanded (node w id) = false ->
  children (node w id) = [] ->
  let n' := node (expand cfg zobrist w id) id in
  parent n' = parent (node w id) /\
  (forall c, c ∈ children n' -> (length (mnodes w) <= c)%nat) /\
  (children n' = [] <-> MoveGenerator.generate (boardOf w (node w id)) false = []).
Proof.
  intros Hid Hexp Hch. unfold expand. rewrite Hexp.
  destruct (MoveGenerator.generate (boardOf w (node w id)) false) as [|m ms] eqn:Hgen.
  - unfold node; simpl. rewrite insert_node_eq by done. simpl.
    fold (node w id). rewrite Hch. split_and!; try done.
    intros c Hc. by apply elem_of_nil in Hc.
  - unfold node; cbn [mnodes].
    rewrite lookup_total_app_l by (by rewrite length_insert).
    rewrite insert_node_eq by done. cbn [parent children].
    fold (node w id). rewrite Hch, app_nil_l.
    split; [done|]. split.
    + intros c Hc. apply elem_of_seq in Hc. lia.
    + split; [|done]. intros Heq. exfalso.
      apply (f_equal length) in Heq. rewrite length_seq, length_imap in Heq.
      rewrite length_zip_with in Heq. unfold PolicyNetwork.getMovePolicy in Heq.
      rewrite !length_map in Heq. simpl in Heq. lia.
Qed.

(** The root with which the simulation loop starts: the old root when the
    hashes agree, a node allocated by this search otherwise. *)
Lemma prepare_root cfg zobrist env w (bref : nat) (timeLimit : option Z) :
  let w2 := prepare cfg zobrist env w bref timeLimit in
  (forall r, root (engine w) = Some r -> (r < length (mnodes w))%nat ->
     hash (boardOf w (node w r)) = hash (boards w !!! bref) ->
     root (engine w2) = Some r /\
     forall a, visitCount (node w2 a) = visitCount (node w a)) /\
  ((root (engine w) = None \/
    exists r, root (engine w) = Some r /\
              hash (boardOf w (node w r)) <> hash (boards w !!! bref)) ->
   let rootId := length (mnodes w) in
   root (engine w2) = Some rootId /\
   board (node w2 rootId) = bref /\
   visitCount (node w2 rootId) = 0 /\
   parent (node w2 rootId) = None /\
   (forall c, c ∈ children (node w2 rootId) -> (rootId < c)%nat) /\
   (children (node w2 rootId) = [] <->
    MoveGenerator.generate (boards w !!! bref) false = [])).
Proof.
  intros w2. unfold w2, prepare. set (w0 := beginSearch env w timeLimit).
  split.
  - intros r Hr Hlt Hhash.
    assert (keepsRoot w0 bref = true) as Hk.
    { unfold keepsRoot. simpl. rewrite Hr. by apply Z.eqb_eq. }
    unfold initRoot. rewrite Hk. simpl root. rewrite Hr.
    destruct (expand_form cfg zobrist w0 r Hlt) as (_ & _ & _ & -> & _).
    split; [done|]. intros a. by rewrite expand_visitCount.
  - intros Hcase. set (rootId := length (mnodes w)).
    assert (keepsRoot w0 bref = false) as Hk.
    { unfold keepsRoot. simpl. destruct Hcase as [->|(r & -> & Hne)]; [done|].
      by apply Z.eqb_neq. }
    set (w1 := initRoot w0 bref).
    assert (root (engine w1) = Some rootId /\
            mnodes w1 = mnodes w ++ [newNode bref None None 0%R] /\
            boards w1 = boards w) as (Hr1 & Hm1 & Hb1).
    { unfold w1, initRoot. rewrite Hk. by simpl. }
    rewrite Hr1.
    assert (rootId < length (mnodes w1))%nat as Hlt.
    { rewrite Hm1, length_app. unfold rootId. simpl. lia. }
    assert (node w1 rootId = newNode bref None None 0%R) as Hnode.
    { unfold node. rewrite Hm1. unfold rootId. rewrite lookup_total_app_r by lia.
      by rewrite Nat.sub_diag. }
    destruct (expand_form cfg zobrist w1 rootId Hlt)
      as (n' & news & Hns & He & _ & _ & _ & _ & _ & Hbd & _).
    destruct (expand_children_fresh cfg zobrist w1 rootId Hlt) as (Hp & Hc & Hiff);
      [by rewrite Hnode|by rewrite Hnode|].
    split; [by rewrite He|].
    split.
    { unfold node at 1. rewrite Hns.
      rewrite lookup_total_app_l by (by rewrite length_insert).
      rewrite insert_node_eq by done. by rewrite Hbd, Hnode. }
    split; [by rewrite expand_visitCount, Hnode|].
    split; [by rewrite Hp, Hnode|].
    split.
    + intros c Hin. specialize (Hc c Hin). rewrite Hm1, length_app in Hc.
      simpl in Hc. unfold rootId. lia.
    + rewrite Hiff, Hnode. unfold boardOf. by rewrite Hb1.
Qed.

(** X23. [search] looks at the previous root only.  The simulation loop
    starts from the previous root, with the visit counts as they were,
    exactly when the hash of the searched board equals the hash of the
    previous root's board; in every other case (no previous root, or a
    different hash) the root is a node allocated by this search, with visit
    count 0, no parent, and only freshly allocated children. *)
Theorem root_kept_only_for_equal_hash cfg zobrist env w (bref : nat) (timeLimit : option Z) :
  let w2 := prepare cfg zobrist env w bref timeLimit in
  (forall r, root (engine w) = Some r -> (r < length (mnodes w))%nat ->
     hash (boardOf w (node w r)) = hash (boards w !!! bref) ->
     root (engine w2) = Some r /\
     forall a, visitCount (node w2 a) = visitCount (node w a)) /\
  ((root (engine w) = None \/
    exists r, root (engine w) = Some r /\
              hash (boardOf w (node w r)) <> hash (boards w !!! bref)) ->
   let rootId := length (mnodes w) in
   root (engine w2) = Some rootId /\
   visitCount (node w2 rootId) = 0 /\
   parent (node w2 rootId) = None /\
   (forall c, c ∈ children (node w2 rootId) -> (rootId < c)%nat)).
Proof.
  intros w2.
  destruct (prepare_root cfg zobrist env w bref timeLimit) as [Hkeep Hfresh].
  split; [exact Hkeep|].
  intros Hcase rootId. destruct (Hfresh Hcase) as (H1 & _ & H2 & H3 & H4 & _).
  by split_and!.
Qed.

Lemma root_kept_only_for_equal_hash_witness :
  (let w2 := prepare MCTS_CONFIG Examples.zobrist Examples.env Examples.pawnsWorld 0 (Some 1000) in
   root (engine w2) = Some 0%nat /\ visitCount (node w2 0) = 0) /\
  (let w2 := prepare MCTS_CONFIG Examples.zobrist Examples.env Examples.marchAfter
               AlphaZeroEngine.boardRef (Some 5) in
   root (engine w2) = Some 0%nat /\
   visitCount (node w2 1) = visitCount (node Examples.marchAfter 1)).
Proof.
  split.
  - destruct (root_kept_only_for_equal_hash MCTS_CONFIG Examples.zobrist Examples.env
                Examples.pawnsWorld 0 (Some 1000)) as [_ Hfresh].
    destruct Hfresh as (H1 & H2 & _).
    + left. reflexivity.
    + split; [exact H1|exact H2].
  - destruct (root_kept_only_for_equal_hash MCTS_CONFIG Examples.zobrist Examples.env
                Examples.marchAfter AlphaZeroEngine.boardRef (Some 5)) as [Hkeep _].
    destruct (Hkeep 0%nat) as [H1 H2].
    + vm_compute. reflexivity.
    + vm_compute. lia.
    + vm_compute. reflexivity.
    + split; [exact H1|apply H2].
Defined.

(** ** Running a search *)

Lemma getBestMove_world env w (n : MCTSNode) (temperature : R) :
  temperature <> 0%R -> children n <> [] ->
  snd (getBestMove env w n temperature) = drawn w 1.
Proof.
  intros Ht Hne. unfold getBestMove. destruct (children n); [done|].
  by destruct (Req_dec_T temperature 0).
Qed.

(** The result of [search] from the result of its simulation loop. *)
Lemma search_run cfg zobrist env w (bref : nat) (simulations timeLimit : option Z)
    (r : nat) (w4 : World) (os : list (option SimOutcome)) :
  wf w ->
  Config.temperature cfg <> 0%R ->
  let w2 := prepare cfg zobrist env w bref timeLimit in
  root (engine w2) = Some r ->
  children (node w2 r) <> [] ->
  simLoop cfg zobrist env (iterations (effectiveSimulations cfg w bref simulations)) 0
    (addDirichletNoise cfg env w2 r) = Some (w4, os) ->
  exists m, search cfg zobrist env w bref simulations timeLimit = Some (drawn w4 1, Some m).
Proof.
  intros Hwf Ht w2 Hr Hne Hloop.
  destruct (search_spec cfg zobrist env w bref simulations timeLimit Hwf)
    as (r' & Hr' & Hcase).
  fold w2 in Hr', Hcase. rewrite Hr in Hr'. injection Hr' as <-.
  destruct Hcase as [[Hnil _]|(_ & w4' & os' & w' & m & Hloop' & Hsearch & _ & _ & Hm' & _ & _ & Hch)];
    [done|].
  rewrite Hloop in Hloop'. injection Hloop' as <- <-.
  assert (children (node w4 r) <> []) as Hne4.
  { unfold node in *. by rewrite <- Hm'. }
  exists m. rewrite Hsearch.
  assert (w' = drawn w4 1) as ->; [|done].
  unfold search in Hsearch. fold w2 in Hsearch. rewrite Hr in Hsearch.
  destruct (children (node w2 r)); [done|]. rewrite Hloop in Hsearch.
  injection Hsearch as Hw _. rewrite <- Hw. by apply getBestMove_world.
Qed.

(** The world in which the simulation loop starts is well-formed. *)
Lemma wf_search_start cfg zobrist env w (bref : nat) (timeLimit : option Z) (r : nat) :
  wf w ->
  wf (addDirichletNoise cfg env (prepare cfg zobrist env w bref timeLimit) r).
Proof.
  intros Hwf.
  destruct (prepare_spec cfg zobrist env w bref timeLimit Hwf) as (r' & _ & Hwf2 & _).
  destruct (addDirichletNoise_spec cfg env (prepare cfg zobrist env w bref timeLimit) r)
    as (Hsame & He & _).
  eapply wf_sameTree; [exact Hsame|by rewrite He|exact Hwf2].
Qed.

Lemma temperature_not_zero : Config.temperature MCTS_CONFIG <> 0%R.
Proof. simpl. lra. Qed.

(** The pawn-march position is searched for 5 ms: three simulations run,
    and the only child of the root (node 1, with its own board object 1)
    ends with visit count 3.  A new search that is handed the board object
    of that child does not promote it: the loop starts from node 4,
    allocated by the new search, whose visit count is 0. *)
Lemma child_position_gets_fresh_root :
  (exists m1, search MCTS_CONFIG Examples.zobrist Examples.env Examples.marchWorld
                AlphaZeroEngine.boardRef (Some 2000) (Some 5)
              = Some (Examples.marchAfter, Some m1)) /\
  root (engine Examples.marchAfter) = Some 0%nat /\
  children (node Examples.marchAfter 0) = [1%nat] /\
  board (node Examples.marchAfter 1) = 1%nat /\
  visitCount (node Examples.marchAfter 1) = 3 /\
  let w2 := prepare MCTS_CONFIG Examples.zobrist Examples.env Examples.marchAfter 1 (Some 5) in
  root (engine w2) = Some 4%nat /\
  visitCount (node w2 4) = 0 /\
  parent (node w2 4) = None.
Proof.
  assert (exists w4 os,
    simLoop MCTS_CONFIG Examples.zobrist Examples.env 2500 0
      (addDirichletNoise MCTS_CONFIG Examples.env
         (prepare MCTS_CONFIG Examples.zobrist Examples.env Examples.marchWorld
            AlphaZeroEngine.boardRef (Some 5)) 0)
    = Some (w4, os) /\ Examples.marchAfter = drawn w4 1) as (w4 & os & Hloop & Hafter).
  { unfold Examples.marchAfter.
    destruct (simLoop_spec MCTS_CONFIG Examples.zobrist Examples.env 2500 0
                (addDirichletNoise MCTS_CONFIG Examples.env
                   (prepare MCTS_CONFIG Examples.zobrist Examples.env Examples.marchWorld
                      AlphaZeroEngine.boardRef (Some 5)) 0) 0) as (w4 & os & Hrun & _).
    - apply wf_search_start, wf_positionFen, wf_create.
    - vm_compute. reflexivity.
    - exists w4, os. split; [exact Hrun|]. by rewrite Hrun. }
  split.
  { rewrite Hafter.
    apply (search_run MCTS_CONFIG Examples.zobrist Examples.env Examples.marchWorld
             AlphaZeroEngine.boardRef (Some 2000) (Some 5) 0 w4 os).
    - apply wf_positionFen, wf_create.
    - apply temperature_not_zero.
    - vm_compute. reflexivity.
    - vm_compute. discriminate.
    - assert (iterations (effectiveSimulations MCTS_CONFIG Examples.marchWorld
                AlphaZeroEngine.boardRef (Some 2000)) = 2500%nat) as -> by (vm_compute; reflexivity).
      exact Hloop. }
  vm_compute. repeat split; reflexivity.
Qed.

(** C4. The session [position fen 8/8/8/7p/8/P7/8/8 w - - 0 1],
    [go movetime 5], [position fen 8/8/8/7p/P7/8/8/8 b - - 0 1],
    [go movetime 5].  After the first search the root (node 0) has one
    child (node 1, visited 3 times), the position after a3-a4.  The second
    position is that position: its hash is the hash of the child's board.
    The second search does not make the child the root: the root is node 0
    again, the root of the first search. *)
Theorem child_position_not_promoted :
  (exists m1,
     AlphaZeroEngine.go MCTS_CONFIG Examples.zobrist Examples.env Examples.marchWorld 2000 5
     = Some (Examples.marchAfter, Some m1)) /\
  root (engine Examples.marchAfter) = Some 0%nat /\
  children (node Examples.marchAfter 0) = [1%nat] /\
  visitCount (node Examples.marchAfter 1) = 3 /\
  hash (boards (AlphaZeroEngine.positionFen Examples.zobrist Examples.marchAfter
                  Examples.marchChildFEN) !!! AlphaZeroEngine.boardRef)
  = hash (boardOf Examples.marchAfter (node Examples.marchAfter 1)) /\
  exists w3 m2,
    AlphaZeroEngine.go MCTS_CONFIG Examples.zobrist Examples.env
      (AlphaZeroEngine.positionFen Examples.zobrist Examples.marchAfter Examples.marchChildFEN)
      2000 5
    = Some (w3, Some m2) /\
    root (engine w3) = Some 0%nat.
Proof.
  destruct child_position_gets_fresh_root as ([m1 Hs1] & F1 & F2 & _).
  assert (board (node Examples.marchAfter 0) = AlphaZeroEngine.boardRef) as F4
    by (vm_compute; reflexivity).
  assert (wf Examples.marchAfter) as F6.
  { destruct (simLoop_spec MCTS_CONFIG Examples.zobrist Examples.env 2500 0
                (addDirichletNoise MCTS_CONFIG Examples.env
                   (prepare MCTS_CONFIG Examples.zobrist Examples.env Examples.marchWorld
                      AlphaZeroEngine.boardRef (Some 5)) 0) 0) as (w4 & os & Hrun & Hwf4 & _).
    - apply wf_search_start, wf_positionFen, wf_create.
    - vm_compute. reflexivity.
    - unfold Examples.marchAfter. rewrite Hrun. exact Hwf4. }
  split; [exists m1; exact Hs1|]. split; [exact F1|]. split; [exact F2|].
  split; [vm_compute; reflexivity|]. split; [vm_compute; reflexivity|].
  clear Hs1 m1. revert F1 F2 F4 F6. generalize Examples.marchAfter. intros w1 F1 F2 F4 F6.
  set (w := AlphaZeroEngine.positionFen Examples.zobrist w1 Examples.marchChildFEN).
  assert (wf w) as Hwf by (by apply wf_positionFen).
  assert (forall a, node w a = node w1 a) as Hn by done.
  assert (root (engine w) = Some 0%nat) as Hr by exact F1.
  destruct Hwf as [Hw Hroot]. destruct (Hroot 0%nat Hr) as [Hlt _].
  destruct (prepare_root MCTS_CONFIG Examples.zobrist Examples.env w
              AlphaZeroEngine.boardRef (Some 5)) as [Hkeep _].
  destruct (Hkeep 0%nat Hr Hlt) as [Hr2 _].
  { unfold boardOf. by rewrite Hn, F4. }
  destruct (prepare_spec MCTS_CONFIG Examples.zobrist Examples.env w
              AlphaZeroEngine.boardRef (Some 5) (conj Hw Hroot))
    as (r' & _ & _ & _ & _ & _ & _ & Hold).
  destruct (Hold 0%nat Hlt) as (_ & _ & more & Hch).
  destruct (search_spec MCTS_CONFIG Examples.zobrist Examples.env w
              AlphaZeroEngine.boardRef (Some 2000) (Some 5) (conj Hw Hroot))
    as (r & Hr' & Hcase).
  rewrite Hr2 in Hr'. injection Hr' as <-.
  destruct Hcase as [[Hnil _]|(_ & w4 & os & w3 & m2 & _ & Hs & _ & Hr3 & _)].
  - rewrite Hch, Hn, F2 in Hnil. discriminate.
  - exists w3, m2. split; [exact Hs|exact Hr3].
Qed.

(** ** The empty root *)

(** A search that allocates its root returns null, before the loop, when
    the position has no move. *)
Lemma search_fresh_root_without_moves cfg zobrist env w (bref : nat)
    (simulations timeLimit : option Z) :
  root (engine w) = None ->
  MoveGenerator.generate (boards w !!! bref) false = [] ->
  search cfg zobrist env w bref simulations timeLimit
  = Some (prepare cfg zobrist env w bref timeLimit, None).
Proof.
  intros Hroot Hgen.
  destruct (prepare_root cfg zobrist env w bref timeLimit) as [_ Hfresh].
  destruct Hfresh as (Hr & _ & _ & _ & _ & Hiff); [by left|].
  unfold search. rewrite Hr. by rewrite (proj2 Hiff Hgen).
Qed.

(** A search on the board object that the previous root points to keeps
    that root, whatever position the object holds by now, and answers with
    a move as soon as the root has children. *)
Lemma search_aliased_root cfg zobrist env w (bref : nat)
    (simulations timeLimit : option Z) (r : nat) :
  wf w ->
  root (engine w) = Some r ->
  board (node w r) = bref ->
  children (node w r) <> [] ->
  exists w' m, search cfg zobrist env w bref simulations timeLimit = Some (w', Some m).
Proof.
  intros Hwf Hr Hb Hne. pose proof Hwf as [_ Hroot].
  destruct (Hroot r Hr) as [Hlt _].
  destruct (prepare_root cfg zobrist env w bref timeLimit) as [Hkeep _].
  destruct (Hkeep r Hr Hlt) as [Hr2 _].
  { unfold boardOf. by rewrite Hb. }
  destruct (prepare_spec cfg zobrist env w bref timeLimit Hwf)
    as (r' & _ & _ & _ & _ & _ & _ & Hold).
  destruct (Hold r Hlt) as (_ & _ & more & Hch).
  destruct (search_spec cfg zobrist env w bref simulations timeLimit Hwf)
    as (r2 & Hr2' & Hcase).
  rewrite Hr2 in Hr2'. injection Hr2' as <-.
  destruct Hcase as [[Hnil _]|(_ & w4 & os & w' & m & _ & Hsearch & _)].
  - rewrite Hch in Hnil. destruct (children (node w r)); [done|discriminate].
  - by exists w', m.
Qed.

(** C7. The session [position fen 8/8/8/p7/8/P7/8/8 w - - 0 1], [go],
    [position fen 8/8/8/8/p7/P7/8/8 w - - 0 1], [go].  The first search
    returns a move.  The second position has no move for White, yet the
    second search does not return null: the root of the first search points
    to the engine's board object, whose hash it therefore always equals, so
    the root is kept with its children and a move is returned. *)
Theorem stale_root_answers_for_position_without_moves :
  exists w1 m1,
    AlphaZeroEngine.go MCTS_CONFIG Examples.zobrist Examples.env Examples.pawnsWorld 2000 1000
    = Some (w1, Some m1) /\
    MoveGenerator.generate
      (boards (AlphaZeroEngine.positionFen Examples.zobrist w1 Examples.blockedFEN)
         !!! AlphaZeroEngine.boardRef) false = [] /\
    exists w3 m2,
      AlphaZeroEngine.go MCTS_CONFIG Examples.zobrist Examples.env
        (AlphaZeroEngine.positionFen Examples.zobrist w1 Examples.blockedFEN) 2000 1000
      = Some (w3, Some m2).
Proof.
  unfold AlphaZeroEngine.go.
  destruct (search_spec MCTS_CONFIG Examples.zobrist Examples.env Examples.pawnsWorld
              AlphaZeroEngine.boardRef (Some 2000) (Some 1000)) as (r & Hr & Hcase).
  { apply wf_positionFen, wf_create. }
  assert (root (engine (prepare MCTS_CONFIG Examples.zobrist Examples.env Examples.pawnsWorld
                          AlphaZeroEngine.boardRef (Some 1000))) = Some 0%nat) as Hr0
    by (vm_compute; reflexivity).
  rewrite Hr0 in Hr. injection Hr as <-.
  destruct Hcase as [[Hnil _]|(_ & w4 & os & w1 & m1 & _ & Hsearch & Hwf1 & Hr1 & _ &
                               [bs Hbs] & Hb1 & Hne1)].
  { exfalso. revert Hnil. vm_compute. discriminate. }
  exists w1, m1. split; [exact Hsearch|]. split.
  - assert (AlphaZeroEngine.boardRef
            < length (boards (prepare MCTS_CONFIG Examples.zobrist Examples.env
                                Examples.pawnsWorld AlphaZeroEngine.boardRef (Some 1000%Z))))%nat
      as Hlen by (vm_compute; lia).
    unfold AlphaZeroEngine.positionFen. cbn [boards].
    rewrite list_lookup_total_insert_eq by (rewrite Hbs, length_app; lia).
    rewrite Hbs, lookup_total_app_l by exact Hlen.
    vm_compute. reflexivity.
  - apply (search_aliased_root MCTS_CONFIG Examples.zobrist Examples.env _
             AlphaZeroEngine.boardRef (Some 2000) (Some 1000) 0).
    + by apply wf_positionFen.
    + exact Hr1.
    + change (board (node w1 0) = AlphaZeroEngine.boardRef). rewrite Hb1.
      vm_compute. reflexivity.
    + exact Hne1.
Qed.

(** ** The budget of a search *)

Lemma simLoop_length cfg zobrist env (remaining : nat) :
  forall (i : Z) (w w' : World) os,
  simLoop cfg zobrist env remaining i w = Some (w', os) -> (length os <= remaining)%nat.
Proof.
  induction remaining as [|remaining IH]; intros i w w' os Hrun.
  { injection Hrun as _ <-. simpl. lia. }
  cbn [simLoop] in Hrun.
  destruct (stopSearch (engine w)); [injection Hrun as _ <-; simpl; lia|].
  destruct (timeIsUp _ _); [injection Hrun as _ <-; simpl; lia|].
  destruct (runSimulation cfg zobrist (tick w)) as [[w1 o]|]; [|discriminate].
  destruct (simLoop cfg zobrist env remaining (i + 1) (report w1 i)) as [[w2 os']|] eqn:Hrec;
    [|discriminate].
  injection Hrun as _ <-. simpl. specialize (IH _ _ _ _ Hrec). lia.
Qed.

(** A search on the position of the blunder test answers with a move,
    whatever its budget. *)
Lemma blunder_search_returns_move (simulations timeLimit : option Z) :
  exists w' m,
    search MCTS_CONFIG Examples.zobrist Examples.env Examples.blunderWorld
      AlphaZeroEngine.boardRef simulations timeLimit = Some (w', Some m).
Proof.
  destruct (search_spec MCTS_CONFIG Examples.zobrist Examples.env Examples.blunderWorld
              AlphaZeroEngine.boardRef simulations timeLimit) as (r & Hr & Hcase).
  { apply wf_positionFen, wf_create. }
  destruct (prepare_root MCTS_CONFIG Examples.zobrist Examples.env Examples.blunderWorld
              AlphaZeroEngine.boardRef timeLimit) as [_ Hfresh].
  destruct Hfresh as (Hr0 & _ & _ & _ & _ & Hiff); [by left|].
  rewrite Hr0 in Hr. injection Hr as <-.
  destruct Hcase as [[Hnil _]|(_ & w4 & os & w' & m & _ & Hsearch & _)].
  { exfalso. apply (proj1 Hiff) in Hnil. revert Hnil. vm_compute. discriminate. }
  exists w', m. exact Hsearch.
Qed.

(** C8 (counterexample).  In the position of the blunder test a [go]
    command that names neither a move time nor a simulation count is not
    rejected: it answers with a move.  Nor is a call of [search] that
    passes neither argument. *)
Lemma go_without_budget_returns_move :
  (exists w' m,
     AlphaZeroEngine.goCommand MCTS_CONFIG Examples.zobrist Examples.env Examples.blunderWorld
       None None = Some (w', Some m)) /\
  (exists w' m,
     search MCTS_CONFIG Examples.zobrist Examples.env Examples.blunderWorld
       AlphaZeroEngine.boardRef None None = Some (w', Some m)).
Proof.
  split.
  - apply (blunder_search_returns_move (Some (Config.simulations MCTS_CONFIG)) (Some 2000)).
  - apply (blunder_search_returns_move None None).
Qed.

(** C8 (as the code has it).  A [go] command that names neither a move
    time nor a simulation count is not rejected.  The search runs with the
    defaults of the command: a deadline 2000 ms after its start and the
    configured simulation count ([endgameSimulations] when the position has
    fewer than [endgamePieceThreshold] pieces).  The loop runs at most that
    many simulations, and the command answers with the move that
    [getBestMove] selects at the root after the loop; it answers null only
    when the root has no children, before the loop. *)
Theorem go_without_budget cfg zobrist env w :
  wf w ->
  let count :=
    if countPieces (boards w !!! AlphaZeroEngine.boardRef) <? Config.endgamePieceThreshold cfg
    then Config.endgameSimulations cfg else Config.simulations cfg in
  let w2 := prepare cfg zobrist env w AlphaZeroEngine.boardRef (Some 2000) in
  exists r,
    root (engine w2) = Some r /\
    stopTime (engine w2) = Some (now env (ticks w) + 2000) /\
    ((children (node w2 r) = [] /\
      AlphaZeroEngine.goCommand cfg zobrist env w None None = Some (w2, None)) \/
     (children (node w2 r) <> [] /\
      exists w4 os m,
        simLoop cfg zobrist env (Z.to_nat count) 0 (addDirichletNoise cfg env w2 r)
        = Some (w4, os) /\
        (length os <= Z.to_nat count)%nat /\
        fst (getBestMove env w4 (node w4 r) (Config.temperature cfg)) = Some m /\
        AlphaZeroEngine.goCommand cfg zobrist env w None None
        = Some (snd (getBestMove env w4 (node w4 r) (Config.temperature cfg)), Some m))).
Proof.
  intros Hwf count w2.
  destruct (prepare_spec cfg zobrist env w AlphaZeroEngine.boardRef (Some 2000) Hwf)
    as (r0 & Hr0 & _ & _ & _ & _ & Hst & _).
  destruct (search_spec cfg zobrist env w AlphaZeroEngine.boardRef
              (Some (Config.simulations cfg)) (Some 2000) Hwf) as (r & Hr & Hcase).
  fold w2 in Hr0, Hst, Hr, Hcase.
  exists r. split; [exact Hr|]. split; [exact Hst|].
  assert (iterations (effectiveSimulations cfg w AlphaZeroEngine.boardRef
                        (Some (Config.simulations cfg))) = Z.to_nat count) as Hcount.
  { unfold effectiveSimulations, count.
    by destruct (countPieces _ <? _). }
  unfold AlphaZeroEngine.goCommand, AlphaZeroEngine.go. cbn [default].
  destruct Hcase as [Hnil|(Hne & w4 & os & w' & m & Hloop & Hsearch & _)]; [by left|].
  right. split; [exact Hne|]. exists w4, os, m.
  rewrite Hcount in Hloop. split; [exact Hloop|].
  split; [by eapply simLoop_length|].
  assert (Some (snd (getBestMove env w4 (node w4 r) (Config.temperature cfg)),
                fst (getBestMove env w4 (node w4 r) (Config.temperature cfg)))
          = Some (w', Some m)) as Heq.
  { rewrite <- Hsearch. unfold search. fold w2. rewrite Hr.
    destruct (children (node w2 r)); [done|]. by rewrite Hcount, Hloop. }
  injection Heq as Hw Hm. split; [exact Hm|]. by rewrite Hsearch, Hw.
Qed.

Lemma go_without_budget_witness :
  exists r,
    root (engine (prepare MCTS_CONFIG Examples.zobrist Examples.env Examples.blunderWorld
                    AlphaZeroEngine.boardRef (Some 2000))) = Some r.
Proof.
  destruct (go_without_budget MCTS_CONFIG Examples.zobrist Examples.env Examples.blunderWorld)
    as (r & Hr & _).
  - apply wf_positionFen, wf_create.
  - exists r. exact Hr.
Defined.

(** ** Counting the visits of a search *)

Lemma visitCount_counts_simulations_witness :
  exists w' os,
    simLoop MCTS_CONFIG Examples.zobrist Examples.env 2 0 Examples.pawnsSearch = Some (w', os) /\
    (forall a, visitCount (node w' a) = passes a os).
Proof.
  destruct (visitCount_counts_simulations MCTS_CONFIG Examples.zobrist Examples.env 2 0
              Examples.pawnsSearch 0)
    as (w' & os & Hrun & Hcount & _ & _).
  - apply wf_search_start, wf_positionFen, wf_create.
  - vm_compute. reflexivity.
  - exists w', os. split; [exact Hrun|].
    intros a. rewrite Hcount.
    assert (visitCount (node Examples.pawnsSearch a) = 0) as ->; [|lia].
    destruct a as [|[|a]]; vm_compute; reflexivity.
Defined.

(** C9 (counterexample).  The pawn-march position is searched; the root
    (node 0) has one child (node 1).  The selection path of the first and
    of the second simulation is root, node 1, and no other.  The second
    simulation expands node 1 and goes on to its first child, node 2, from
    which it backpropagates: node 2 ends with visit count 1 although the
    selection path of no simulation passed through it. *)
Lemma first_child_counted_without_selection :
  exists w1 w2 o1 o2,
    simLoop MCTS_CONFIG Examples.zobrist Examples.env 1 0 Examples.marchSearch
    = Some (w1, [Some o1]) /\
    simLoop MCTS_CONFIG Examples.zobrist Examples.env 2 0 Examples.marchSearch
    = Some (w2, [Some o1; Some o2]) /\
    (forall p, selectionPath MCTS_CONFIG Examples.marchSearch 0 p <-> p = [0; 1]%nat) /\
    (forall p, selectionPath MCTS_CONFIG w1 0 p <-> p = [0; 1]%nat) /\
    path o1 = [0; 1]%nat /\
    path o2 = [0; 1; 2]%nat /\
    visitCount (node Examples.marchSearch 2) = 0 /\
    visitCount (node w2 2) = 1.
Proof.
  eexists _, _, _, _. split; [run_engine; reflexivity|].
  split; [run_engine; reflexivity|].
  split.
  { intros p. split; [|intros ->].
    - intros Hp. eapply selectionPath_det; [exact Hp|].
      eapply selection_step; [vm_compute; reflexivity|run_engine; reflexivity|].
      apply selection_stop. vm_compute. reflexivity.
    - eapply selection_step; [vm_compute; reflexivity|run_engine; reflexivity|].
      apply selection_stop. vm_compute. reflexivity. }
  split.
  { intros p. split; [|intros ->].
    - intros Hp. eapply selectionPath_det; [exact Hp|].
      eapply selection_step; [vm_compute; reflexivity|run_engine; reflexivity|].
      apply selection_stop. vm_compute. reflexivity.
    - eapply selection_step; [vm_compute; reflexivity|run_engine; reflexivity|].
      apply selection_stop. vm_compute. reflexivity. }
  split; [reflexivity|]. split; [reflexivity|].
  split; vm_compute; reflexivity.
Qed.

(** * Further properties of the engine *)

(** ** The policy *)

Lemma sumR_map_div (l : list R) (t : R) :
  PolicyNetwork.sumR (map (fun s => (s / t)%R) l) = (PolicyNetwork.sumR l / t)%R.
Proof.
  induction l as [|x l IH]; simpl.
  - unfold PolicyNetwork.sumR. simpl. unfold Rdiv. lra.
  - rewrite !sumR_cons, IH. unfold Rdiv. lra.
Qed.

Lemma sumR_pos (l : list R) :
  (forall x, x ∈ l -> (0 < x)%R) ->
  (0 <= PolicyNetwork.sumR l)%R /\ forall x, x ∈ l -> (x <= PolicyNetwork.sumR l)%R.
Proof.
  induction l as [|y l IH]; intros Hpos.
  - split; [unfold PolicyNetwork.sumR; simpl; lra|].
    intros x Hx. by apply elem_of_nil in Hx.
  - destruct IH as [H0 Hle].
    { intros x Hx. apply Hpos. by right. }
    assert (0 < y)%R as Hy by (apply Hpos; by left).
    rewrite sumR_cons. split; [lra|].
    intros x Hx. apply elem_of_cons in Hx as [->|Hx]; [lra|].
    specialize (Hle x Hx). lra.
Qed.

Lemma getMovePolicy_facts cfg zobrist (board : Board) (moves : list Move) :
  moves <> [] ->
  let priors := PolicyNetwork.getMovePolicy cfg zobrist board moves in
  length priors = length moves /\
  (forall p, p ∈ priors -> (0 < p <= 1)%R) /\
  PolicyNetwork.sumR priors = 1%R.
Proof.
  intros Hne priors. unfold priors, PolicyNetwork.getMovePolicy.
  set (scores := map (fun move => exp (PolicyNetwork.moveScore cfg zobrist board move)) moves).
  assert (forall x, x ∈ scores -> (0 < x)%R) as Hpos.
  { intros x Hx. apply list_elem_of_fmap in Hx as (m & -> & _). apply exp_pos. }
  destruct (sumR_pos scores Hpos) as [H0 Hle].
  assert (0 < PolicyNetwork.sumR scores)%R as Htot.
  { destruct moves as [|m ms]; [done|].
    assert (exp (PolicyNetwork.moveScore cfg zobrist board m) ∈ scores) as Hin
      by (unfold scores; simpl; by left).
    specialize (Hpos _ Hin). specialize (Hle _ Hin). lra. }
  split; [unfold scores; by rewrite !length_map|]. split.
  - intros p Hp. apply list_elem_of_fmap in Hp as (s & -> & Hs).
    specialize (Hpos _ Hs). specialize (Hle _ Hs). split.
    + by apply Rdiv_lt_0_compat.
    + apply (Rmult_le_reg_r (PolicyNetwork.sumR scores)); [done|].
      unfold Rdiv. rewrite Rmult_assoc, Rinv_l by lra. lra.
  - rewrite sumR_map_div. unfold Rdiv. apply Rinv_r. lra.
Qed.

(** X1. The priors that [getMovePolicy] gives to a non-empty list of moves
    are a probability distribution: one prior per move, each in (0, 1], and
    their sum is 1. *)
Theorem getMovePolicy_distribution cfg zobrist (board : Board) (moves : list Move) :
  moves <> [] ->
  let priors := PolicyNetwork.getMovePolicy cfg zobrist board moves in
  length priors = length moves /\
  (forall p, p ∈ priors -> (0 < p <= 1)%R) /\
  PolicyNetwork.sumR priors = 1%R.
Proof. apply getMovePolicy_facts. Qed.

Lemma getMovePolicy_distribution_witness :
  PolicyNetwork.sumR
    (PolicyNetwork.getMovePolicy MCTS_CONFIG Examples.zobrist Examples.blunderBoard
       [Examples.Qxf7]) = 1%R.
Proof.
  apply (getMovePolicy_distribution MCTS_CONFIG Examples.zobrist Examples.blunderBoard
           [Examples.Qxf7]).
  discriminate.
Defined.

(** ** Static exchange evaluation: bounds *)

Lemma getPieceValue_nonneg (type : Z) : 0 <= SEE.getPieceValue type.
Proof.
  unfold SEE.getPieceValue. destruct (type <? 0); [lia|].
  destruct (Z.to_nat type) as [|[|[|[|[|[|[|n]]]]]]]; simpl; lia.
Qed.

(** X2. [SEE.evaluate] is 0 for a move to an empty square.  For a capture
    it is the value of the captured piece, minus the value of the capturing
    piece exactly when, after the move, the destination is attacked by a
    piece of the side that moved ([-tempBoard.turn] is the mover): the
    pieces of the other side are not consulted.  Hence, under a threshold
    that is not positive, a move to an empty square and a capture of a piece
    worth at least as much as the capturing piece are always classified
    safe. *)
Theorem SEE_evaluate_range cfg zobrist (b : Board) (m : Move) :
  let victim := SEE.getPieceValue (getPieceType (at_sq b (to m))) in
  let attacker := SEE.getPieceValue (getPieceType (at_sq b (from m))) in
  let see := SEE.evaluate zobrist b m in
  (at_sq b (to m) = PIECES.EMPTY -> see = 0) /\
  (at_sq b (to m) <> PIECES.EMPTY ->
   see = if isSquareAttacked (makeMove zobrist b m) (to m) (turn b)
         then victim - attacker else victim) /\
  (Config.seeThreshold cfg <= 0 ->
   at_sq b (to m) = PIECES.EMPTY \/ attacker <= victim ->
   SEE.isCaptureSafe cfg zobrist b m = true).
Proof.
  intros victim attacker see.
  assert (0 <= victim) as Hv by apply getPieceValue_nonneg.
  assert (0 <= attacker) as Ha by apply getPieceValue_nonneg.
  unfold see, SEE.isCaptureSafe. rewrite SEE_evaluate_unfold.
  fold victim attacker.
  destruct (Z.eqb_spec (at_sq b (to m)) PIECES.EMPTY) as [Heq|Hne].
  - split; [done|]. split; [done|]. intros Ht _. apply Z.geb_le. lia.
  - split; [done|]. split.
    + done.
    + intros Ht [Hc|Hc]; [done|]. apply Z.geb_le.
      destruct (isSquareAttacked _ _ _); lia.
Qed.

(** ** Value normalisation *)

Lemma div_lt_cross (x y d e : R) :
  (0 < d)%R -> (0 < e)%R -> (x * e < y * d)%R -> (x / d < y / e)%R.
Proof.
  intros Hd He H. apply (Rmult_lt_reg_r (d * e)); [by apply Rmult_lt_0_compat|].
  replace (x / d * (d * e))%R with (x * e)%R by (field; lra).
  replace (y / e * (d * e))%R with (y * d)%R by (field; lra).
  exact H.
Qed.

Lemma tanh_increasing (x y : R) : (x < y)%R -> (tanh x < tanh y)%R.
Proof.
  intros Hxy. unfold tanh, sinh, cosh.
  pose proof (exp_pos x) as Ha. pose proof (exp_pos y) as Hb.
  pose proof (exp_pos (- x)) as Hs. pose proof (exp_pos (- y)) as Ht.
  pose proof (exp_increasing x y Hxy) as Hab.
  assert (exp (- y) < exp (- x))%R as Hts by (apply exp_increasing; lra).
  apply div_lt_cross; [lra|lra|]. nra.
Qed.

Lemma tanh_0 : tanh 0 = 0%R.
Proof. unfold tanh, sinh. rewrite Ropp_0, exp_0. unfold Rdiv. lra. Qed.

(** X3. The value that [evaluatePosition] hands to the search lies in
    [-1, 1] for every board, and the normalisation keeps the order and the
    sign of the centipawn scores: a position with a score at least as large
    gets a value at least as large, a score of 0 gives the value 0, a
    positive score a positive value and a negative score a negative value.
    (The bounds and the order are not strict: [Math.tanh] returns exactly 1
    or -1 for a large score.) *)
Theorem evaluatePosition_normalised cfg (b b' : Board) :
  (-1 <= evaluatePosition cfg b <= 1)%R /\
  (Evaluator.evaluate cfg b <= Evaluator.evaluate cfg b' ->
   (evaluatePosition cfg b <= evaluatePosition cfg b')%R) /\
  (Evaluator.evaluate cfg b = 0 -> evaluatePosition cfg b = 0%R) /\
  (0 < Evaluator.evaluate cfg b -> (0 < evaluatePosition cfg b)%R) /\
  (Evaluator.evaluate cfg b < 0 -> (evaluatePosition cfg b < 0)%R).
Proof.
  unfold evaluatePosition, Evaluator.normalizeValue.
  split; [pose proof (tanh_bounds (IZR (Evaluator.evaluate cfg b) / 1000)); lra|].
  assert (forall x y : Z, x < y -> (tanh (IZR x / 1000) < tanh (IZR y / 1000))%R) as Hmono.
  { intros x y Hxy. apply tanh_increasing. apply IZR_lt in Hxy. lra. }
  assert (tanh (0 / 1000) = 0%R) as H0.
  { replace (0 / 1000)%R with 0%R by lra. apply tanh_0. }
  split.
  { intros Hle. destruct (Z.eq_dec (Evaluator.evaluate cfg b) (Evaluator.evaluate cfg b'))
      as [->|Hne]; [lra|].
    apply Rlt_le, Hmono. lia. }
  split; [intros ->; exact H0|]. split.
  - intros Hpos. rewrite <- H0. by apply Hmono.
  - intros Hneg. rewrite <- H0. by apply Hmono.
Qed.

(** ** Making a move *)

Lemma lookup_set_sq_ne (sqs : list Z) (q p s : Z) :
  0 <= s -> s <> q -> set_sq sqs q p !! Z.to_nat s = sqs !! Z.to_nat s.
Proof.
  intros Hs Hne. unfold set_sq. destruct (Z.ltb_spec q 0); [done|].
  apply list_lookup_insert_ne. lia.
Qed.

Lemma lookup_set_sq_eq (sqs : list Z) (q p : Z) :
  0 <= q -> (Z.to_nat q < length sqs)%nat -> set_sq sqs q p !! Z.to_nat q = Some p.
Proof.
  intros Hq Hlen. unfold set_sq. destruct (Z.ltb_spec q 0); [lia|].
  by apply list_lookup_insert_eq.
Qed.

Lemma length_set_sq (sqs : list Z) (q p : Z) : length (set_sq sqs q p) = length sqs.
Proof. unfold set_sq. destruct (q <? 0); [done|]. apply length_insert. Qed.

(** The en-passant test of [makeMove] compares [move.to] with a field that
    the statement before has reset: it holds for no square of the board. *)
Lemma makeMove_no_en_passant_capture (isPawn : bool) (f t : Z) :
  0 <= t ->
  isPawn && (t =? (if isPawn && (Z.abs (f - t) =? 16) then (f + t) / 2 else -1)) = false.
Proof.
  intros Ht. destruct isPawn; [|done]. simpl.
  destruct (Z.eqb_spec (Z.abs (f - t)) 16) as [Habs|_]; apply Z.eqb_neq.
  - intros Heq. assert (2 * t <= f + t < 2 * t + 2) as Hb.
    { rewrite Heq at 1 3. pose proof (Z.mod_pos_bound (f + t) 2).
      pose proof (Z.div_mod (f + t) 2). lia. }
    lia.
  - lia.
Qed.

Lemma at_sq_unfold (b : Board) (s : Z) :
  at_sq b s = if s <? 0 then -1 else default (-1) (squares b !! Z.to_nat s).
Proof. reflexivity. Qed.

Lemma makeMove_squares zobrist (b : Board) (m : Move) :
  castle m = None -> 0 <= to m ->
  squares (makeMove zobrist b m)
  = set_sq (set_sq (squares b) (from m) PIECES.EMPTY) (to m)
      match promotion m with
      | Some p => if p =? 0 then at_sq b (from m) else p
      | None => at_sq b (from m)
      end.
Proof.
  intros Hc Ht. unfold makeMove. cbn [squares]. rewrite Hc.
  by rewrite makeMove_no_en_passant_capture.
Qed.

Lemma makeMove_two_squares zobrist (b : Board) (m : Move) :
  length (squares b) = 64%nat ->
  0 <= from m < 64 -> 0 <= to m < 64 -> from m <> to m ->
  castle m = None ->
  let b' := makeMove zobrist b m in
  length (squares b') = 64%nat /\
  at_sq b' (from m) = PIECES.EMPTY /\
  at_sq b' (to m) = match promotion m with
                    | Some p => if p =? 0 then at_sq b (from m) else p
                    | None => at_sq b (from m)
                    end /\
  (forall s, s <> from m -> s <> to m -> at_sq b' s = at_sq b s).
Proof.
  intros Hlen Hf Ht Hne Hc b'.
  pose proof (makeMove_squares zobrist b m Hc (proj1 Ht)) as Hsq. fold b' in Hsq.
  rewrite !(at_sq_unfold b'), Hsq.
  split; [by rewrite !length_set_sq|].
  split; [|split].
  - destruct (Z.ltb_spec (from m) 0); [lia|].
    rewrite lookup_set_sq_ne by lia.
    rewrite lookup_set_sq_eq by lia. done.
  - destruct (Z.ltb_spec (to m) 0); [lia|].
    rewrite lookup_set_sq_eq by (rewrite ?length_set_sq; lia). done.
  - intros s Hsf Hst. rewrite (at_sq_unfold b'), (at_sq_unfold b), Hsq.
    destruct (Z.ltb_spec s 0); [done|].
    by rewrite !lookup_set_sq_ne by lia.
Qed.


(** X4. A move without castle flag between two different squares of a
    64-square board changes exactly two squares: the origin becomes empty
    and the destination receives the moved piece (or the promotion piece).
    Every other square is left as it was; in particular the pawn taken
    en passant stays on the board. *)
Theorem makeMove_changes_two_squares zobrist (b : Board) (m : Move) :
  length (squares b) = 64%nat ->
  0 <= from m < 64 -> 0 <= to m < 64 -> from m <> to m ->
  castle m = None ->
  let b' := makeMove zobrist b m in
  length (squares b') = 64%nat /\
  at_sq b' (from m) = PIECES.EMPTY /\
  at_sq b' (to m) = match promotion m with
                    | Some p => if p =? 0 then at_sq b (from m) else p
                    | None => at_sq b (from m)
                    end /\
  (forall s, s <> from m -> s <> to m -> at_sq b' s = at_sq b s).
Proof. apply makeMove_two_squares. Qed.

Lemma makeMove_changes_two_squares_witness :
  at_sq (makeMove Examples.zobrist Examples.blunderBoard Examples.Qxf7) 13 = PIECES.W_QUEEN.
Proof.
  destruct (makeMove_changes_two_squares Examples.zobrist Examples.blunderBoard Examples.Qxf7)
    as (_ & _ & Hto & _).
  - vm_compute. reflexivity.
  - simpl. lia.
  - simpl. lia.
  - simpl. lia.
  - reflexivity.
  - exact Hto.
Defined.

(** X5. [makeMove] hands the turn to the other side, counts the half move,
    and never gives a castling right back: a right that holds after the move
    held before it.  A king move clears both rights of the side that
    moved. *)
Theorem makeMove_castling_rights zobrist (b : Board) (m : Move) :
  let b' := makeMove zobrist b m in
  let c := castling b in
  let c' := castling b' in
  turn b' = - turn b /\
  halfmove b' = halfmove b + 1 /\
  (wk c' = true -> wk c = true) /\ (wq c' = true -> wq c = true) /\
  (bk c' = true -> bk c = true) /\ (bq c' = true -> bq c = true) /\
  (getPieceType (at_sq b (from m)) = 6 ->
   if turn b =? 1 then wk c' = false /\ wq c' = false
   else bk c' = false /\ bq c' = false).
Proof.
  intros b' c c'. unfold c', b', c, makeMove. cbn [turn halfmove castling].
  split; [lia|]. split; [done|].
  destruct (getPieceType (at_sq b (from m)) =? 6) eqn:Hk;
    destruct (turn b =? 1);
    destruct ((from m =? 0) || (to m =? 0));
    destruct ((from m =? 7) || (to m =? 7));
    destruct ((from m =? 56) || (to m =? 56));
    destruct ((from m =? 63) || (to m =? 63));
    cbn [wk wq bk bq]; split_and!; try done; try (intros H6; apply Z.eqb_eq in H6; congruence).
Qed.

(** ** The move generator *)

Ltac break_in :=
  repeat match goal with
  | H : _ ∈ [] |- _ => by apply elem_of_nil in H
  | H : _ ∈ _ ++ _ |- _ => apply elem_of_app in H as [H|H]
  | H : _ ∈ _ :: _ |- _ => apply elem_of_cons in H as [H|H]
  | H : _ ∈ map _ _ |- _ => apply list_elem_of_fmap in H as (? & ? & H)
  | H : _ ∈ (if ?c then _ else _) |- _ => destruct c eqn:?
  end.

Ltac bools :=
  repeat match goal with
  | H : _ && _ = true |- _ => apply andb_true_iff in H as [? ?]
  | H : _ || _ = false |- _ => apply orb_false_iff in H as [? ?]
  | H : negb _ = false |- _ => apply negb_false_iff in H
  | H : negb _ = true |- _ => apply negb_true_iff in H
  | H : (_ >=? _) = true |- _ => apply Z.geb_le in H
  | H : (_ >? _) = false |- _ => rewrite Z.gtb_ltb in H
  | H : (_ >=? _) = false |- _ => rewrite Z.geb_leb in H; apply Z.leb_gt in H
  | H : (_ <? _) = true |- _ => apply Z.ltb_lt in H
  | H : (_ <? _) = false |- _ => apply Z.ltb_ge in H
  | H : (_ =? _) = true |- _ => apply Z.eqb_eq in H
  end.

Lemma elem_of_allSquares (sq : Z) : sq ∈ MoveGenerator.allSquares <-> 0 <= sq < 64.
Proof.
  unfold MoveGenerator.allSquares. rewrite list_elem_of_fmap. split.
  - intros (n & -> & Hn). apply elem_of_seq in Hn. lia.
  - intros H. exists (Z.to_nat sq). split; [lia|]. apply elem_of_seq. lia.
Qed.

Lemma target_cases (board : Board) (t : Z) (capturesOnly : bool) :
  negb capturesOnly && (at_sq board t =? PIECES.EMPTY) = true \/
  isEnemyPiece board (at_sq board t) = true ->
  movesTo board t.
Proof.
  unfold movesTo. intros [H|H]; bools; auto.
Qed.

Lemma generatePawnMoves_shape (board : Board) (sq : Z) (capturesOnly : bool) (m : Move) :
  0 <= sq < 64 ->
  m ∈ MoveGenerator.generatePawnMoves board sq capturesOnly ->
  from m = sq /\ 0 <= to m < 64 /\ movesTo board (to m) /\ castle m = None /\
  (forall p, promotion m = Some p -> p ∈ MoveGenerator.promos board).
Proof.
  intros Hsq Hin. unfold MoveGenerator.generatePawnMoves, MoveGenerator.mv, movesTo in *.
  break_in; subst; cbn [from to castle promotion]; bools;
    (split; [done|]); (split; [try lia|]);
    try (split; [auto|]; split; [done|]; intros p Hp; by simplify_eq).
  all: try (destruct (turn board =? 1); Z.div_mod_to_equations; lia).
  all: (split; [destruct (isEnemyPiece board _) eqn:He; [auto|]; simpl in *; bools; auto|]).
  all: split; [done|]; intros p Hp; by simplify_eq.
Qed.

Lemma elem_of_flat_map {A B} (f : A -> list B) (l : list A) (y : B) :
  y ∈ flat_map f l <-> exists x, x ∈ l /\ y ∈ f x.
Proof.
  induction l as [|a l IH]; simpl.
  - split; [intros H; by apply elem_of_nil in H|].
    intros (x & Hx & _). by apply elem_of_nil in Hx.
  - rewrite elem_of_app, IH. split.
    + intros [H|(x & Hx & Hy)]; [exists a; split; [by left|done]|].
      exists x. split; [by right|done].
    + intros (x & Hx & Hy). apply elem_of_cons in Hx as [->|Hx]; [by left|].
      right. by exists x.
Qed.

Lemma stepMoves_shape (board : Board) (sq : Z) (offsets : list Z) (reach : Z)
    (capturesOnly : bool) (m : Move) :
  m ∈ MoveGenerator.stepMoves board sq offsets reach capturesOnly ->
  from m = sq /\ 0 <= to m < 64 /\ movesTo board (to m) /\ castle m = None /\
  promotion m = None.
Proof.
  unfold MoveGenerator.stepMoves, MoveGenerator.mv. rewrite elem_of_flat_map.
  intros (offset & _ & Hin).
  unfold movesTo.
  break_in; subst; cbn [from to castle promotion]; bools;
    split_and!; try done; try lia; auto.
Qed.

Lemma slide_shape (board : Board) (sq dr df : Z) (capturesOnly : bool) (m : Move)
    (fuel : nat) :
  forall r f,
  m ∈ MoveGenerator.slide board sq dr df capturesOnly fuel r f ->
  from m = sq /\ 0 <= to m < 64 /\ movesTo board (to m) /\ castle m = None /\
  promotion m = None.
Proof.
  induction fuel as [|fuel IH]; intros r f Hin; simpl in Hin; [by apply elem_of_nil in Hin|].
  unfold MoveGenerator.mv, movesTo in *.
  break_in; subst; cbn [from to castle promotion]; bools; eauto;
    split_and!; try done; try lia; auto.
Qed.

Lemma generateSlidingMoves_shape (board : Board) (sq : Z) (dirs : list (Z * Z))
    (capturesOnly : bool) (m : Move) :
  m ∈ MoveGenerator.generateSlidingMoves board sq dirs capturesOnly ->
  from m = sq /\ 0 <= to m < 64 /\ movesTo board (to m) /\ castle m = None /\
  promotion m = None.
Proof.
  unfold MoveGenerator.generateSlidingMoves. rewrite elem_of_flat_map.
  intros (dir & _ & Hin). by eapply slide_shape.
Qed.

Lemma generateKingMoves_shape (board : Board) (sq : Z) (capturesOnly : bool) (m : Move) :
  m ∈ MoveGenerator.generateKingMoves board sq capturesOnly ->
  from m = sq /\ 0 <= to m < 64 /\ movesTo board (to m) /\ promotion m = None.
Proof.
  unfold MoveGenerator.generateKingMoves. intros Hin.
  apply elem_of_app in Hin as [Hin|Hin].
  { apply stepMoves_shape in Hin. tauto. }
  unfold movesTo.
  break_in; subst; cbn [from to castle promotion]; bools;
    split_and!; try done; try lia; auto.
Qed.

(** X6. Every move that [generate] returns starts on a square of the board
    that holds a piece of the side to move and ends on a square of the board
    that is empty, holds a piece of the other side, or is the en-passant
    square.  Only pawn moves carry a promotion, which is a piece of the
    mover's colour, and only king moves carry a castle flag. *)
Theorem generate_moves_shape (board : Board) (capturesOnly : bool) (m : Move) :
  m ∈ MoveGenerator.generate board capturesOnly ->
  0 <= from m < 64 /\ 0 <= to m < 64 /\
  isOwnPiece board (at_sq board (from m)) = true /\
  (at_sq board (to m) = PIECES.EMPTY \/
   isEnemyPiece board (at_sq board (to m)) = true \/
   to m = enPassant board) /\
  (forall p, promotion m = Some p ->
     getPieceType (at_sq board (from m)) = 1 /\ p ∈ MoveGenerator.promos board) /\
  (castle m <> None -> getPieceType (at_sq board (from m)) = 6).
Proof.
  unfold MoveGenerator.generate. rewrite elem_of_flat_map.
  intros (sq & Hsq%elem_of_allSquares & Hin).
  destruct (isOwnPiece board (at_sq board sq)) eqn:Hown; simpl in Hin;
    [|by apply elem_of_nil in Hin].
  assert (from m = sq /\ 0 <= to m < 64 /\ movesTo board (to m) /\
          castle m = None /\ promotion m = None ->
          0 <= from m < 64 /\ 0 <= to m < 64 /\
          isOwnPiece board (at_sq board (from m)) = true /\
          movesTo board (to m) /\
          (forall p, promotion m = Some p ->
             getPieceType (at_sq board (from m)) = 1 /\ p ∈ MoveGenerator.promos board) /\
          (castle m <> None -> getPieceType (at_sq board (from m)) = 6)) as Hplain.
  { intros (-> & Ht & Hto & Hc & Hp). rewrite Hc, Hp. split_and!; try done; lia. }
  destruct (Z.eqb_spec (getPieceType (at_sq board sq)) 1) as [H1|_].
  { apply generatePawnMoves_shape in Hin as (<- & Ht & Hto & Hc & Hp); [|done].
    rewrite Hc. split_and!; try done; try lia. intros p Hpm. split; [done|by apply Hp]. }
  destruct (Z.eqb_spec (getPieceType (at_sq board sq)) 2) as [H2|_].
  { apply Hplain. by apply stepMoves_shape in Hin. }
  destruct (Z.eqb_spec (getPieceType (at_sq board sq)) 3) as [H3|_].
  { apply Hplain. by apply generateSlidingMoves_shape in Hin. }
  destruct (Z.eqb_spec (getPieceType (at_sq board sq)) 4) as [H4|_].
  { apply Hplain. by apply generateSlidingMoves_shape in Hin. }
  destruct (Z.eqb_spec (getPieceType (at_sq board sq)) 5) as [H5|_].
  { apply Hplain. by apply generateSlidingMoves_shape in Hin. }
  destruct (Z.eqb_spec (getPieceType (at_sq board sq)) 6) as [H6|_];
    [|by apply elem_of_nil in Hin].
  apply generateKingMoves_shape in Hin as (<- & Ht & Hto & Hp).
  rewrite Hp. split_and!; try done; lia.
Qed.

Lemma generate_moves_shape_witness :
  isOwnPiece Examples.blunderBoard (at_sq Examples.blunderBoard (from Examples.Qxf7)) = true.
Proof.
  destruct (generate_moves_shape Examples.blunderBoard false Examples.Qxf7) as (_ & _ & H & _).
  - apply list_elem_of_In. vm_compute. repeat first [left; reflexivity | right].
  - exact H.
Defined.

(** *** Captures only *)

Lemma stepMoves_captures (board : Board) (sq : Z) (offsets : list Z) (reach : Z) (m : Move) :
  m ∈ MoveGenerator.stepMoves board sq offsets reach true ->
  m ∈ MoveGenerator.stepMoves board sq offsets reach false /\
  isEnemyPiece board (at_sq board (to m)) = true.
Proof.
  unfold MoveGenerator.stepMoves. rewrite !elem_of_flat_map.
  intros (offset & Hoff & Hin). simpl in Hin.
  break_in; subst; cbn [to].
  split; [|done]. exists offset. split; [done|]. simpl.
  repeat match goal with H : _ = false |- _ => rewrite H end.
  destruct (_ =? _); [by left|]. match goal with H : isEnemyPiece _ _ = true |- _ => rewrite H end.
  by left.
Qed.

Lemma slide_captures (board : Board) (sq dr df : Z) (m : Move) (fuel : nat) :
  forall r f,
  m ∈ MoveGenerator.slide board sq dr df true fuel r f ->
  m ∈ MoveGenerator.slide board sq dr df false fuel r f /\
  isEnemyPiece board (at_sq board (to m)) = true.
Proof.
  induction fuel as [|fuel IH]; intros r f Hin; simpl in *; [by apply elem_of_nil in Hin|].
  destruct (_ || _); [by apply elem_of_nil in Hin|].
  destruct (at_sq board _ =? PIECES.EMPTY) eqn:He.
  - simpl in Hin. destruct (IH _ _ Hin) as [H1 H2]. split; [by right|done].
  - destruct (isEnemyPiece board (at_sq board ((r + dr) * 8 + (f + df)))) eqn:Hen;
      [|by apply elem_of_nil in Hin].
    apply list_elem_of_singleton in Hin as ->. split; [by left|done].
Qed.

Lemma generateSlidingMoves_captures (board : Board) (sq : Z) (dirs : list (Z * Z)) (m : Move) :
  m ∈ MoveGenerator.generateSlidingMoves board sq dirs true ->
  m ∈ MoveGenerator.generateSlidingMoves board sq dirs false /\
  isEnemyPiece board (at_sq board (to m)) = true.
Proof.
  unfold MoveGenerator.generateSlidingMoves. rewrite !elem_of_flat_map.
  intros (dir & Hdir & Hin). apply slide_captures in Hin as [H1 H2].
  split; [by exists dir|done].
Qed.

Lemma generatePawnMoves_captures (board : Board) (sq : Z) (m : Move) :
  m ∈ MoveGenerator.generatePawnMoves board sq true ->
  m ∈ MoveGenerator.generatePawnMoves board sq false /\
  (isEnemyPiece board (at_sq board (to m)) = true \/ to m = enPassant board).
Proof.
  unfold MoveGenerator.generatePawnMoves. cbn [app].
  intros Hin. split; [apply elem_of_app; by right|].
  unfold MoveGenerator.mv in *.
  break_in; subst; cbn [to]; bools;
    (destruct (isEnemyPiece board _) eqn:He; [by left|]; simpl in *; bools; by right).
Qed.

(** X7. With [capturesOnly] the generator returns a selection of the moves
    it returns without it, and each of them ends on a piece of the other
    side or on the en-passant square: no quiet move, and no castling. *)
Theorem generate_captures_only (board : Board) (m : Move) :
  m ∈ MoveGenerator.generate board true ->
  m ∈ MoveGenerator.generate board false /\
  (isEnemyPiece board (at_sq board (to m)) = true \/ to m = enPassant board) /\
  castle m = None.
Proof.
  intros Hin.
  assert (castle m = None) as Hc.
  { destruct (castle m) eqn:Hcm; [|done]. exfalso.
    unfold MoveGenerator.generate in Hin. rewrite elem_of_flat_map in Hin.
    destruct Hin as (sq & Hsq%elem_of_allSquares & Hin).
    unfold MoveGenerator.generateBishopMoves, MoveGenerator.generateRookMoves,
      MoveGenerator.generateQueenMoves, MoveGenerator.generateKnightMoves,
      MoveGenerator.generateKingMoves in Hin.
    rewrite app_nil_r in Hin.
    break_in;
      first [apply generatePawnMoves_shape in Hin as (_ & _ & _ & Hn & _); [congruence|done]
            |apply stepMoves_shape in Hin as (_ & _ & _ & Hn & _); congruence
            |apply generateSlidingMoves_shape in Hin as (_ & _ & _ & Hn & _); congruence]. }
  split; [|split; [|done]]; revert Hin; unfold MoveGenerator.generate;
    rewrite !elem_of_flat_map; intros (sq & Hsq & Hin).
  - exists sq. split; [done|].
    unfold MoveGenerator.generateBishopMoves, MoveGenerator.generateRookMoves,
      MoveGenerator.generateQueenMoves, MoveGenerator.generateKnightMoves,
      MoveGenerator.generateKingMoves in *.
    rewrite app_nil_r in Hin.
    destruct (negb _); [done|].
    do 6 (destruct (getPieceType (at_sq board sq) =? _);
          [first [by apply generatePawnMoves_captures in Hin as [? _]
                 |by apply stepMoves_captures in Hin as [? _]
                 |by apply generateSlidingMoves_captures in Hin as [? _]
                 |apply elem_of_app; left; by apply stepMoves_captures in Hin as [? _]]|]).
    done.
  - unfold MoveGenerator.generateBishopMoves, MoveGenerator.generateRookMoves,
      MoveGenerator.generateQueenMoves, MoveGenerator.generateKnightMoves,
      MoveGenerator.generateKingMoves in *.
    rewrite app_nil_r in Hin.
    break_in;
      first [by apply generatePawnMoves_captures in Hin as [_ ?]
            |apply stepMoves_captures in Hin as [_ ?]; by left
            |apply generateSlidingMoves_captures in Hin as [_ ?]; by left].
Qed.

Lemma generate_captures_only_witness :
  Examples.Qxf7 ∈ MoveGenerator.generate Examples.blunderBoard false.
Proof.
  apply (generate_captures_only Examples.blunderBoard Examples.Qxf7).
  apply list_elem_of_In. vm_compute. repeat first [left; reflexivity | right].
Defined.

(** ** Expansion *)

Lemma expand_unfold cfg zobrist w (id : nat) (moves : list Move) :
  isExpanded (node w id) = false ->
  MoveGenerator.generate (boardOf w (node w id)) false = moves ->
  moves <> [] ->
  let n := node w id in
  let b := boardOf w n in
  let priors := PolicyNetwork.getMovePolicy cfg zobrist b moves in
  let newNodes :=
    imap (fun i mp => newNode (length (boards w) + i)%nat (Some id) (Some (fst mp)) (snd mp))
         (zip moves priors) in
  expand cfg zobrist w id
  = mkWorld (boards w ++ map (fun m => makeMove zobrist (clone b) m) moves)
      (<[id := mkNode (board n) (parent n) (move n) (prior n)
                 (children n ++ seq (length (mnodes w)) (length newNodes))
                 (visitCount n) (totalValue n) (virtualLoss n)
                 true (isTerminal n) (terminalValue n)]> (mnodes w) ++ newNodes)
      (engine w) (ticks w) (draws w).
Proof.
  intros Hexp Hgen Hne. unfold expand. rewrite Hexp, Hgen. by destruct moves.
Qed.

Lemma expand_new_children cfg zobrist w (id : nat) (moves : list Move) :
  (id < length (mnodes w))%nat ->
  isExpanded (node w id) = false ->
  MoveGenerator.generate (boardOf w (node w id)) false = moves ->
  moves <> [] ->
  let b := boardOf w (node w id) in
  let w' := expand cfg zobrist w id in
  let first := length (mnodes w) in
  let priors := PolicyNetwork.getMovePolicy cfg zobrist b moves in
  isExpanded (node w' id) = true /\
  children (node w' id) = children (node w id) ++ seq first (length moves) /\
  board (node w' id) = board (node w id) /\
  boards w' = boards w ++ map (fun m => makeMove zobrist b m) moves /\
  engine w' = engine w /\
  length (mnodes w') = (first + length moves)%nat /\
  (forall a, (a < first)%nat -> a <> id -> node w' a = node w a) /\
  (forall (i : nat) m, moves !! i = Some m ->
     exists p, priors !! i = Some p /\
       node w' (first + i) = newNode (length (boards w) + i)%nat (Some id) (Some m) p).
Proof.
  intros Hid Hexp Hgen Hne b w' first priors.
  unfold w'. rewrite (expand_unfold cfg zobrist w id moves Hexp Hgen Hne).
  fold b. fold priors.
  assert (length priors = length moves) as Hlp.
  { unfold priors, PolicyNetwork.getMovePolicy. cbv zeta. by rewrite !length_map. }
  assert (length (zip moves priors) = length moves) as Hlz.
  { rewrite length_zip_with. lia. }
  unfold node. cbn [mnodes boards engine].
  rewrite lookup_total_app_l by (by rewrite length_insert).
  rewrite insert_node_eq by done. cbn [isExpanded children board].
  rewrite length_app, length_insert, length_imap, Hlz.
  split_and!; try done.
  - intros a Ha Hna. rewrite lookup_total_app_l by (by rewrite length_insert).
    by rewrite insert_node_ne.
  - intros i mi Hi.
    assert (i < length moves)%nat as Hlt by (by eapply lookup_lt_Some).
    destruct (lookup_lt_is_Some_2 priors i) as [p Hp]; [lia|].
    exists p. split; [done|].
    rewrite lookup_total_app_r by (rewrite length_insert; fold first; lia).
    rewrite length_insert. fold first.
    replace (first + i - first)%nat with i by lia.
    apply list_lookup_total_correct. rewrite list_lookup_imap.
    assert (zip moves priors !! i = Some (mi, p)) as ->; [|done].
    apply lookup_zip_with_Some. by exists mi, p.
Qed.

Lemma map_seq_lookup {A} `{!Inhabited A} (l pre : list A) :
  map (fun c => (pre ++ l) !!! c) (seq (length pre) (length l)) = l.
Proof.
  apply list_eq. intros i. rewrite list_lookup_fmap.
  destruct (decide (i < length l)%nat) as [Hlt|Hge].
  - rewrite lookup_seq_lt by done. simpl.
    rewrite lookup_total_app_r by lia.
    replace (length pre + i - length pre)%nat with i by lia.
    destruct (lookup_lt_is_Some_2 l i Hlt) as [x Hx].
    by rewrite (list_lookup_total_correct _ _ _ Hx), Hx.
  - rewrite lookup_seq_ge by lia. simpl. symmetry. apply lookup_ge_None_2. lia.
Qed.

(** X8. [expand] on a node that is not expanded and whose position has
    moves marks the node expanded and appends one child per generated move,
    in generation order.  The child for move [m] points back to the node,
    carries [m] and the prior that [getMovePolicy] gives to [m], owns a new
    board that is the node's board after [m], and starts unvisited and
    unexpanded; the node's own board is untouched, and the priors of the new
    children sum to 1. *)
Theorem expand_creates_children cfg zobrist w (id : nat) :
  (id < length (mnodes w))%nat ->
  (board (node w id) < length (boards w))%nat ->
  isExpanded (node w id) = false ->
  MoveGenerator.generate (boardOf w (node w id)) false <> [] ->
  let b := boardOf w (node w id) in
  let moves := MoveGenerator.generate b false in
  let priors := PolicyNetwork.getMovePolicy cfg zobrist b moves in
  let w' := expand cfg zobrist w id in
  let first := length (mnodes w) in
  isExpanded (node w' id) = true /\
  children (node w' id) = children (node w id) ++ seq first (length moves) /\
  boardOf w' (node w' id) = b /\
  (forall (i : nat) m, moves !! i = Some m ->
     let c := node w' (first + i) in
     parent c = Some id /\ move c = Some m /\ priors !! i = Some (prior c) /\
     boardOf w' c = makeMove zobrist b m /\
     visitCount c = 0 /\ children c = [] /\ isExpanded c = false) /\
  sumPriors (mnodes w') (seq first (length moves)) = 1%R.
Proof.
  intros Hid Hb Hexp Hne b moves priors w' first.
  destruct (expand_new_children cfg zobrist w id moves Hid Hexp eq_refl Hne)
    as (He & Hch & Hbd & Hbs & _ & Hlen & _ & Hnew).
  fold b w' first priors in He, Hch, Hbd, Hbs, Hlen, Hnew.
  split; [done|]. split; [done|]. split.
  { unfold boardOf. rewrite Hbd, Hbs. by rewrite lookup_total_app_l. }
  split.
  - intros i m Hi c. destruct (Hnew i m Hi) as (p & Hp & Hc). unfold c. rewrite Hc.
    unfold newNode. cbn [parent move prior visitCount children isExpanded].
    split_and!; try done.
    unfold boardOf. cbn [board]. rewrite Hbs.
    rewrite lookup_total_app_r by lia.
    replace (length (boards w) + i - length (boards w))%nat with i by lia.
    apply list_lookup_total_correct. by rewrite list_lookup_fmap, Hi.
  - destruct (getMovePolicy_facts cfg zobrist b moves Hne) as (Hlp & _ & Hsum).
    fold priors in Hlp, Hsum. rewrite <- Hsum. unfold sumPriors. f_equal.
    apply list_eq. intros i. rewrite list_lookup_fmap.
    destruct (moves !! i) as [m|] eqn:Hi.
    + assert (i < length moves)%nat as Hlt by (by eapply lookup_lt_Some).
      rewrite lookup_seq_lt by done. simpl.
      destruct (Hnew i m Hi) as (p & Hp & Hc). fold (node w' (first + i)).
      by rewrite Hc, Hp.
    + apply lookup_ge_None_1 in Hi.
      rewrite lookup_seq_ge by done. simpl. symmetry. apply lookup_ge_None_2. lia.
Qed.

Lemma expand_creates_children_witness :
  isExpanded (node (expand MCTS_CONFIG Examples.zobrist (initRoot Examples.blunderWorld 0) 0) 0)
  = true.
Proof.
  destruct (expand_creates_children MCTS_CONFIG Examples.zobrist
              (initRoot Examples.blunderWorld 0) 0) as (He & _).
  - vm_compute. lia.
  - vm_compute. lia.
  - reflexivity.
  - vm_compute. discriminate.
  - exact He.
Defined.

(** X9. A node whose position has no move becomes terminal with
    [terminalValue = -MATE_SCORE]; the generator does not look for check,
    so a stalemate is scored like a mate.  Such a node is not marked
    expanded and gets no child.  [expand] leaves an expanded node alone, and
    in every case a second [expand] of the same node changes nothing. *)
Theorem expand_idempotent cfg zobrist w (id : nat) :
  (id < length (mnodes w))%nat ->
  let w' := expand cfg zobrist w id in
  (isExpanded (node w id) = true -> w' = w) /\
  (isExpanded (node w id) = false ->
   MoveGenerator.generate (boardOf w (node w id)) false = [] ->
   isTerminal (node w' id) = true /\
   terminalValue (node w' id) = - MATE_SCORE /\
   isExpanded (node w' id) = false /\
   children (node w' id) = children (node w id) /\
   length (mnodes w') = length (mnodes w) /\ boards w' = boards w) /\
  expand cfg zobrist w' id = w'.
Proof.
  intros Hid w'. unfold w'.
  destruct (isExpanded (node w id)) eqn:Hexp.
  { assert (expand cfg zobrist w id = w) as Hsame by (unfold expand; by rewrite Hexp).
    rewrite Hsame. split; [done|]. split; [done|]. exact Hsame. }
  split; [done|].
  destruct (MoveGenerator.generate (boardOf w (node w id)) false) as [|m ms] eqn:Hgen.
  - set (n' := mkNode (board (node w id)) (parent (node w id))
                (move (node w id)) (prior (node w id)) (children (node w id))
                (visitCount (node w id)) (totalValue (node w id)) (virtualLoss (node w id))
                false true (- MATE_SCORE)).
    set (w1 := setNodes w (<[id := n']> (mnodes w))).
    assert (expand cfg zobrist w id = w1) as Hw'.
    { unfold expand. by rewrite Hexp, Hgen. }
    assert (node w1 id = n') as Hn.
    { unfold node, w1. cbn [mnodes setNodes]. by rewrite insert_node_eq. }
    rewrite Hw', Hn. split.
    { intros _ _. unfold w1. cbn. rewrite length_insert. by split_and!. }
    unfold expand. rewrite Hn. cbn [isExpanded n'].
    assert (boardOf w1 n' = boardOf w (node w id)) as -> by done.
    rewrite Hgen. unfold w1, setNodes. cbn.
    by rewrite list_insert_insert_eq.
  - split; [done|].
    destruct (expand_new_children cfg zobrist w id (m :: ms) Hid Hexp Hgen)
      as (He & _); [done|].
    unfold expand at 1. by rewrite He.
Qed.

Lemma expand_idempotent_witness :
  expand MCTS_CONFIG Examples.zobrist
    (expand MCTS_CONFIG Examples.zobrist (initRoot Examples.blunderWorld 0) 0) 0
  = expand MCTS_CONFIG Examples.zobrist (initRoot Examples.blunderWorld 0) 0.
Proof.
  apply (expand_idempotent MCTS_CONFIG Examples.zobrist (initRoot Examples.blunderWorld 0) 0).
  vm_compute. lia.
Defined.

(** ** What a simulation keeps *)

Lemma selectLeaf_head cfg w (fuel : nat) : forall (id : nat) (p : list nat),
  selectLeaf cfg w fuel id = Some (Some p) -> exists p', p = id :: p'.
Proof.
  induction fuel as [|fuel IH]; intros id p H; [done|]. simpl in H.
  destruct (isExpanded (node w id) && _); [|injection H as <-; by eexists].
  destruct (selectChild cfg w (node w id)) as [c|]; [|done].
  destruct (selectLeaf cfg w fuel c) as [[q|]|]; [|done|done].
  injection H as <-. by eexists.
Qed.

Lemma finish_inv (wX : World) (p : list nat) (id : nat) (v : R) w' o :
  finish wX p id v = Some (w', o) ->
  o = Some (mkOutcome p v) /\ engine w' = engine wX /\ boards w' = boards wX /\
  sameTree (mnodes wX) (mnodes w').
Proof.
  unfold finish. destruct (backpropagate _ _ _ _) as [ns|] eqn:Hb; [|done].
  intros H. injection H as <- <-. split_and!; try done.
  by eapply backpropagate_sameTree.
Qed.

Lemma keepsTree_sameTree w w' : sameTree (mnodes w) (mnodes w') -> keepsTree w w'.
Proof.
  intros [_ Hs] a _. destruct (Hs a) as (_ & Hc & Hm & Hb & He & _).
  unfold node. rewrite Hm, Hb, He, Hc. by split_and!.
Qed.

Lemma keepsTree_trans w1 w2 w3 :
  (length (mnodes w1) <= length (mnodes w2))%nat ->
  keepsTree w1 w2 -> keepsTree w2 w3 -> keepsTree w1 w3.
Proof.
  intros Hl H1 H2 a Ha. destruct (H1 a Ha) as (Hm & Hb & He).
  destruct (H2 a) as (Hm' & Hb' & He'); [lia|].
  rewrite Hm', Hb', Hm, Hb. split; [done|]. split; [done|].
  intros Hexp. destruct (He Hexp) as [He1 Hc1]. destruct (He' He1) as [He2 Hc2].
  split; [done|congruence].
Qed.

Lemma keepsTree_refl w : keepsTree w w.
Proof. intros a _. by split_and!. Qed.

Lemma keepsTree_expand cfg zobrist w (id : nat) :
  (id < length (mnodes w))%nat -> keepsTree w (expand cfg zobrist w id).
Proof.
  intros Hid.
  destruct (isExpanded (node w id)) eqn:Hexp.
  { assert (expand cfg zobrist w id = w) as -> by (unfold expand; by rewrite Hexp).
    apply keepsTree_refl. }
  destruct (expand_form cfg zobrist w id Hid)
    as (n' & news & Hns & _ & _ & _ & _ & Hmv & _ & Hbd & _).
  intros a Ha. unfold node in *. rewrite Hns.
  rewrite lookup_total_app_l by (by rewrite length_insert).
  destruct (decide (a = id)) as [->|Hne].
  - rewrite insert_node_eq by done. rewrite Hmv, Hbd, Hexp. by split_and!.
  - rewrite insert_node_ne by done. by split_and!.
Qed.

Lemma runSimulation_inv cfg zobrist w (r : nat) w' o :
  wf w ->
  root (engine w) = Some r ->
  runSimulation cfg zobrist w = Some (w', o) ->
  nodes (engine w') = nodes (engine w) + 1 /\
  (exists o' p', o = Some o' /\ path o' = r :: p') /\
  keepsTree w w'.
Proof.
  intros Hwf Hr Hrun. pose proof Hwf as [Hw Hroot].
  destruct (Hroot r Hr) as [Hrlt Hrpar].
  unfold runSimulation in Hrun. rewrite Hr in Hrun.
  destruct (selectLeaf_spec cfg w Hw (length (mnodes w)) r [] Hrlt)
    as (p & Hsel & Hne & _ & Hlast); [lia|by apply chain_top|].
  rewrite Hsel in Hrun.
  destruct (selectLeaf_head cfg w _ _ _ Hsel) as [p' ->].
  set (leaf := List.last (r :: p') r) in *.
  set (w1 := countNode w) in *.
  assert (forall wX q v,
            engine wX = engine w1 -> keepsTree w wX ->
            (length (mnodes w) <= length (mnodes wX))%nat ->
            (exists q', q = r :: q') ->
            forall id, finish wX q id v = Some (w', o) ->
            nodes (engine w') = nodes (engine w) + 1 /\
            (exists o' p', o = Some o' /\ path o' = r :: p') /\
            keepsTree w w') as Hend.
  { intros wX q v He Hk Hl [q' ->] id Hfin.
    apply finish_inv in Hfin as (-> & He' & _ & Hsame).
    split; [by rewrite He', He|]. split; [by eexists _, _|].
    eapply keepsTree_trans; [exact Hl|exact Hk|by apply keepsTree_sameTree]. }
  assert (keepsTree w w1) as Hk1 by (intros a _; by split_and!).
  assert (keepsTree w (expand cfg zobrist w1 leaf)) as Hk2.
  { by apply (keepsTree_expand cfg zobrist w1 leaf). }
  assert (engine (expand cfg zobrist w1 leaf) = engine w1) as He2.
  { by destruct (expand_form cfg zobrist w1 leaf Hlast) as (_ & _ & _ & ? & _). }
  assert (length (mnodes w) <= length (mnodes (expand cfg zobrist w1 leaf)))%nat as Hl2.
  { destruct (expand_form cfg zobrist w1 leaf Hlast) as (n' & news & Hns & _).
    rewrite Hns, length_app, length_insert. simpl. lia. }
  destruct (isTerminal (node w1 leaf)).
  { eapply (Hend w1); eauto. }
  destruct (_ && _).
  - destruct (isTerminal (node (expand cfg zobrist w1 leaf) leaf)).
    { eapply (Hend (expand cfg zobrist w1 leaf)); eauto. }
    destruct (children (node (expand cfg zobrist w1 leaf) leaf)) as [|c cs].
    + eapply (Hend (expand cfg zobrist w1 leaf)); eauto.
    + eapply (Hend (expand cfg zobrist w1 leaf) ((r :: p') ++ [c])); eauto.
  - eapply (Hend w1); eauto.
Qed.

(** ** What the loop keeps *)

Lemma simLoop_inv cfg zobrist env (remaining : nat) :
  forall (i : Z) (w : World) (r : nat) w' os,
  wf w ->
  root (engine w) = Some r ->
  simLoop cfg zobrist env remaining i w = Some (w', os) ->
  (length os <= remaining)%nat /\
  nodes (engine w') = nodes (engine w) + Z.of_nat (length os) /\
  passes r os = Z.of_nat (length os) /\
  (length (mnodes w) <= length (mnodes w'))%nat /\
  keepsTree w w'.
Proof.
  induction remaining as [|remaining IH]; intros i w r w' os Hwf Hr Hrun; simpl in Hrun.
  { injection Hrun as <- <-. simpl. split_and!; try done; try lia; apply keepsTree_refl. }
  assert (forall wS, mnodes wS = mnodes w -> nodes (engine wS) = nodes (engine w) ->
            Some (wS, @nil (option SimOutcome)) = Some (w', os) ->
            (length os <= S remaining)%nat /\
            nodes (engine w') = nodes (engine w) + Z.of_nat (length os) /\
            passes r os = Z.of_nat (length os) /\
            (length (mnodes w) <= length (mnodes w'))%nat /\
            keepsTree w w') as Hstop.
  { intros wS Hm Hn H. injection H as <- <-. simpl. rewrite Hm, Hn.
    split_and!; try done; try lia.
    intros a Ha. unfold node. rewrite Hm. by split_and!. }
  destruct (stopSearch (engine w)); [by apply (Hstop w)|].
  destruct (timeIsUp _ _); [by apply (Hstop (tick w))|].
  destruct (runSimulation_spec cfg zobrist (tick w) r (wf_tick _ Hwf) Hr)
    as (w1 & o & Hsim & Hwf1 & Hr1 & _ & _ & _ & _ & _ & Hl1 & _).
  rewrite Hsim in Hrun.
  destruct (runSimulation_inv cfg zobrist (tick w) r w1 (Some o) (wf_tick _ Hwf) Hr Hsim)
    as (Hn1 & (o' & p' & Ho & Hp) & Hk1).
  injection Ho as <-.
  destruct (simLoop cfg zobrist env remaining (i + 1) (report w1 i)) as [[w2 os2]|] eqn:Hrest;
    [|done].
  injection Hrun as <- <-.
  assert (mnodes (report w1 i) = mnodes w1 /\ engine (report w1 i) = engine w1) as [Hm He].
  { unfold report. by destruct (_ && _). }
  destruct (IH (i + 1) (report w1 i) r w2 os2) as (Hle & Hn2 & Hp2 & Hl2 & Hk2);
    [by apply wf_report|by rewrite He|done|].
  rewrite Hm in Hl2. rewrite He in Hn2. simpl in Hl1.
  split; [simpl; lia|]. split; [simpl length; rewrite Hn2, Hn1; simpl; lia|].
  split.
  { rewrite passes_cons, Hp2. simpl. rewrite Hp.
    rewrite bool_decide_eq_true_2 by (by left). simpl length. lia. }
  split; [lia|].
  assert (keepsTree w w1) as Hk1' by exact Hk1.
  assert (keepsTree w1 w2) as Hk2'.
  { intros a Ha. destruct (Hk2 a) as (H1 & H2 & H3); [by rewrite Hm|].
    unfold node in *. rewrite Hm in *. by split_and!. }
  eapply keepsTree_trans; [|exact Hk1'|exact Hk2']. exact Hl1.
Qed.

(** X10. The loop of [search] runs at most as many simulations as it has
    iterations; each of them goes through the root and is counted in
    [this.nodes].  So after the loop, from any well-formed state, both
    [this.nodes] and the visit count of the root have grown by exactly the
    number of simulations that ran. *)
Theorem simLoop_counts cfg zobrist env (remaining : nat) (i : Z) (w : World) (r : nat) :
  wf w ->
  root (engine w) = Some r ->
  exists w' os,
    simLoop cfg zobrist env remaining i w = Some (w', os) /\
    (length os <= remaining)%nat /\
    nodes (engine w') = nodes (engine w) + Z.of_nat (length os) /\
    visitCount (node w' r) = visitCount (node w r) + Z.of_nat (length os).
Proof.
  intros Hwf Hr.
  destruct (simLoop_spec cfg zobrist env remaining i w r Hwf Hr)
    as (w' & os & Hrun & _ & _ & _ & _ & Hv & _).
  destruct (simLoop_inv cfg zobrist env remaining i w r w' os Hwf Hr Hrun)
    as (Hle & Hn & Hp & _).
  exists w', os. split_and!; try done. by rewrite Hv, Hp.
Qed.

Lemma simLoop_counts_witness :
  exists w' os,
    simLoop MCTS_CONFIG Examples.zobrist Examples.env 2 0
      (addDirichletNoise MCTS_CONFIG Examples.env
         (prepare MCTS_CONFIG Examples.zobrist Examples.env Examples.pawnsWorld
            AlphaZeroEngine.boardRef (Some 1000)) 0)
    = Some (w', os) /\
    visitCount (node w' 0) = Z.of_nat (length os).
Proof.
  destruct (simLoop_counts MCTS_CONFIG Examples.zobrist Examples.env 2 0
              (addDirichletNoise MCTS_CONFIG Examples.env
                 (prepare MCTS_CONFIG Examples.zobrist Examples.env Examples.pawnsWorld
                    AlphaZeroEngine.boardRef (Some 1000)) 0) 0)
    as (w' & os & Hrun & _ & _ & Hv).
  - apply wf_search_start, wf_positionFen, wf_create.
  - vm_compute. reflexivity.
  - exists w', os. split; [exact Hrun|]. rewrite Hv.
    assert (visitCount (node (addDirichletNoise MCTS_CONFIG Examples.env
              (prepare MCTS_CONFIG Examples.zobrist Examples.env Examples.pawnsWorld
                 AlphaZeroEngine.boardRef (Some 1000)) 0) 0) = 0) as ->; [|lia].
    vm_compute. reflexivity.
Defined.

(** ** The move that a search returns *)

Lemma prepare_fresh cfg zobrist env w (bref : nat) (timeLimit : option Z) :
  (root (engine w) = None \/
   exists r, root (engine w) = Some r /\
             hash (boardOf w (node w r)) <> hash (boards w !!! bref)) ->
  let w1 := initRoot (beginSearch env w timeLimit) bref in
  let rootId := length (mnodes w) in
  prepare cfg zobrist env w bref timeLimit = expand cfg zobrist w1 rootId /\
  mnodes w1 = mnodes w ++ [newNode bref None None 0%R] /\
  boards w1 = boards w /\
  node w1 rootId = newNode bref None None 0%R.
Proof.
  intros Hcase w1 rootId.
  assert (keepsRoot (beginSearch env w timeLimit) bref = false) as Hk.
  { unfold keepsRoot. simpl. destruct Hcase as [->|(r & -> & Hne)]; [done|].
    by apply Z.eqb_neq. }
  assert (root (engine w1) = Some rootId /\
          mnodes w1 = mnodes w ++ [newNode bref None None 0%R] /\
          boards w1 = boards w) as (Hr1 & Hm1 & Hb1).
  { unfold w1, initRoot. rewrite Hk. by simpl. }
  split; [unfold prepare; fold w1; by rewrite Hr1|]. split; [done|]. split; [done|].
  unfold node. rewrite Hm1. unfold rootId. rewrite lookup_total_app_r by lia.
  by rewrite Nat.sub_diag.
Qed.

(** The move returned by a search whose root has children is the move of
    one of them. *)
Lemma search_result_move cfg zobrist env w (bref : nat) (simulations timeLimit : option Z)
    (r : nat) :
  wf w ->
  let w2 := prepare cfg zobrist env w bref timeLimit in
  root (engine w2) = Some r ->
  children (node w2 r) <> [] ->
  exists w4 os w' m c,
    simLoop cfg zobrist env (iterations (effectiveSimulations cfg w bref simulations)) 0
      (addDirichletNoise cfg env w2 r) = Some (w4, os) /\
    search cfg zobrist env w bref simulations timeLimit = Some (w', Some m) /\
    mnodes w' = mnodes w4 /\ engine w' = engine w4 /\ root (engine w4) = Some r /\
    c ∈ children (node w4 r) /\ move (node w4 c) = Some m /\
    fst (getBestMove env w4 (node w4 r) (Config.temperature cfg)) = Some m.
Proof.
  intros Hwf w2 Hr Hne.
  destruct (prepare_spec cfg zobrist env w bref timeLimit Hwf) as (r' & Hr' & Hwf2 & _).
  fold w2 in Hr', Hwf2.
  destruct (addDirichletNoise_spec cfg env w2 r) as (Hsame & He3 & _).
  set (w3 := addDirichletNoise cfg env w2 r) in *.
  assert (wf w3) as Hwf3 by (eapply wf_sameTree; [exact Hsame|by rewrite He3|done]).
  assert (root (engine w3) = Some r) as Hr3 by (by rewrite He3).
  destruct (simLoop_spec cfg zobrist env
              (iterations (effectiveSimulations cfg w bref simulations)) 0 w3 r Hwf3 Hr3)
    as (w4 & os & Hloop & Hwf4 & Hr4 & _ & Hl4 & _ & _ & Hc4).
  destruct Hwf3 as [Hw3 Hroot3]. destruct (Hroot3 r Hr3) as [Hrlt _].
  assert (children (node w4 r) <> []) as Hne4.
  { destruct (Hc4 r Hrlt) as (_ & more & ->).
    destruct Hsame as [_ Hs]. destruct (Hs r) as (_ & Hch & _).
    unfold node in *. rewrite Hch. by destruct (children (mnodes w2 !!! r)). }
  destruct (getBestMove_child env w4 (node w4 r) (Config.temperature cfg) Hne4)
    as (c & Hc & Hfst & Hm & He & _).
  destruct Hwf4 as [Hw4 Hroot4]. destruct (Hroot4 r Hr4) as [Hrlt4 _].
  destruct (wf_children _ Hw4 r c Hrlt4 Hc) as (_ & _ & [m Hmv]).
  exists w4, os, (snd (getBestMove env w4 (node w4 r) (Config.temperature cfg))), m, c.
  split; [done|]. split.
  { unfold search. fold w2. rewrite Hr.
    destruct (children (node w2 r)); [done|]. fold w3. rewrite Hloop.
    by rewrite Hfst, <- Hmv. }
  split; [done|]. split; [done|]. split; [done|]. split; [done|]. split; [done|].
  by rewrite Hfst.
Qed.

(** X11. A search that allocates its root (no previous root, or a previous
    root whose board has another hash) answers for the position it is
    given: it returns null exactly when the generator finds no move for that
    position, and otherwise it returns one of the generated moves. *)
Theorem search_returns_generated_move cfg zobrist env w (bref : nat)
    (simulations timeLimit : option Z) :
  wf w ->
  (root (engine w) = None \/
   exists r, root (engine w) = Some r /\
             hash (boardOf w (node w r)) <> hash (boards w !!! bref)) ->
  let moves := MoveGenerator.generate (boards w !!! bref) false in
  exists w' res,
    search cfg zobrist env w bref simulations timeLimit = Some (w', res) /\
    match res with
    | None => moves = []
    | Some m => m ∈ moves
    end.
Proof.
  intros Hwf Hcase moves.
  destruct (prepare_fresh cfg zobrist env w bref timeLimit Hcase) as (Hprep & Hm1 & Hb1 & Hn1).
  destruct (prepare_root cfg zobrist env w bref timeLimit) as [_ Hfresh].
  destruct (Hfresh Hcase) as (Hr & _ & _ & _ & _ & Hiff).
  set (w1 := initRoot (beginSearch env w timeLimit) bref) in *.
  set (rootId := length (mnodes w)) in *.
  set (w2 := prepare cfg zobrist env w bref timeLimit) in *.
  assert (boardOf w1 (node w1 rootId) = boards w !!! bref) as Hbo.
  { unfold boardOf. by rewrite Hn1, Hb1. }
  destruct moves as [|m0 ms] eqn:Hmoves.
  { exists w2, None. split; [|done].
    unfold search. fold w2. rewrite Hr. by rewrite (proj2 Hiff Hmoves). }
  assert (m0 :: ms <> []) as Hmne by done.
  remember (m0 :: ms) as mvs eqn:Hmvs. clear Hmvs m0 ms.
  assert (rootId < length (mnodes w1))%nat as Hlt.
  { rewrite Hm1, length_app. unfold rootId. simpl. lia. }
  destruct (expand_new_children cfg zobrist w1 rootId mvs Hlt)
    as (Hexp & Hch & _ & _ & _ & Hlen & _ & Hnew);
    [by rewrite Hn1|by rewrite Hbo|done|].
  rewrite <- Hprep in Hexp, Hch, Hlen, Hnew. rewrite Hn1 in Hch.
  unfold newNode in Hch. cbn [children app] in Hch.
  assert (children (node w2 rootId) <> []) as Hne by (rewrite Hch; by destruct mvs).
  destruct (search_result_move cfg zobrist env w bref simulations timeLimit rootId Hwf Hr Hne)
    as (w4 & os & w' & m & c & Hloop & Hsearch & _ & _ & _ & Hc & Hmv & _).
  exists w', (Some m). split; [done|].
  (* the children of the root and their moves are those that [expand] made *)
  destruct (prepare_spec cfg zobrist env w bref timeLimit Hwf) as (r' & Hr' & Hwf2 & _).
  fold w2 in Hr', Hwf2.
  destruct (addDirichletNoise_spec cfg env w2 rootId) as (Hsame & He3 & _).
  set (w3 := addDirichletNoise cfg env w2 rootId) in *.
  assert (wf w3) as Hwf3 by (eapply wf_sameTree; [exact Hsame|by rewrite He3|done]).
  assert (root (engine w3) = Some rootId) as Hr3 by (by rewrite He3).
  destruct (simLoop_inv cfg zobrist env _ 0 w3 rootId w4 os Hwf3 Hr3 Hloop)
    as (_ & _ & _ & _ & Hk).
  destruct Hsame as [Hl3 Hs].
  assert (forall a, children (node w3 a) = children (node w2 a) /\
                    move (node w3 a) = move (node w2 a) /\
                    isExpanded (node w3 a) = isExpanded (node w2 a)) as Hs'.
  { intros a. destruct (Hs a) as (_ & ? & ? & _ & ? & _). by split_and!. }
  destruct (Hs' rootId) as (Hch3 & _ & Hexp3).
  destruct (Hk rootId) as (_ & _ & Hroot4).
  { rewrite Hl3, Hlen. lia. }
  destruct Hroot4 as [_ Hch4]; [by rewrite Hexp3|].
  rewrite Hch4, Hch3, Hch in Hc. fold rootId in Hc.
  apply elem_of_seq in Hc.
  destruct (Hk c) as (Hmv4 & _); [rewrite Hl3, Hlen; lia|].
  destruct (Hs' c) as (_ & Hmv3 & _).
  destruct (lookup_lt_is_Some_2 mvs (c - length (mnodes w1))) as [mi Hi]; [lia|].
  destruct (Hnew _ _ Hi) as (p & _ & Hnode).
  replace (length (mnodes w1) + (c - length (mnodes w1)))%nat with c in Hnode by lia.
  rewrite Hmv4, Hmv3, Hnode in Hmv. simpl in Hmv. injection Hmv as <-.
  by eapply list_elem_of_lookup_2.
Qed.

Lemma search_returns_generated_move_witness :
  exists w' res,
    search MCTS_CONFIG Examples.zobrist Examples.env Examples.blunderWorld
      AlphaZeroEngine.boardRef (Some 2000) (Some 1000) = Some (w', res).
Proof.
  destruct (search_returns_generated_move MCTS_CONFIG Examples.zobrist Examples.env
              Examples.blunderWorld AlphaZeroEngine.boardRef (Some 2000) (Some 1000))
    as (w' & res & Hs & _).
  - apply wf_positionFen, wf_create.
  - left. reflexivity.
  - by exists w', res.
Defined.

(** ** Boards of piece codes *)

Lemma validBoard_newBoard : validBoard newBoard.
Proof.
  split; [reflexivity|]. apply Forall_forall. intros x Hx.
  apply list_elem_of_In, repeat_spec in Hx. subst. unfold PIECES.EMPTY. lia.
Qed.

Lemma validBoard_at_sq (b : Board) (sq : Z) :
  validBoard b -> 0 <= sq < 64 -> 0 <= at_sq b sq <= 12.
Proof.
  intros [Hlen Hall] Hsq. unfold at_sq.
  destruct (Z.ltb_spec sq 0); [lia|].
  destruct (lookup_lt_is_Some_2 (squares b) (Z.to_nat sq)) as [x Hx]; [lia|].
  rewrite Hx. simpl. by apply (Forall_lookup_1 _ _ _ _ Hall Hx).
Qed.

Lemma valid_set_sq (sqs : list Z) (q p : Z) :
  length sqs = 64%nat /\ Forall (fun x => 0 <= x <= 12) sqs ->
  0 <= p <= 12 ->
  length (set_sq sqs q p) = 64%nat /\ Forall (fun x => 0 <= x <= 12) (set_sq sqs q p).
Proof.
  intros [Hlen Hall] Hp. split; [by rewrite length_set_sq|].
  unfold set_sq. destruct (q <? 0); [done|]. by apply Forall_insert.
Qed.

(** [makeMove] with a move between two squares of the board, whose
    promotion piece, if any, is a piece code, keeps the board one of piece
    codes. *)
Lemma makeMove_valid zobrist (b : Board) (m : Move) :
  validBoard b ->
  0 <= from m < 64 -> 0 <= to m < 64 ->
  (forall p, promotion m = Some p -> 0 <= p <= 12) ->
  validBoard (makeMove zobrist b m).
Proof.
  intros Hb Hf Ht Hp.
  pose proof (validBoard_at_sq b (from m) Hb Hf) as Hpiece.
  unfold validBoard, makeMove. cbn [squares].
  assert (0 <= match promotion m with
               | Some p => if p =? 0 then at_sq b (from m) else p
               | None => at_sq b (from m)
               end <= 12) as Hplaced.
  { destruct (promotion m) as [p|]; [|done].
    destruct (p =? 0); [done|]. by apply Hp. }
  assert (0 <= PIECES.EMPTY <= 12 /\ 0 <= PIECES.W_ROOK <= 12 /\ 0 <= PIECES.B_ROOK <= 12)
    as (H0 & Hwr & Hbr) by (unfold PIECES.EMPTY, PIECES.W_ROOK, PIECES.B_ROOK; lia).
  pose proof (valid_set_sq _ (to m) _
                (valid_set_sq _ (from m) _ Hb H0) Hplaced) as H2.
  destruct (_ && (to m =? _)); [apply valid_set_sq; [|done]|];
    destruct (castle m) as [[]|]; try done;
    by repeat apply valid_set_sq.
Qed.

(** The moves that the generator returns are of this kind. *)
Lemma generate_in_range (board : Board) (capturesOnly : bool) (m : Move) :
  m ∈ MoveGenerator.generate board capturesOnly ->
  0 <= from m < 64 /\ 0 <= to m < 64 /\
  (forall p, promotion m = Some p -> 0 <= p <= 12).
Proof.
  unfold MoveGenerator.generate. rewrite elem_of_flat_map.
  intros (sq & Hsq%elem_of_allSquares & Hin).
  destruct (isOwnPiece board (at_sq board sq)); simpl in Hin;
    [|by apply elem_of_nil in Hin].
  assert (from m = sq /\ 0 <= to m < 64 /\ movesTo board (to m) /\
          castle m = None /\ promotion m = None ->
          0 <= from m < 64 /\ 0 <= to m < 64 /\
          (forall p, promotion m = Some p -> 0 <= p <= 12)) as Hplain.
  { intros (-> & Ht & _ & _ & Hp). rewrite Hp. split_and!; try lia; done. }
  destruct (getPieceType (at_sq board sq) =? 1).
  { apply generatePawnMoves_shape in Hin as (<- & Ht & _ & _ & Hp); [|done].
    split_and!; try lia; intros p Hpm; specialize (Hp p Hpm);
      unfold MoveGenerator.promos in Hp; destruct (turn board =? 1);
      repeat (apply elem_of_cons in Hp as [->|Hp];
              [unfold PIECES.W_QUEEN, PIECES.W_ROOK, PIECES.W_BISHOP, PIECES.W_KNIGHT,
                 PIECES.B_QUEEN, PIECES.B_ROOK, PIECES.B_BISHOP, PIECES.B_KNIGHT; lia|]);
      by apply elem_of_nil in Hp. }
  destruct (getPieceType (at_sq board sq) =? 2).
  { apply Hplain. by apply stepMoves_shape in Hin. }
  destruct (getPieceType (at_sq board sq) =? 3).
  { apply Hplain. by apply generateSlidingMoves_shape in Hin. }
  destruct (getPieceType (at_sq board sq) =? 4).
  { apply Hplain. by apply generateSlidingMoves_shape in Hin. }
  destruct (getPieceType (at_sq board sq) =? 5).
  { apply Hplain. by apply generateSlidingMoves_shape in Hin. }
  destruct (getPieceType (at_sq board sq) =? 6); [|by apply elem_of_nil in Hin].
  apply generateKingMoves_shape in Hin as (<- & Ht & _ & Hp).
  rewrite Hp. split_and!; try lia; done.
Qed.

(** The loop of [parseFEN] over a placement that stays on the board. *)
Lemma place_valid (position : list ascii) :
  forall (sq : Z) (sqs : list Z) (ks : Kings),
  AlphaZeroEngine.placeable position sq = true ->
  length sqs = 64%nat /\ Forall (fun x => 0 <= x <= 12) sqs ->
  length (fst (AlphaZeroEngine.place position sq sqs ks)) = 64%nat /\
  Forall (fun x => 0 <= x <= 12) (fst (AlphaZeroEngine.place position sq sqs ks)).
Proof.
  induction position as [|c rest IH]; intros sq sqs ks Hok Hsqs; [done|].
  cbn [AlphaZeroEngine.placeable AlphaZeroEngine.place] in *.
  destruct (Ascii.eqb c "/"); [by apply IH|].
  destruct (AlphaZeroEngine.digit c); [by apply IH|].
  apply andb_true_iff in Hok as [Hok Hrest]. apply andb_true_iff in Hok as [Hc _].
  apply Z.leb_le in Hc.
  apply IH; [done|]. apply valid_set_sq; [done|].
  split; [lia|]. unfold AlphaZeroEngine.CHAR_TO_PIECE.
  repeat (destruct (Ascii.eqb c _); [lia|]). lia.
Qed.

Lemma parseFEN_valid zobrist (b : Board) (fen : String.string) :
  length (squares b) = 64%nat ->
  AlphaZeroEngine.wellFormed fen = true ->
  validBoard (AlphaZeroEngine.parseFEN zobrist b fen).
Proof.
  intros Hlen Hfen. unfold validBoard, AlphaZeroEngine.parseFEN. cbn [squares].
  apply place_valid; [exact Hfen|].
  split; [by rewrite length_map|].
  apply Forall_forall. intros x Hx. apply list_elem_of_fmap in Hx as (y & -> & _).
  unfold PIECES.EMPTY. lia.
Qed.

(** *** The boards of the store *)

Lemma validBoard_lookup (bs : list Board) (i : nat) :
  Forall validBoard bs -> validBoard (bs !!! i).
Proof.
  intros Hall. rewrite list_lookup_total_alt.
  destruct (bs !! i) as [b|] eqn:Hb; simpl.
  - by apply (Forall_lookup_1 _ _ _ _ Hall Hb).
  - apply validBoard_newBoard.
Qed.

Lemma expand_boards cfg zobrist w (id : nat) :
  Forall validBoard (boards w) -> Forall validBoard (boards (expand cfg zobrist w id)).
Proof.
  intros Hall. unfold expand.
  destruct (isExpanded (node w id)); [done|].
  destruct (MoveGenerator.generate (boardOf w (node w id)) false) as [|m ms] eqn:Hgen; [done|].
  cbn [boards]. apply Forall_app. split; [done|].
  apply Forall_forall. intros b' Hb'. apply list_elem_of_fmap in Hb' as (m' & -> & Hm').
  rewrite <- Hgen in Hm'. apply generate_in_range in Hm' as (Hf & Ht & Hp).
  apply makeMove_valid; try done. by apply validBoard_lookup.
Qed.

Lemma finish_boards (wX : World) (p : list nat) (id : nat) (v : R) w' o :
  finish wX p id v = Some (w', o) -> boards w' = boards wX.
Proof.
  unfold finish. destruct (backpropagate _ _ _ _); [|discriminate].
  by intros [= <- _].
Qed.

Lemma runSimulation_boards cfg zobrist w w' o :
  runSimulation cfg zobrist w = Some (w', o) ->
  Forall validBoard (boards w) -> Forall validBoard (boards w').
Proof.
  unfold runSimulation. intros H Hall.
  destruct (root (engine w)) as [r|]; [|discriminate].
  destruct (selectLeaf cfg w (length (mnodes w)) r) as [[p|]|]; [|by injection H as <- _|discriminate].
  pose proof (expand_boards cfg zobrist (countNode w) (List.last p r) Hall) as Hexp.
  revert H.
  destruct (isTerminal _); [intros H; apply finish_boards in H; by rewrite H|].
  destruct (_ && _).
  - destruct (isTerminal _); [intros H; apply finish_boards in H; by rewrite H|].
    destruct (children _); intros H; apply finish_boards in H; by rewrite H.
  - intros H. apply finish_boards in H. by rewrite H.
Qed.

Lemma simLoop_boards cfg zobrist env (remaining : nat) :
  forall (i : Z) (w w' : World) os,
  simLoop cfg zobrist env remaining i w = Some (w', os) ->
  Forall validBoard (boards w) -> Forall validBoard (boards w').
Proof.
  induction remaining as [|remaining IH]; intros i w w' os Hrun Hall.
  { by injection Hrun as <- _. }
  cbn [simLoop] in Hrun.
  destruct (stopSearch (engine w)); [by injection Hrun as <- _|].
  destruct (timeIsUp _ _); [by injection Hrun as <- _|].
  destruct (runSimulation cfg zobrist (tick w)) as [[w1 o]|] eqn:Hsim; [|discriminate].
  destruct (simLoop cfg zobrist env remaining (i + 1) (report w1 i)) as [[w2 os']|] eqn:Hrec;
    [|discriminate].
  injection Hrun as <- _.
  apply (IH _ _ _ _ Hrec).
  assert (boards (report w1 i) = boards w1) as -> by (unfold report; by destruct (_ && _)).
  by apply (runSimulation_boards cfg zobrist (tick w) w1 o Hsim).
Qed.

Lemma search_boards cfg zobrist env w (bref : nat) (simulations timeLimit : option Z) w' res :
  search cfg zobrist env w bref simulations timeLimit = Some (w', res) ->
  Forall validBoard (boards w) -> Forall validBoard (boards w').
Proof.
  intros Hs Hall.
  assert (Forall validBoard (boards (prepare cfg zobrist env w bref timeLimit))) as H2.
  { unfold prepare.
    assert (boards (initRoot (beginSearch env w timeLimit) bref) = boards w) as Hb.
    { unfold initRoot. by destruct (keepsRoot _ _). }
    destruct (root (engine (initRoot (beginSearch env w timeLimit) bref))).
    - apply expand_boards. by rewrite Hb.
    - by rewrite Hb. }
  unfold search in Hs.
  destruct (root (engine (prepare cfg zobrist env w bref timeLimit))) as [r|]; [|discriminate].
  destruct (children (node (prepare cfg zobrist env w bref timeLimit) r)) as [|c cs];
    [by injection Hs as <- _|].
  destruct (simLoop cfg zobrist env _ 0 _) as [[w4 os]|] eqn:Hloop; [|discriminate].
  injection Hs as <- _.
  apply simLoop_boards in Hloop.
  - unfold getBestMove. destruct (children (node w4 r)); [done|].
    by destruct (Req_dec_T _ _).
  - by destruct (addDirichletNoise_spec cfg env (prepare cfg zobrist env w bref timeLimit) r)
      as (_ & _ & -> & _).
Qed.

(** ** Sessions *)

Lemma search_wf cfg zobrist env w (bref : nat) (simulations timeLimit : option Z) :
  wf w ->
  exists w' res, search cfg zobrist env w bref simulations timeLimit = Some (w', res) /\ wf w'.
Proof.
  intros Hwf.
  destruct (prepare_spec cfg zobrist env w bref timeLimit Hwf) as (r0 & _ & Hwf2 & _).
  destruct (search_spec cfg zobrist env w bref simulations timeLimit Hwf)
    as (r & Hr & [[_ Hs]|(_ & w4 & os & w' & m & _ & Hs & Hwf' & _)]).
  - by eexists _, _.
  - by eexists _, _.
Qed.

Lemma reachable_wf zobrist env w : reachable zobrist env w -> wf w.
Proof.
  induction 1 as [|w fen _ IH _|cfg w s t w' res _ IH Hgo].
  - apply wf_create.
  - by apply wf_positionFen.
  - unfold AlphaZeroEngine.go in Hgo.
    destruct (search_wf cfg zobrist env w AlphaZeroEngine.boardRef (Some s) (Some t) IH)
      as (w'' & res' & Hs & Hwf).
    rewrite Hs in Hgo. by injection Hgo as <- _.
Qed.

Lemma reachable_valid zobrist env w : reachable zobrist env w -> Forall validBoard (boards w).
Proof.
  induction 1 as [|w fen _ IH Hfen|cfg w s t w' res _ IH Hgo].
  - apply Forall_cons. split; [apply validBoard_newBoard|apply Forall_nil_2].
  - unfold AlphaZeroEngine.positionFen. cbn [boards]. apply Forall_insert; [done|].
    apply parseFEN_valid; [|done]. by destruct (validBoard_lookup _ AlphaZeroEngine.boardRef IH).
  - by apply (search_boards cfg zobrist env w AlphaZeroEngine.boardRef (Some s) (Some t) w' res).
Qed.

(** X12. In every state that an engine reaches by [position fen] commands
    with a well-formed piece placement and by [go] commands, whatever the
    simulation counts, move times, configurations, clock and random
    numbers, every board object of the store has 64 squares that hold piece
    codes (so that no table lookup of [makeMove] or [zobrist.compute] is
    undefined), and the next [go] returns: the selection loop of a
    simulation reaches a leaf and the recursion of [backpropagate] reaches
    the root, because the tree never gets a cycle. *)
Theorem go_terminates cfg zobrist env w (simulations movetime : Z) :
  reachable zobrist env w ->
  Forall validBoard (boards w) /\
  exists w' res,
    AlphaZeroEngine.go cfg zobrist env w simulations movetime = Some (w', res) /\
    reachable zobrist env w' /\
    Forall validBoard (boards w').
Proof.
  intros Hreach. pose proof (reachable_wf _ _ _ Hreach) as Hwf.
  split; [by eapply reachable_valid|].
  destruct (search_wf cfg zobrist env w AlphaZeroEngine.boardRef
              (Some simulations) (Some movetime) Hwf) as (w' & res & Hs & _).
  exists w', res. split; [exact Hs|].
  assert (reachable zobrist env w') as Hreach' by (by eapply reach_go).
  split; [exact Hreach'|]. by eapply reachable_valid.
Qed.

Lemma go_terminates_witness :
  exists w' res,
    AlphaZeroEngine.go MCTS_CONFIG Examples.zobrist Examples.env Examples.pawnsWorld 2000 1000
    = Some (w', res).
Proof.
  destruct (go_terminates MCTS_CONFIG Examples.zobrist Examples.env Examples.pawnsWorld 2000 1000)
    as (_ & w' & res & Hgo & _).
  - apply reach_position; [apply reach_create|reflexivity].
  - by exists w', res.
Defined.

(** ** Selection below an unvisited node *)

(** X13. Below a node that has not been visited, with children that have
    not been visited either, every PUCT score is 0 (the exploration term
    has the factor [sqrt 0]), so [selectChild] returns the first child
    whatever the priors are.  This is the state of a new root in the first
    simulation of a search. *)
Theorem selectChild_unvisited cfg w (n : MCTSNode) (c : nat) (cs : list nat) :
  children n = c :: cs ->
  visitCount n = 0 ->
  (forall c', c' ∈ c :: cs -> visitCount (node w c') = 0) ->
  (forall c', c' ∈ c :: cs -> getPUCT cfg w (node w c') (visitCount n) = 0%R) /\
  selectChild cfg w n = Some c.
Proof.
  intros Hch Hv Hcs.
  assert (forall c', c' ∈ c :: cs -> getPUCT cfg w (node w c') (visitCount n) = 0%R) as Hz.
  { intros c' Hc'. unfold getPUCT, getQ, getU. rewrite (Hcs c' Hc'), Hv. simpl.
    rewrite sqrt_0. unfold Rdiv. lra. }
  split; [done|]. unfold selectChild. rewrite Hch.
  pose proof (selectStep_fold cfg w (visitCount n) (c :: cs)) as H.
  destruct (fold_left _ _ _) as [[b|] s]; [|by destruct H].
  destruct H as (_ & i & Hi & _ & Hfirst). simpl.
  destruct i as [|i]; [by injection Hi as ->|].
  exfalso. specialize (Hfirst 0%nat c (Nat.lt_0_succ i) eq_refl).
  rewrite Hz in Hfirst by (by left).
  rewrite Hz in Hfirst by (by eapply list_elem_of_lookup_2). lra.
Qed.

Lemma selectChild_unvisited_witness :
  selectChild MCTS_CONFIG
    (prepare MCTS_CONFIG Examples.zobrist Examples.env Examples.pawnsWorld
       AlphaZeroEngine.boardRef (Some 1000))
    (node (prepare MCTS_CONFIG Examples.zobrist Examples.env Examples.pawnsWorld
             AlphaZeroEngine.boardRef (Some 1000)) 0)
  = Some 1%nat.
Proof.
  apply (selectChild_unvisited MCTS_CONFIG
           (prepare MCTS_CONFIG Examples.zobrist Examples.env Examples.pawnsWorld
              AlphaZeroEngine.boardRef (Some 1000)) _ 1%nat []).
  - vm_compute. reflexivity.
  - vm_compute. reflexivity.
  - intros c' Hc'. apply list_elem_of_singleton in Hc' as ->. vm_compute. reflexivity.
Defined.

(** ** A search that runs no simulation *)

Lemma blendPriors_visitCount cfg sum cs : forall ns noise a,
  visitCount (blendPriors cfg sum ns cs noise !!! a) = visitCount (ns !!! a).
Proof.
  induction cs as [|c cs IH]; intros ns noise a; simpl; [done|].
  destruct noise as [|x noise]; [done|]. rewrite IH.
  destruct (decide (c = a)) as [->|Hne]; [|by rewrite insert_node_ne].
  destruct (decide (a < length ns)%nat).
  - by rewrite insert_node_eq.
  - by rewrite list_insert_ge by lia.
Qed.

Lemma addDirichletNoise_visitCount cfg env w (id a : nat) :
  visitCount (node (addDirichletNoise cfg env w id) a) = visitCount (node w a).
Proof.
  unfold addDirichletNoise. destruct (children (node w id)); [done|].
  unfold node, drawn, setNodes. cbn [mnodes]. apply blendPriors_visitCount.
Qed.

Lemma prepare_ticks cfg zobrist env w (bref : nat) (timeLimit : option Z) :
  wf w -> ticks (prepare cfg zobrist env w bref timeLimit) = S (ticks w).
Proof.
  intros Hwf. unfold prepare.
  destruct (initRoot_spec (beginSearch env w timeLimit) bref (wf_beginSearch env w timeLimit Hwf))
    as ([Hw1 Hroot1] & Ht1 & _).
  set (w1 := initRoot (beginSearch env w timeLimit) bref) in *.
  destruct (root (engine w1)) as [r|] eqn:Hr; [|by rewrite Ht1].
  destruct (Hroot1 r eq_refl) as [Hlt _].
  destruct (expand_form cfg zobrist w1 r Hlt) as (_ & _ & _ & _ & -> & _).
  by rewrite Ht1.
Qed.

Lemma fold_zero (l : list R) : (forall x, x ∈ l -> x = 0%R) -> fold_left Rplus l 0%R = 0%R.
Proof.
  induction l as [|y l IH]; intros H; simpl; [done|].
  rewrite (H y) by (by left). rewrite Rplus_0_l. apply IH. intros x Hx. apply H. by right.
Qed.

(** With no visit below it, a node answers with the move of its first
    child, at any temperature that is not negative. *)
Lemma getBestMove_unvisited env w (n : MCTSNode) (c : nat) (cs : list nat) (temperature : R) :
  children n = c :: cs ->
  (forall c', c' ∈ c :: cs -> visitCount (node w c') = 0) ->
  fst (getBestMove env w n temperature) = move (node w c).
Proof.
  intros Hch Hz. unfold getBestMove. rewrite Hch.
  destruct (Req_dec_T temperature 0) as [_|Hne]; cbn [fst].
  - destruct (mostVisited_fold w c (c :: cs)) as [_ [[-> _]|[Hlt (i & Hi & _)]]]; [done|].
    exfalso. rewrite (Hz c) in Hlt by (by left).
    rewrite (Hz (mostVisited w c (c :: cs))) in Hlt by (by eapply list_elem_of_lookup_2). lia.
  - assert (Math_pow (IZR (visitCount (node w c))) (1 / temperature) = 0%R) as Hc.
    { rewrite (Hz c) by (by left). unfold Math_pow.
      destruct (Req_dec_T 0 0) as [_|H]; [|done].
      destruct (Req_dec_T (1 / temperature) 0) as [H|_]; [|done].
      exfalso. unfold Rdiv in H. rewrite Rmult_1_l in H.
      by apply (Rinv_neq_0_compat temperature). }
    simpl map. rewrite Hc. simpl fold_left. rewrite Rplus_0_l.
    rewrite fold_zero.
    2:{ intros x Hx. apply list_elem_of_fmap in Hx as (c' & -> & Hc').
        rewrite (Hz c') by (by right). unfold Math_pow.
        destruct (Req_dec_T 0 0) as [_|H]; [|done].
        destruct (Req_dec_T (1 / temperature) 0) as [H|_]; [|done].
        exfalso. unfold Rdiv in H. rewrite Rmult_1_l in H.
        by apply (Rinv_neq_0_compat temperature). }
    simpl. destruct (Rle_dec _ 0) as [_|Hgt]; [done|]. exfalso. apply Hgt. lra.
Qed.

Lemma simLoop_nothing cfg zobrist env (remaining : nat) (i : Z) (w : World) :
  remaining = 0%nat \/
  (stopSearch (engine w) = false /\
   exists stop, stopTime (engine w) = Some stop /\ stop <= now env (ticks w)) ->
  exists w', simLoop cfg zobrist env remaining i w = Some (w', []) /\ mnodes w' = mnodes w.
Proof.
  intros [->|(Hss & stop & Hst & Hle)]; [by exists w|].
  destruct remaining as [|remaining]; [by exists w|].
  simpl. rewrite Hss, Hst. simpl.
  destruct (Z.geb_spec (now env (ticks w)) stop); [|lia]. by exists (tick w).
Qed.

(** X14. A search that allocates its root and can run no simulation (its
    simulation count is 0 or missing and the position is no endgame, or
    its time limit is not positive and the clock does not go backwards)
    still returns a move when the position has one: the first generated
    move, whatever the priors and the (non-negative) temperature. *)
Theorem search_without_simulation cfg zobrist env w (bref : nat)
    (simulations timeLimit : option Z) (m : Move) (ms : list Move) :
  wf w ->
  (root (engine w) = None \/
   exists r, root (engine w) = Some r /\
             hash (boardOf w (node w r)) <> hash (boards w !!! bref)) ->
  MoveGenerator.generate (boards w !!! bref) false = m :: ms ->
  (0 <= Config.temperature cfg)%R ->
  iterations (effectiveSimulations cfg w bref simulations) = 0%nat \/
  (exists t, timeLimit = Some t /\ t <= 0 /\ forall k, now env k <= now env (S k)) ->
  exists w', search cfg zobrist env w bref simulations timeLimit = Some (w', Some m).
Proof.
  intros Hwf Hcase Hgen _ Hnone.
  destruct (prepare_fresh cfg zobrist env w bref timeLimit Hcase) as (Hprep & Hm1 & Hb1 & Hn1).
  destruct (prepare_root cfg zobrist env w bref timeLimit) as [_ Hfresh].
  destruct (Hfresh Hcase) as (Hr & _ & _ & _ & _ & _).
  destruct (prepare_spec cfg zobrist env w bref timeLimit Hwf)
    as (r' & _ & _ & _ & _ & Hss & Hst & _).
  pose proof (prepare_ticks cfg zobrist env w bref timeLimit Hwf) as Htk.
  set (w1 := initRoot (beginSearch env w timeLimit) bref) in *.
  set (rootId := length (mnodes w)) in *.
  set (w2 := prepare cfg zobrist env w bref timeLimit) in *.
  assert (boardOf w1 (node w1 rootId) = boards w !!! bref) as Hbo.
  { unfold boardOf. by rewrite Hn1, Hb1. }
  assert (rootId < length (mnodes w1))%nat as Hlt.
  { rewrite Hm1, length_app. unfold rootId. simpl. lia. }
  assert (m :: ms <> []) as Hmne by done.
  remember (m :: ms) as mvs eqn:Hmvs.
  destruct (expand_new_children cfg zobrist w1 rootId mvs Hlt)
    as (_ & Hch & _ & _ & _ & _ & _ & Hnew);
    [by rewrite Hn1|by rewrite Hbo|done|].
  rewrite <- Hprep in Hch, Hnew. rewrite Hn1 in Hch.
  unfold newNode in Hch. cbn [children app] in Hch.
  assert (children (node w2 rootId) <> []) as Hne by (rewrite Hch; by destruct mvs).
  destruct (search_result_move cfg zobrist env w bref simulations timeLimit rootId Hwf Hr Hne)
    as (w4 & os & w' & m' & c & Hloop & Hsearch & _ & _ & _ & _ & _ & Hfst).
  fold w2 in Hloop.
  exists w'. rewrite Hsearch. do 2 f_equal.
  destruct (addDirichletNoise_spec cfg env w2 rootId) as ([_ Hs] & He3 & _ & Ht3).
  set (w3 := addDirichletNoise cfg env w2 rootId) in *.
  destruct (simLoop_nothing cfg zobrist env
              (iterations (effectiveSimulations cfg w bref simulations)) 0 w3)
    as (w4' & Hloop' & Hm4).
  { destruct Hnone as [H0|(t & -> & Ht & Hmono)]; [by left|right].
    rewrite He3, Hss, Hst, Ht3, Htk. split; [done|]. simpl. eexists. split; [done|].
    specialize (Hmono (ticks w)). lia. }
  rewrite Hloop in Hloop'. injection Hloop' as <- _.
  assert (forall a, node w4 a = node w3 a) as Hn4.
  { intros a. unfold node. by rewrite Hm4. }
  assert (children (node w4 rootId) = length (mnodes w1) :: seq (S (length (mnodes w1))) (length ms))
    as Hch4.
  { rewrite Hn4. destruct (Hs rootId) as (_ & Hc3 & _). unfold node in *.
    rewrite Hc3, Hch, Hmvs. done. }
  rewrite (getBestMove_unvisited env w4 _ _ _ _ Hch4) in Hfst.
  - rewrite Hn4 in Hfst. destruct (Hs (length (mnodes w1))) as (_ & _ & Hmv3 & _).
    unfold node in Hfst, Hmv3. rewrite Hmv3 in Hfst.
    destruct (Hnew 0%nat m) as (p & _ & Hnode); [by rewrite Hmvs|].
    rewrite Nat.add_0_r in Hnode. unfold node in Hnode. rewrite Hnode in Hfst.
    simpl in Hfst. by injection Hfst as ->.
  - intros c' Hc'. rewrite Hn4. unfold w3. rewrite addDirichletNoise_visitCount.
    rewrite <- Hch4, Hn4 in Hc'. destruct (Hs rootId) as (_ & Hc3 & _).
    unfold node in Hc', Hc3. rewrite Hc3 in Hc'. fold (node w2 rootId) in Hc'.
    rewrite Hch in Hc'. apply elem_of_seq in Hc'.
    destruct (lookup_lt_is_Some_2 mvs (c' - length (mnodes w1))) as [mi Hi]; [lia|].
    destruct (Hnew _ _ Hi) as (p & _ & Hnode).
    replace (length (mnodes w1) + (c' - length (mnodes w1)))%nat with c' in Hnode by lia.
    by rewrite Hnode.
Qed.

Lemma search_without_simulation_witness :
  exists w',
    search MCTS_CONFIG Examples.zobrist Examples.env Examples.pawnsWorld
      AlphaZeroEngine.boardRef (Some 2000) (Some 0)
    = Some (w', Some (mkMove 40 32 None None)).
Proof.
  apply (search_without_simulation MCTS_CONFIG Examples.zobrist Examples.env Examples.pawnsWorld
           AlphaZeroEngine.boardRef (Some 2000) (Some 0) (mkMove 40 32 None None) []).
  - apply wf_positionFen, wf_create.
  - left. reflexivity.
  - vm_compute. reflexivity.
  - simpl. lra.
  - right. exists 0. split; [reflexivity|]. split; [lia|]. intros k. simpl. lia.
Defined.

(** ** UCI notation *)

Lemma list_ascii_of_string_app (a b : String.string) :
  String.list_ascii_of_string (String.append a b)
  = String.list_ascii_of_string a ++ String.list_ascii_of_string b.
Proof. induction a as [|c a IH]; simpl; [done|]. by rewrite IH. Qed.

(** The two characters that [moveToUCI] prints for a square, and what
    [parseUCIMove] reads from them. *)
Lemma square_chars_check :
  forallb (fun f =>
    match String.list_ascii_of_string (UCI.fromCharCode (97 + Z.rem f 8)),
          String.list_ascii_of_string (UCI.showInt (8 - f / 8)) with
    | [c0], [c1] =>
        match AlphaZeroEngine.digit c1 with
        | Some d => (8 - d) * 8 + (Z.of_nat (nat_of_ascii c0) - 97) =? f
        | None => false
        end
    | _, _ => false
    end) MoveGenerator.allSquares = true.
Proof. vm_compute. reflexivity. Qed.

Lemma square_chars (f : Z) :
  0 <= f < 64 ->
  exists c0 c1 d,
    String.list_ascii_of_string (UCI.fromCharCode (97 + Z.rem f 8)) = [c0] /\
    String.list_ascii_of_string (UCI.showInt (8 - f / 8)) = [c1] /\
    AlphaZeroEngine.digit c1 = Some d /\
    (8 - d) * 8 + (Z.of_nat (nat_of_ascii c0) - 97) = f.
Proof.
  intros Hf. pose proof square_chars_check as H. rewrite forallb_forall in H.
  specialize (H f (proj1 (list_elem_of_In _ _) (proj2 (elem_of_allSquares f) Hf))).
  destruct (String.list_ascii_of_string (UCI.fromCharCode _)) as [|c0 [|? ?]]; try done.
  destruct (String.list_ascii_of_string (UCI.showInt _)) as [|c1 [|? ?]]; try done.
  destruct (AlphaZeroEngine.digit c1) as [d|] eqn:Hd; [|done].
  apply Z.eqb_eq in H. by exists c0, c1, d.
Qed.

Lemma parse_moveToUCI (white : bool) (f t : Z) (promo : option Z) (c : option Castle) :
  0 <= f < 64 -> 0 <= t < 64 ->
  UCI.parseUCIMoveFor white (UCI.moveToUCI (mkMove f t promo c))
  = Some (mkMove f t
            match promo with
            | Some p =>
                if p =? 0 then None
                else UCI.promotionOf white
                       (if Z.rem p 7 =? 5 then "q"%char else if Z.rem p 7 =? 4 then "r"%char
                        else if Z.rem p 7 =? 3 then "b"%char else "n"%char)
            | None => None
            end None).
Proof.
  intros Hf Ht.
  destruct (square_chars f Hf) as (c0 & c1 & d1 & Hc0 & Hc1 & Hd1 & Hfrom).
  destruct (square_chars t Ht) as (c2 & c3 & d3 & Hc2 & Hc3 & Hd3 & Hto).
  assert (forall suffix,
            UCI.parseUCIMoveFor white
              (String.append
                 (String.append (UCI.fromCharCode (97 + Z.rem f 8))
                    (String.append (UCI.showInt (8 - f / 8))
                       (String.append (UCI.fromCharCode (97 + Z.rem t 8))
                          (UCI.showInt (8 - t / 8))))) suffix)
            = Some (mkMove f t
                      match String.list_ascii_of_string suffix with
                      | [] => None
                      | promChar :: _ => UCI.promotionOf white promChar
                      end None)) as Hparse.
  { intros suffix. unfold UCI.parseUCIMoveFor.
    rewrite !list_ascii_of_string_app, Hc0, Hc1, Hc2, Hc3. cbn [app].
    by rewrite Hd1, Hd3, Hfrom, Hto. }
  unfold UCI.moveToUCI. cbn [from to promotion].
  assert (forall s, String.append s String.EmptyString = s) as Hnil.
  { induction s as [|x s IH]; simpl; [done|]. by rewrite IH. }
  destruct promo as [p|]; [destruct (p =? 0)|].
  - rewrite <- (Hnil (String.append _ _)). by rewrite Hparse.
  - rewrite Hparse.
    by destruct (Z.rem p 7 =? 5), (Z.rem p 7 =? 4), (Z.rem p 7 =? 3).
  - rewrite <- (Hnil (String.append _ _)). by rewrite Hparse.
Qed.

(** X15. Reading back with [parseUCIMove] what [moveToUCI] prints gives the
    squares of the move again, for all squares of the board, and never a
    castle flag.  A move without promotion and a promotion by White read
    back as they are.  A promotion by Black does not: [moveToUCI] takes the
    piece code modulo 7, so that a black queen is printed as [r] and read
    back as a black rook, a rook as a bishop, and a bishop as a knight. *)
Theorem moveToUCI_parseUCIMove (board : Board) (m : Move) :
  0 <= from m < 64 -> 0 <= to m < 64 ->
  let reread := UCI.parseUCIMove board (UCI.moveToUCI m) in
  (promotion m = None -> reread = Some (mkMove (from m) (to m) None None)) /\
  (forall p, promotion m = Some p -> turn board = 1 ->
     p ∈ [PIECES.W_QUEEN; PIECES.W_ROOK; PIECES.W_BISHOP; PIECES.W_KNIGHT] ->
     reread = Some (mkMove (from m) (to m) (Some p) None)) /\
  (forall p, promotion m = Some p -> turn board <> 1 ->
     p ∈ [PIECES.B_QUEEN; PIECES.B_ROOK; PIECES.B_BISHOP; PIECES.B_KNIGHT] ->
     reread = Some (mkMove (from m) (to m)
                      (Some (if p =? PIECES.B_QUEEN then PIECES.B_ROOK
                             else if p =? PIECES.B_ROOK then PIECES.B_BISHOP
                             else PIECES.B_KNIGHT)) None)).
Proof.
  intros Hf Ht reread. unfold reread, UCI.parseUCIMove.
  destruct m as [f t promo c]. cbn [from to promotion] in *.
  rewrite parse_moveToUCI by done.
  split; [by intros ->|]. split.
  - intros p -> Hturn Hp. apply Z.eqb_eq in Hturn. rewrite Hturn.
    apply list_elem_of_In in Hp. simpl in Hp.
    destruct Hp as [<-|[<-|[<-|[<-|[]]]]]; reflexivity.
  - intros p -> Hturn Hp. apply Z.eqb_neq in Hturn. rewrite Hturn.
    apply list_elem_of_In in Hp. simpl in Hp.
    destruct Hp as [<-|[<-|[<-|[<-|[]]]]]; reflexivity.
Qed.

Lemma moveToUCI_parseUCIMove_witness :
  UCI.parseUCIMove Examples.blunderBoard (UCI.moveToUCI Examples.Qxf7) = Some Examples.Qxf7.
Proof.
  apply (moveToUCI_parseUCIMove Examples.blunderBoard Examples.Qxf7).
  - simpl. lia.
  - simpl. lia.
  - reflexivity.
Defined.

(** ** The incremental hash *)

Lemma low32_toInt32 (x : Z) : low32 (toInt32 x) = low32 x.
Proof. unfold low32, toInt32. Z.div_mod_to_equations. lia. Qed.

Lemma toInt32_range (x : Z) : - 2 ^ 31 <= toInt32 x < 2 ^ 31.
Proof. unfold toInt32. pose proof (Z.mod_pos_bound (x + 2 ^ 31) (2 ^ 32)). lia. Qed.

Lemma int32_inj (a b : Z) :
  - 2 ^ 31 <= a < 2 ^ 31 -> - 2 ^ 31 <= b < 2 ^ 31 -> low32 a = low32 b -> a = b.
Proof. unfold low32. intros Ha Hb H. Z.div_mod_to_equations. lia. Qed.

Lemma low32_lxor (a b : Z) : low32 (Z.lxor a b) = Z.lxor (low32 a) (low32 b).
Proof.
  unfold low32. apply Z.bits_inj'. intros i Hi.
  rewrite Z.lxor_spec, !Z.testbit_mod_pow2 by lia. rewrite Z.lxor_spec.
  by destruct (i <? 32).
Qed.

Lemma low32_jsXor (a b : Z) : low32 (jsXor a b) = Z.lxor (low32 a) (low32 b).
Proof. unfold jsXor. by rewrite low32_toInt32, low32_lxor, !low32_toInt32. Qed.

Lemma jsXor_range (a b : Z) : - 2 ^ 31 <= jsXor a b < 2 ^ 31.
Proof. apply toInt32_range. Qed.

Section Hashing.
Variable zobrist : ZobristHash.t.

(** The loop of [compute] over the squares, and its keys in [low32]. *)
Lemma low32_squares_fold (b : Board) (l : list Z) : forall h,
  low32 (fold_left (fun h sq =>
                      let piece := at_sq b sq in
                      if negb (piece =? PIECES.EMPTY)
                      then jsXor h (ZobristHash.piece zobrist piece sq) else h) l h)
  = fold_left (fun u sq => Z.lxor u (low32 (squareKey zobrist b sq))) l (low32 h).
Proof.
  induction l as [|sq l IH]; intros h; simpl; [done|].
  rewrite IH. f_equal. unfold squareKey.
  destruct (at_sq b sq =? PIECES.EMPTY); simpl.
  - unfold low32 at 3. by rewrite Z.mod_0_l, Z.lxor_0_r by lia.
  - apply low32_jsXor.
Qed.

Lemma squares_fold_range (b : Board) (l : list Z) : forall h,
  - 2 ^ 31 <= h < 2 ^ 31 ->
  - 2 ^ 31 <= fold_left (fun h sq =>
                           let piece := at_sq b sq in
                           if negb (piece =? PIECES.EMPTY)
                           then jsXor h (ZobristHash.piece zobrist piece sq) else h) l h
            < 2 ^ 31.
Proof.
  induction l as [|sq l IH]; intros h Hh; simpl; [done|].
  apply IH. destruct (negb _); [apply jsXor_range|done].
Qed.

Lemma lxor_fold_acc (k : Z -> Z) (l : list Z) : forall u,
  fold_left (fun u sq => Z.lxor u (k sq)) l u
  = Z.lxor u (fold_left (fun u sq => Z.lxor u (k sq)) l 0).
Proof.
  induction l as [|sq l IH]; intros u; simpl; [by rewrite Z.lxor_0_r|].
  rewrite Z.lxor_0_l, (IH (Z.lxor u (k sq))), (IH (k sq)). by rewrite Z.lxor_assoc.
Qed.

Lemma lxor_fold_ext (k k' : Z -> Z) (l : list Z) (u : Z) :
  (forall s, s ∈ l -> k' s = k s) ->
  fold_left (fun u sq => Z.lxor u (k' sq)) l u = fold_left (fun u sq => Z.lxor u (k sq)) l u.
Proof.
  revert u. induction l as [|sq l IH]; intros u H; simpl; [done|].
  rewrite (H sq) by (by left). apply IH. intros s Hs. apply H. by right.
Qed.

(** Changing the key of one square changes the fold by the old and the new
    key. *)
Lemma lxor_fold_change (k k' : Z -> Z) (q : Z) (l : list Z) :
  NoDup l -> q ∈ l ->
  (forall s, s ∈ l -> s <> q -> k' s = k s) ->
  fold_left (fun u sq => Z.lxor u (k' sq)) l 0
  = Z.lxor (Z.lxor (fold_left (fun u sq => Z.lxor u (k sq)) l 0) (k q)) (k' q).
Proof.
  induction l as [|sq l IH]; intros Hnd Hq Hsame; [by apply elem_of_nil in Hq|].
  apply NoDup_cons in Hnd as [Hnotin Hnd]. simpl. rewrite !Z.lxor_0_l.
  rewrite (lxor_fold_acc k' l (k' sq)), (lxor_fold_acc k l (k sq)).
  destruct (decide (sq = q)) as [->|Hne].
  - rewrite (lxor_fold_ext k k' l 0).
    2:{ intros s Hs. apply Hsame; [by right|]. intros ->. done. }
    set (F := fold_left _ l 0).
    apply Z.bits_inj'. intros i _. rewrite !Z.lxor_spec.
    by destruct (Z.testbit (k' q) i), (Z.testbit F i), (Z.testbit (k q) i).
  - apply elem_of_cons in Hq as [Hq|Hq]; [done|].
    rewrite IH; [|done|done|intros s Hs Hsq; apply Hsame; [by right|done]].
    rewrite (Hsame sq) by (by left || done).
    set (F := fold_left _ l 0).
    apply Z.bits_inj'. intros i _. rewrite !Z.lxor_spec.
    by destruct (Z.testbit (k sq) i), (Z.testbit F i), (Z.testbit (k q) i),
                (Z.testbit (k' q) i).
Qed.

Lemma NoDup_allSquares : NoDup MoveGenerator.allSquares.
Proof. apply (bool_decide_unpack _). vm_compute. reflexivity. Qed.

(** [compute] in [low32]: the keys of the squares, of the castling rights,
    of the en-passant file and of the side to move. *)
Lemma low32_compute (b : Board) :
  low32 (AlphaZeroEngine.compute zobrist b)
  = Z.lxor (Z.lxor (Z.lxor (Z.lxor (Z.lxor (Z.lxor
      (fold_left (fun u sq => Z.lxor u (low32 (squareKey zobrist b sq)))
                 MoveGenerator.allSquares 0)
      (if wk (castling b) then low32 (ZobristHash.castle zobrist 0) else 0))
      (if wq (castling b) then low32 (ZobristHash.castle zobrist 1) else 0))
      (if bk (castling b) then low32 (ZobristHash.castle zobrist 2) else 0))
      (if bq (castling b) then low32 (ZobristHash.castle zobrist 3) else 0))
      (if enPassant b >=? 0
       then low32 (ZobristHash.ep zobrist (Z.rem (enPassant b) 8)) else 0))
      (if turn b =? -1 then low32 (ZobristHash.sideToMove zobrist) else 0).
Proof.
  unfold AlphaZeroEngine.compute. cbv zeta.
  assert (forall (c : bool) h key,
            low32 (if c then jsXor h key else h)
            = Z.lxor (low32 h) (if c then low32 key else 0)) as Hif.
  { intros [] h key; [apply low32_jsXor|by rewrite Z.lxor_0_r]. }
  rewrite !Hif, low32_squares_fold. done.
Qed.

Lemma compute_range (b : Board) :
  - 2 ^ 31 <= AlphaZeroEngine.compute zobrist b < 2 ^ 31.
Proof.
  unfold AlphaZeroEngine.compute. cbv zeta.
  assert (forall (c : bool) h key, - 2 ^ 31 <= h < 2 ^ 31 ->
            - 2 ^ 31 <= (if c then jsXor h key else h) < 2 ^ 31) as Hif.
  { intros [] h key Hh; [apply jsXor_range|done]. }
  do 6 apply Hif. apply squares_fold_range. lia.
Qed.
End Hashing.

(** ** Reading a FEN *)

Lemma place_kings (position : list ascii) : forall (sq : Z) (sqs : list Z) (ks : Kings),
  ((forall c, c ∈ position -> c <> "K"%char) ->
   white (snd (AlphaZeroEngine.place position sq sqs ks)) = white ks) /\
  ((forall c, c ∈ position -> c <> "k"%char) ->
   black (snd (AlphaZeroEngine.place position sq sqs ks)) = black ks).
Proof.
  induction position as [|c rest IH]; intros sq sqs ks; simpl; [done|].
  destruct (Ascii.eqb c "/").
  { destruct (IH sq sqs ks) as [H1 H2].
    split; intros H; [apply H1|apply H2]; intros x Hx; apply H; by right. }
  destruct (AlphaZeroEngine.digit c) as [d|].
  { destruct (IH (sq + d) sqs ks) as [H1 H2].
    split; intros H; [apply H1|apply H2]; intros x Hx; apply H; by right. }
  match goal with |- context [AlphaZeroEngine.place rest ?s ?q ?k] =>
    destruct (IH s q k) as [H1 H2] end.
  split; intros H.
  - rewrite H1 by (intros x Hx; apply H; by right).
    assert (c <> "K"%char) as Hc by (apply H; by left).
    apply Ascii.eqb_neq in Hc. rewrite Hc. by destruct (Ascii.eqb c "k").
  - rewrite H2 by (intros x Hx; apply H; by right).
    assert (c <> "k"%char) as Hc by (apply H; by left).
    apply Ascii.eqb_neq in Hc. rewrite Hc. by destruct (Ascii.eqb c "K").
Qed.

(** X16. For a FEN whose piece placement is well-formed (slashes, digits
    and the twelve piece letters, every piece on one of the 64 squares),
    read into a board of 64 squares: [parseFEN] leaves a board of 64 piece
    codes and does not read the move counters of the FEN, so the board
    keeps its [halfmove] and [fullmove].  The squares, the turn, the
    castling rights, the en-passant square and the hash are set from the
    FEN alone, and the hash is the one that [zobrist.compute] gives for the
    new position, a signed 32-bit integer.  The king squares come from the
    FEN as well, except that a placement without a white (black) king
    leaves the previous white (black) king square in place. *)
Theorem parseFEN_resets_position zobrist (b b2 : Board) (fen : String.string) :
  AlphaZeroEngine.wellFormed fen = true ->
  length (squares b) = 64%nat ->
  length (squares b2) = 64%nat ->
  kings b2 = kings b ->
  let b' := AlphaZeroEngine.parseFEN zobrist b fen in
  let position := nth 0 (AlphaZeroEngine.split [] (String.list_ascii_of_string fen)) [] in
  validBoard b' /\
  halfmove b' = halfmove b /\ fullmove b' = fullmove b /\
  hash b' = AlphaZeroEngine.compute zobrist b' /\
  - 2 ^ 31 <= hash b' < 2 ^ 31 /\
  AlphaZeroEngine.parseFEN zobrist b2 fen
  = mkBoard (squares b') (turn b') (castling b') (enPassant b')
            (halfmove b2) (fullmove b2) (kings b') (hash b') /\
  ((forall c, c ∈ position -> c <> "K"%char) -> white (kings b') = white (kings b)) /\
  ((forall c, c ∈ position -> c <> "k"%char) -> black (kings b') = black (kings b)).
Proof.
  intros Hfen Hlen Hlen2 Hk b' position.
  split; [by apply parseFEN_valid|].
  unfold b', AlphaZeroEngine.parseFEN. cbn.
  assert (map (fun _ : Z => PIECES.EMPTY) (squares b2)
          = map (fun _ : Z => PIECES.EMPTY) (squares b)) as Hsq.
  { rewrite <- Hlen in Hlen2. revert Hlen2. generalize (squares b). generalize (squares b2).
    induction l as [|x l IH]; intros [|y l'] H; simpl in *; try done.
    f_equal. apply IH. lia. }
  rewrite Hsq, Hk. fold position.
  split_and!; try done; first [apply compute_range | apply place_kings].
Qed.

Lemma parseFEN_resets_position_witness :
  fullmove (AlphaZeroEngine.parseFEN Examples.zobrist newBoard Examples.blunderFEN) = 1.
Proof.
  apply (parseFEN_resets_position Examples.zobrist newBoard newBoard Examples.blunderFEN);
    reflexivity.
Defined.

(** ** The loader's backpropagation *)

(** X17. The loader's [backpropagate(path, value)] walks the recorded path
    from its first node, the root, to its last: the node at position [i]
    gets [visitCount + 1] and [totalValue + (-1)^i * value], so the root
    receives [value] itself, and nodes off the path are left alone. *)
Theorem Loader_backpropagate_root_first (path : list nat) :
  forall (ns : list Loader.MCTSNode) (value : R),
  NoDup path ->
  (forall a, a ∈ path -> (a < length ns)%nat) ->
  let ns' := Loader.backpropagate ns path value in
  length ns' = length ns /\
  (forall (i : nat) a, path !! i = Some a ->
     ns' !!! a = Loader.backup (ns !!! a) ((-1) ^ i * value)%R) /\
  (forall a, a ∉ path -> ns' !!! a = ns !!! a).
Proof.
  induction path as [|id rest IH]; intros ns value Hnd Hlt; simpl.
  { split; [done|]. split; [intros i a Hi; by rewrite lookup_nil in Hi|done]. }
  apply NoDup_cons in Hnd as [Hnotin Hnd].
  assert (id < length ns)%nat as Hid by (apply Hlt; by left).
  destruct (IH (<[id := Loader.backup (ns !!! id) value]> ns) (- value)%R Hnd)
    as (Hlen & Hon & Hoff).
  { intros a Ha. rewrite length_insert. apply Hlt. by right. }
  rewrite length_insert in Hlen. split; [done|]. split.
  - intros [|i] a Hi; simpl in Hi.
    + injection Hi as <-. rewrite Hoff by done.
      rewrite list_lookup_total_insert_eq by done. f_equal. simpl. lra.
    + rewrite (Hon i a Hi).
      assert (a <> id) as Hne.
      { intros ->. apply Hnotin. by eapply list_elem_of_lookup_2. }
      rewrite list_lookup_total_insert_ne by done. f_equal. simpl. lra.
  - intros a Ha. apply not_elem_of_cons in Ha as [Hne Ha].
    rewrite Hoff by done. by rewrite list_lookup_total_insert_ne.
Qed.

Lemma Loader_backpropagate_root_first_witness :
  Loader.totalValue
    (Loader.backpropagate [Loader.newNode None 1; Loader.newNode None 1] [0%nat; 1%nat] (1 / 2)
       !!! 0%nat) = (0 + (-1) ^ 0 * (1 / 2))%R.
Proof.
  destruct (Loader_backpropagate_root_first [0%nat; 1%nat]
              [Loader.newNode None 1; Loader.newNode None 1] (1 / 2)%R) as (_ & Hon & _).
  - apply (bool_decide_unpack _). reflexivity.
  - intros a Ha. apply list_elem_of_In in Ha. simpl in *. destruct Ha as [<-|[<-|[]]]; lia.
  - by rewrite (Hon 0%nat 0%nat eq_refl).
Defined.

Lemma makeMove_hash zobrist (b : Board) (m : Move) :
  hash (makeMove zobrist b m)
  = jsXor (jsXor (if negb (at_sq b (to m) =? PIECES.EMPTY)
                  then jsXor (jsXor (hash b) (ZobristHash.piece zobrist (at_sq b (from m)) (from m)))
                             (ZobristHash.piece zobrist (at_sq b (to m)) (to m))
                  else jsXor (hash b) (ZobristHash.piece zobrist (at_sq b (from m)) (from m)))
                 (ZobristHash.piece zobrist
                    match promotion m with
                    | Some p => if p =? 0 then at_sq b (from m) else p
                    | None => at_sq b (from m)
                    end (to m)))
          (ZobristHash.sideToMove zobrist).
Proof. reflexivity. Qed.

(** X18. For a move that changes neither the castling rights nor the
    en-passant square (none before, none after), the hash that [makeMove]
    updates incrementally equals the hash that [zobrist.compute] gives for
    the new position, provided the hash was right before the move. *)
Theorem makeMove_hash_consistent zobrist (b : Board) (m : Move) :
  length (squares b) = 64%nat ->
  0 <= from m < 64 -> 0 <= to m < 64 -> from m <> to m ->
  castle m = None ->
  at_sq b (from m) <> PIECES.EMPTY ->
  turn b = 1 \/ turn b = -1 ->
  enPassant b < 0 ->
  enPassant (makeMove zobrist b m) < 0 ->
  castling (makeMove zobrist b m) = castling b ->
  hash b = AlphaZeroEngine.compute zobrist b ->
  hash (makeMove zobrist b m) = AlphaZeroEngine.compute zobrist (makeMove zobrist b m).
Proof.
  intros Hlen Hf Ht Hne Hc Hp Hturn Hep Hep' Hcast Hhash.
  destruct (makeMove_two_squares zobrist b m Hlen Hf Ht Hne Hc) as (_ & Hfrom & Hto & Hother).
  set (b' := makeMove zobrist b m) in *.
  set (placed := match promotion m with
                 | Some p => if p =? 0 then at_sq b (from m) else p
                 | None => at_sq b (from m)
                 end) in *.
  assert (placed <> PIECES.EMPTY) as Hplaced.
  { unfold placed. destruct (promotion m) as [p|]; [|done].
    destruct (Z.eqb_spec p 0); [done|]. done. }
  apply int32_inj; [unfold b'; rewrite makeMove_hash; apply jsXor_range|apply compute_range|].
  set (k := fun sq => low32 (squareKey zobrist b sq)).
  set (k' := fun sq => low32 (squareKey zobrist b' sq)).
  set (k1 := fun sq => if sq =? from m then k' sq else k sq).
  assert (k' (from m) = 0) as Hk'f.
  { unfold k', squareKey. rewrite Hfrom. done. }
  assert (k' (to m) = low32 (ZobristHash.piece zobrist placed (to m))) as Hk't.
  { unfold k', squareKey. rewrite Hto. fold placed.
    by destruct (Z.eqb_spec placed PIECES.EMPTY). }
  assert (k (from m) = low32 (ZobristHash.piece zobrist (at_sq b (from m)) (from m))) as Hkf.
  { unfold k, squareKey. by destruct (Z.eqb_spec (at_sq b (from m)) PIECES.EMPTY). }
  assert (forall s, s <> from m -> s <> to m -> k' s = k s) as Hks.
  { intros s H1 H2. unfold k', k, squareKey. by rewrite Hother. }
  assert (fold_left (fun u sq => Z.lxor u (k' sq)) MoveGenerator.allSquares 0
          = Z.lxor (Z.lxor (Z.lxor (Z.lxor
              (fold_left (fun u sq => Z.lxor u (k sq)) MoveGenerator.allSquares 0)
              (k (from m))) 0) (k (to m))) (k' (to m))) as Hfold.
  { rewrite (lxor_fold_change k1 k' (to m));
      [|apply NoDup_allSquares|by apply elem_of_allSquares|].
    2:{ intros s _ Hs. unfold k1. destruct (Z.eqb_spec s (from m)) as [->|Hsf]; [done|].
        by apply Hks. }
    rewrite (lxor_fold_change k k1 (from m));
      [|apply NoDup_allSquares|by apply elem_of_allSquares|].
    2:{ intros s _ Hs. unfold k1. by destruct (Z.eqb_spec s (from m)). }
    unfold k1. rewrite Z.eqb_refl, Hk'f.
    destruct (Z.eqb_spec (to m) (from m)); [congruence|]. done. }
  rewrite (low32_compute zobrist b').
  change (fun u sq => Z.lxor u (low32 (squareKey zobrist b' sq)))
    with (fun u sq => Z.lxor u (k' sq)).
  rewrite Hfold, Hk't, Hkf.
  unfold b' at 1. rewrite makeMove_hash. fold placed.
  rewrite !low32_jsXor.
  assert (low32 (if negb (at_sq b (to m) =? PIECES.EMPTY)
                 then jsXor (jsXor (hash b)
                               (ZobristHash.piece zobrist (at_sq b (from m)) (from m)))
                            (ZobristHash.piece zobrist (at_sq b (to m)) (to m))
                 else jsXor (hash b) (ZobristHash.piece zobrist (at_sq b (from m)) (from m)))
          = Z.lxor (Z.lxor (low32 (hash b))
                      (low32 (ZobristHash.piece zobrist (at_sq b (from m)) (from m))))
                   (k (to m))) as ->.
  { unfold k, squareKey. destruct (at_sq b (to m) =? PIECES.EMPTY); simpl.
    - rewrite low32_jsXor. change (low32 0) with 0. by rewrite Z.lxor_0_r.
    - by rewrite !low32_jsXor. }
  rewrite Hhash, (low32_compute zobrist b).
  change (fun u sq => Z.lxor u (low32 (squareKey zobrist b sq)))
    with (fun u sq => Z.lxor u (k sq)).
  rewrite Hcast.
  assert ((enPassant b >=? 0) = false) as -> by lia.
  assert ((enPassant b' >=? 0) = false) as -> by lia.
  assert (turn b' = - turn b) as -> by (unfold b', makeMove; simpl; lia).
  set (F := fold_left _ MoveGenerator.allSquares 0).
  set (c0 := if wk (castling b) then _ else 0).
  set (c1 := if wq (castling b) then _ else 0).
  set (c2 := if bk (castling b) then _ else 0).
  set (c3 := if bq (castling b) then _ else 0).
  set (S := low32 (ZobristHash.sideToMove zobrist)).
  set (kpf := low32 (ZobristHash.piece zobrist (at_sq b (from m)) (from m))).
  set (kpl := low32 (ZobristHash.piece zobrist placed (to m))).
  set (kt := k (to m)).
  destruct Hturn as [-> | ->]; simpl;
    apply Z.bits_inj'; intros i _; rewrite !Z.lxor_spec, ?Z.bits_0;
    by destruct (Z.testbit F i), (Z.testbit c0 i), (Z.testbit c1 i), (Z.testbit c2 i),
                (Z.testbit c3 i), (Z.testbit S i), (Z.testbit kpf i), (Z.testbit kpl i),
                (Z.testbit kt i).
Qed.

Lemma makeMove_hash_consistent_witness :
  hash (makeMove Examples.zobrist Examples.blunderBoard Examples.Qxf7)
  = AlphaZeroEngine.compute Examples.zobrist
      (makeMove Examples.zobrist Examples.blunderBoard Examples.Qxf7).
Proof.
  apply (makeMove_hash_consistent Examples.zobrist Examples.blunderBoard Examples.Qxf7).
  - vm_compute. reflexivity.
  - simpl. lia.
  - simpl. lia.
  - simpl. lia.
  - reflexivity.
  - vm_compute. lia.
  - left. reflexivity.
  - vm_compute. reflexivity.
  - vm_compute. reflexivity.
  - vm_compute. reflexivity.
  - vm_compute. reflexivity.
Defined.

(** ** The frame of the root noise *)

Lemma blendPriors_frame cfg sum cs : forall ns noise a,
  blendPriors cfg sum ns cs noise !!! a
  = setPrior (ns !!! a) (prior (blendPriors cfg sum ns cs noise !!! a)).
Proof.
  induction cs as [|c cs IH]; intros ns noise a; simpl.
  { by destruct (ns !!! a). }
  destruct noise as [|x noise]; [by destruct (ns !!! a)|].
  rewrite IH at 1.
  destruct (decide (c = a)) as [->|Hne]; [|by rewrite insert_node_ne].
  destruct (decide (a < length ns)%nat).
  - rewrite insert_node_eq by done. by destruct (ns !!! a).
  - by rewrite list_insert_ge by lia.
Qed.

(** X19. [addDirichletNoise] changes nothing but priors: every node keeps
    all its other fields, a node that is no child of the noised node keeps
    its prior too, the boards and the engine fields are untouched, and
    exactly one random number per child has been drawn. *)
Theorem addDirichletNoise_frame cfg env w (id : nat) :
  wf w ->
  (id < length (mnodes w))%nat ->
  let cs := children (node w id) in
  let w' := addDirichletNoise cfg env w id in
  boards w' = boards w /\ engine w' = engine w /\ ticks w' = ticks w /\
  draws w' = (length cs + draws w)%nat /\
  length (mnodes w') = length (mnodes w) /\
  (forall a, node w' a = setPrior (node w a) (prior (node w' a))) /\
  (forall a, a ∉ cs -> node w' a = node w a).
Proof.
  intros [Hw _] Hid cs w'. unfold w'.
  destruct cs as [|c cs'] eqn:Hcs.
  { unfold addDirichletNoise. fold cs. rewrite Hcs. split_and!; try done.
    intros a. by destruct (node w a). }
  rewrite addDirichletNoise_children by (fold cs; by rewrite Hcs).
  fold cs. rewrite Hcs. rewrite <- Hcs.
  unfold node, drawn, setNodes. cbn [boards engine ticks draws mnodes].
  destruct (blendPriors_spec cfg
              (PolicyNetwork.sumR (noiseSamples cfg env (draws w) (length cs)))
              cs (mnodes w) (noiseSamples cfg env (draws w) (length cs)))
    as (Hlen & _ & Hoff).
  - apply (wf_nodup _ Hw id Hid).
  - intros a Ha. destruct (wf_children _ Hw id a Hid Ha) as (? & _). lia.
  - apply length_noiseSamples.
  - split_and!; try done. intros a. apply blendPriors_frame.
Qed.

Lemma addDirichletNoise_frame_witness :
  draws (addDirichletNoise MCTS_CONFIG Examples.env Examples.fanWorld 0) = 3%nat.
Proof.
  destruct (addDirichletNoise_frame MCTS_CONFIG Examples.env Examples.fanWorld 0)
    as (_ & _ & _ & Hd & _).
  - exact fanWorld_wf.
  - simpl. lia.
  - exact Hd.
Defined.

(** ** What a search can return *)

(** X20. From every well-formed state [search] returns, and it never
    invents a move: the result is null when the root has no child and
    otherwise the move of one of the children that the root has at the end
    of the search, whether the root was allocated by this search or kept
    from an earlier one. *)
Theorem search_returns_child_move cfg zobrist env w (bref : nat)
    (simulations timeLimit : option Z) :
  wf w ->
  exists w' res r,
    search cfg zobrist env w bref simulations timeLimit = Some (w', res) /\
    root (engine w') = Some r /\
    match res with
    | None => children (node w' r) = []
    | Some m => exists c, c ∈ children (node w' r) /\ move (node w' c) = Some m
    end.
Proof.
  intros Hwf.
  destruct (search_spec cfg zobrist env w bref simulations timeLimit Hwf)
    as (r & Hr & [[Hnil Hs]|(Hne & _)]).
  - by eexists _, None, r.
  - destruct (search_result_move cfg zobrist env w bref simulations timeLimit r Hwf Hr Hne)
      as (w4 & os & w' & m & c & _ & Hs & Hm & He & Hr4 & Hc & Hmv & _).
    exists w', (Some m), r. split; [done|]. split; [by rewrite He|].
    exists c. unfold node in *. by rewrite Hm.
Qed.

Lemma search_returns_child_move_witness :
  exists w' res,
    search MCTS_CONFIG Examples.zobrist Examples.env Examples.marchWorld
      AlphaZeroEngine.boardRef (Some 2000) (Some 5) = Some (w', res).
Proof.
  destruct (search_returns_child_move MCTS_CONFIG Examples.zobrist Examples.env
              Examples.marchWorld AlphaZeroEngine.boardRef (Some 2000) (Some 5))
    as (w' & res & r & Hs & _).
  - apply wf_positionFen, wf_create.
  - by exists w', res.
Defined.

(** ** The evaluation of the two sides *)

(** X21. [Evaluator.evaluate] is not zero-sum: the mobility bonus always
    counts for the side to move.  The evaluation of a position with White
    to move and the evaluation of the same position with Black to move add
    up to 8 times the number of moves of both sides; material, piece-square
    tables and the bishop pair cancel. *)
Theorem evaluate_both_sides cfg (b : Board) :
  Evaluator.evaluate cfg (withTurn b 1) + Evaluator.evaluate cfg (withTurn b (-1))
  = 8 * (Z.of_nat (length (MoveGenerator.generate (withTurn b 1) false))
         + Z.of_nat (length (MoveGenerator.generate (withTurn b (-1)) false))).
Proof.
  unfold Evaluator.evaluate. cbn [turn withTurn]. simpl (1 =? 1). simpl (-1 =? 1).
  change (Evaluator.step cfg (withTurn b (-1))) with (Evaluator.step cfg (withTurn b 1)).
  set (a := fold_left _ _ _).
  destruct (Evaluator.whiteBishops a >=? 2), (Evaluator.blackBishops a >=? 2); lia.
Qed.
